(** * Sliding-window layout demo: a shallow embedding and its properties

    The development follows the JavaScript sources of the demo:
    - [index.js]: the index-based variant ([optimizeWindowSize],
      [calculateWindows]);
    - the Nelder-Mead variant ([optimizeWithNelderMead], its weight
      normalisation and [objectiveFunction]);
    - the position-aware variant ([getSlicePositions], [get_asdf],
      [get_asdf1], [get_windows], [get_stats], [get_errors], [get_costs],
      [get_results], [objective]);
    - the statistics that [updateVisualization] computes from the windows,
      and, of [optimizeWithNelderMead], the choice among the starts, the
      result built from the best point and [randomGuess]; the minimiser
      [fmin.nelderMead] is a library outside the sources and enters as a
      function variable.

    Conventions of the embedding:
    - integers that the code uses as indices and counts are [Z];
    - JavaScript numbers that hold physical lengths, ratios and costs are
      exact rationals [Q].  Exact arithmetic decides a tie between two
      candidates of the nearest-match queries by their order, where binary
      floating point decides it by the rounding of the two errors; the
      module [Rounded] repeats the position-aware functions with every
      operation rounded to binary64 ([Binary64.round]), and the property
      that depends on it is stated there.  The relative error of the
      nearest-match queries, whose divisor is a target that may be zero, is
      a [num]: a rational, [Infinity] or [NaN].  The other quotients are
      taken in [Q], where a zero divisor yields 0; the theorems on their
      values exclude it by a hypothesis (at least two items, a positive
      slice interval, targets other than zero);
    - a JavaScript object with integer keys is an association list kept in
      ascending key order, which is the order [Object.entries] enumerates;
    - a thrown [TypeError] is an explicit outcome of the result type. *)

From Stdlib Require Import ZArith QArith Qround Qabs List Lia Lqa Bool Sorted.
Import ListNotations.

Local Open Scope Z_scope.

(** ** Numbers *)

(** [a < b] on JavaScript numbers, as a boolean. *)
Definition Qltb (a b : Q) : bool := negb (Qle_bool b a).

Lemma Qltb_lt (a b : Q) : Qltb a b = true <-> (a < b)%Q.
Proof.
  unfold Qltb. rewrite negb_true_iff. split; intro H.
  - apply Qnot_le_lt. intro L. apply Qle_bool_iff in L. congruence.
  - destruct (Qle_bool b a) eqn:E; [|reflexivity].
    apply Qle_bool_iff in E. exfalso. apply (Qlt_not_le _ _ H E).
Qed.

Lemma Qltb_ge (a b : Q) : Qltb a b = false <-> (b <= a)%Q.
Proof.
  unfold Qltb. rewrite negb_false_iff. apply Qle_bool_iff.
Qed.

(** The value of a quotient whose divisor may be zero: a finite number,
    [Infinity] (a positive number over zero) or [NaN] (zero over zero). *)
Inductive num := Fin (q : Q) | Infinity | NaN.

(** [a < b] on such values: false as soon as [NaN] is involved. *)
Definition num_ltb (a b : num) : bool :=
  match a, b with
  | Fin x, Fin y => Qltb x y
  | Fin _, Infinity => true
  | _, _ => false
  end.

(** ** Brute-force window-size search ([optimizeWindowSize]) *)

Module BruteForce.

Record best := mkBest { bestWindowSize : Z; bestCoverage : Q }.

Section Search.
Variables totalImages numWindows overlapPercent : Z.

(** [Math.floor((windowSize * overlapPercent) / 100)] *)
Definition overlapSize (windowSize : Z) : Z :=
  (windowSize * overlapPercent) / 100.

Definition stepSize (windowSize : Z) : Z :=
  windowSize - overlapSize windowSize.

Definition lastWindowStart (windowSize : Z) : Z :=
  (numWindows - 1) * stepSize windowSize.

Definition lastWindowEnd (windowSize : Z) : Z :=
  lastWindowStart windowSize + windowSize - 1.

Definition coverage (windowSize : Z) : Z :=
  Z.min (lastWindowEnd windowSize + 1) totalImages.

Definition coveragePercent (windowSize : Z) : Q :=
  (inject_Z (coverage windowSize) / inject_Z totalImages)%Q.

(** One pass through the body of the [for] loop. *)
Definition loop_body (st : best) (windowSize : Z) : best :=
  if stepSize windowSize <=? 0 then st
  else if Qltb (bestCoverage st) (coveragePercent windowSize)
          && (lastWindowEnd windowSize <? totalImages)
       then mkBest windowSize (coveragePercent windowSize)
       else st.

(** [for (windowSize = w; ...; windowSize++)] with [n] iterations left. *)
Fixpoint for_loop (n : nat) (w : Z) (st : best) : best :=
  match n with
  | O => st
  | S n' => for_loop n' (w + 1) (loop_body st w)
  end.

Definition optimizeWindowSize : Z :=
  bestWindowSize (for_loop (Z.to_nat totalImages) 1 (mkBest 1 0)).

(** A candidate size the search accepts: positive step, and the last
    window ends inside the sequence. *)
Definition feasible (w : Z) : Prop :=
  0 < stepSize w /\ lastWindowEnd w < totalImages.

Definition feasibleb (w : Z) : bool :=
  (0 <? stepSize w) && (lastWindowEnd w <? totalImages).

End Search.

End BruteForce.

(** ** JavaScript objects with integer keys

    An object whose property names are array indices is enumerated by
    [Object.entries] in ascending numeric order, whatever the order of the
    assignments that created the properties.  The embedding keeps such an
    object as an association list in that order. *)

Module Obj.

Definition t (V : Type) : Type := list (Z * V).

(** [o[k] = v] *)
Fixpoint set {V} (k : Z) (v : V) (o : t V) : t V :=
  match o with
  | [] => [(k, v)]
  | (k', v') :: r =>
      if k <? k' then (k, v) :: o
      else if k =? k' then (k, v) :: r
      else (k', v') :: set k v r
  end.

(** [o[k]], [None] standing for [undefined]. *)
Fixpoint get {V} (o : t V) (k : Z) : option V :=
  match o with
  | [] => None
  | (k', v) :: r => if k =? k' then Some v else get r k
  end.

Definition keys {V} (o : t V) : list Z := map fst o.

(** [Object.entries(o).reduce(f)] without an initial value: [None] is the
    [TypeError] that an empty array raises. *)
Definition reduce {V} (f : Z * V -> Z * V -> Z * V) (o : t V) : option (Z * V) :=
  match o with
  | [] => None
  | e :: r => Some (fold_left f r e)
  end.

End Obj.

(** Outcome of a computation that may raise a [TypeError]; [OutOfFuel] is
    the embedding's own outcome for a loop cut short by its fuel. *)
Inductive outcome (A : Type) : Type :=
| Ok (a : A)
| TypeError
| OutOfFuel.
Arguments Ok {A} a.
Arguments TypeError {A}.
Arguments OutOfFuel {A}.

Definition bind {A B} (m : outcome A) (k : A -> outcome B) : outcome B :=
  match m with
  | Ok a => k a
  | TypeError => TypeError
  | OutOfFuel => OutOfFuel
  end.

(** A property read on a value that may be [undefined]. *)
Definition defined {A} (o : option A) : outcome A :=
  match o with
  | Some a => Ok a
  | None => TypeError
  end.

Notation "x <- m ;; k" := (bind m (fun x => k))
  (at level 61, m at next level, right associativity).
Notation "' p <- m ;; k" := (bind m (fun x => let p := x in k))
  (at level 61, p pattern, m at next level, right associativity).

(** ** Position-aware variant *)

Module Position.
Record t := mk { rel_center_mm : Q; thickness_mm : Q }.
End Position.

Module Window.
Record t := mk {
  start_img : Z;
  start_idx : Z;
  start_mm : Q;
  end_img : Z;
  end_idx : Z;
  end_mm : Q;
  error : num;
  coverage_mm : Q;
  coverage_imgs : Z;
  center_idx : Z;
  center_mm : Q
}.
End Window.

(** The [mm] property of a step is read from [rel_start_mm], which no
    position has: it is always [undefined] and is left out of the record. *)
Module Step.
Record t := mk {
  img : Z;
  idx : Z;
  error : num;
  distance_mm : Q;
  distance_imgs : Z
}.
End Step.

Module Entry.
Record t := mk { window : Window.t; step : Step.t }.
End Entry.

Module PositionAware.

Definition table := Obj.t Position.t.

(** [for (let i = totalImages; i > 0; i--)] with [n] iterations left. *)
Fixpoint slice_loop (totalImages : Z) (spaceBetweenSlices sliceThickness : Q)
    (n : nat) (i : Z) (positions : table) : table :=
  match n with
  | O => positions
  | S n' =>
      slice_loop totalImages spaceBetweenSlices sliceThickness n' (i - 1)
        (Obj.set i
           (Position.mk (inject_Z (totalImages - i) * spaceBetweenSlices)
                        sliceThickness)
           positions)
  end.

Definition getSlicePositions (totalImages : Z) (totalLength sliceThickness : Q)
    : table :=
  let spaceBetweenSlices := (totalLength / inject_Z (totalImages - 1))%Q in
  slice_loop totalImages spaceBetweenSlices sliceThickness
    (Z.to_nat totalImages) totalImages [].

(** The optional second argument [end = null] is an [option]. *)
Definition distance_mm (start : Position.t) (end_ : option Position.t) : Q :=
  match end_ with
  | None => 0
  | Some e => Qabs (Position.rel_center_mm e - Position.rel_center_mm start)
  end.

Definition thickness_mm (start : Position.t) (end_ : option Position.t) : Q :=
  match end_ with
  | None => Position.thickness_mm start
  | Some e => (Position.thickness_mm start + Position.thickness_mm e) / 2
  end.

Definition coverage_mm (start : Position.t) (end_ : option Position.t) : Q :=
  match end_ with
  | None => Position.thickness_mm start
  | Some _ => distance_mm start end_ + thickness_mm start end_
  end.

Definition get_future_positions (positions : table) (start_index : Z) : table :=
  filter (fun kv => start_index <? fst kv) positions.

(** [(Math.abs(c - target_mm) / target_mm) * 100]; over a zero target the
    quotient is [Infinity], or [NaN] when the numerator is zero too, and
    stays so when multiplied by 100. *)
Definition rel_error (target_mm c : Q) : num :=
  if Qeq_bool target_mm 0 then
    if Qeq_bool (Qabs (c - target_mm)) 0 then NaN else Infinity
  else Fin (Qabs (c - target_mm) / target_mm * 100).

(** [(min, curr) => curr[1] < min[1] ? curr : min] *)
Definition pick_min (min curr : Z * num) : Z * num :=
  if num_ltb (snd curr) (snd min) then curr else min.

(** The two nearest-match queries differ only in the measure they apply to
    the pair (start position, candidate position). *)
Definition nearest (measure : Position.t -> option Position.t -> Q)
    (positions : table) (start_index : Z) (target_mm : Q)
    : outcome (Z * num * Q) :=
  let future_positions_mm := get_future_positions positions start_index in
  measures <-
    (match future_positions_mm with
     | [] => Ok []
     | _ :: _ =>
         start <- defined (Obj.get positions start_index) ;;
         Ok (map (fun kv => (fst kv, measure start (Some (snd kv))))
               future_positions_mm)
     end) ;;
  let errors := map (fun kc => (fst kc, rel_error target_mm (snd kc))) measures in
  min <- defined (Obj.reduce pick_min errors) ;;
  let min_error_key := fst min in
  min_error <- defined (Obj.get errors min_error_key) ;;
  min_error_measure <- defined (Obj.get measures min_error_key) ;;
  Ok (min_error_key, min_error, min_error_measure).

Definition get_asdf := nearest coverage_mm.
Definition get_asdf1 := nearest distance_mm.

(** [Math.min(...Object.keys(slicePositions))]; [None] stands for the
    [Infinity] of an empty table. *)
Definition smallestKey (positions : table) : option Z :=
  match Obj.keys positions with
  | [] => None
  | k :: ks => Some (fold_left Z.min ks k)
  end.

Section Generator.
Variable slicePositions : table.
Variable x0 x1 : Q.

(** The object literal pushed for one window; [d] is the variable of that
    name in [get_windows]. *)
Definition make_entry (window_start_img window_end_img : Z)
    (e1 : num) (c : Q) (next_window_start_img : Z) (e2 : num) (d : Q)
    : outcome Entry.t :=
  let center_idx := (window_start_img + window_end_img) / 2 in
  start_pos <- defined (Obj.get slicePositions window_start_img) ;;
  end_pos <- defined (Obj.get slicePositions window_end_img) ;;
  center_pos <- defined (Obj.get slicePositions center_idx) ;;
  _ <- defined (Obj.get slicePositions next_window_start_img) ;;
  Ok (Entry.mk
        (Window.mk window_start_img (window_start_img - 1)
           (Position.rel_center_mm start_pos)
           window_end_img (window_end_img - 1)
           (Position.rel_center_mm end_pos)
           e1 c (window_end_img - window_start_img + 1)
           center_idx (Position.rel_center_mm center_pos))
        (Step.mk next_window_start_img (next_window_start_img - 1)
           e2 d (next_window_start_img - window_start_img + 1))).

(** The [while (true)] loop.  [d] is assigned once, before the loop: the
    destructuring inside the loop binds only the key and the error. *)
Fixpoint windows_loop (fuel : nat) (d : Q) (next_window_start_img : Z)
    (windows : list Entry.t) : outcome (list Entry.t) :=
  match fuel with
  | O => OutOfFuel
  | S fuel' =>
      let window_start_img := next_window_start_img in
      '(window_end_img, e1, c) <- get_asdf slicePositions window_start_img x0 ;;
      if num_ltb (Fin 1) e1 then Ok windows
      else
        '(next_window_start_img, e2, _) <-
           get_asdf1 slicePositions window_start_img x1 ;;
        window <- make_entry window_start_img window_end_img e1 c
                    next_window_start_img e2 d ;;
        windows_loop fuel' d next_window_start_img (windows ++ [window])
  end.

Definition get_windows_fuel (fuel : nat) : outcome (list Entry.t) :=
  match smallestKey slicePositions with
  | None => TypeError
  | Some window_start_img =>
      '(window_end_img, e1, c) <- get_asdf slicePositions window_start_img x0 ;;
      '(next_window_start_img, e2, d) <-
         get_asdf1 slicePositions window_start_img x1 ;;
      first <- make_entry window_start_img window_end_img e1 c
                 next_window_start_img e2 d ;;
      windows_loop fuel d next_window_start_img [first]
  end.

(** One unit of fuel per entry of the table is enough (see
    [get_windows_fuel_enough] below). *)
Definition get_windows : outcome (list Entry.t) :=
  get_windows_fuel (length slicePositions).

End Generator.

(** *** Statistics, errors and costs of the position-aware variant *)

(** The keys of the [stats], [targets], [errors] and [weights] objects. *)
Inductive criterion := total_coverage | window_coverage | step_size.

(** An object with exactly these three properties. *)
Definition per_criterion := criterion -> Q.

Definition criterion_eqb (a b : criterion) : bool :=
  match a, b with
  | total_coverage, total_coverage
  | window_coverage, window_coverage
  | step_size, step_size => true
  | _, _ => false
  end.

(** [{ total_coverage: a, window_coverage: b, step_size: c }] *)
Definition object3 (a b c : Q) : per_criterion :=
  fun k =>
    match k with
    | total_coverage => a
    | window_coverage => b
    | step_size => c
    end.

(** [windows.reduce((acc, window) => acc + f(window), 0)] *)
Definition sum_over {A} (f : A -> Q) (l : list A) : Q :=
  fold_left (fun acc a => acc + f a)%Q l 0%Q.

(** [get_stats]; [windows[0]] of an empty array is [undefined], and so is a
    position of the table under a key it does not have. *)
Definition get_stats (slicePositions : table) (windows : list Entry.t)
    : outcome per_criterion :=
  first_window <- defined (nth_error windows 0) ;;
  last_window <- defined (nth_error windows (length windows - 1)) ;;
  first_pos <- defined (Obj.get slicePositions
                          (Window.start_img (Entry.window first_window))) ;;
  last_pos <- defined (Obj.get slicePositions
                         (Window.end_img (Entry.window last_window))) ;;
  let coverage := coverage_mm first_pos (Some last_pos) in
  let window_coverage :=
    (sum_over (fun w => Window.coverage_mm (Entry.window w)) windows
     / inject_Z (Z.of_nat (length windows)))%Q in
  let step_size :=
    (sum_over (fun w => Step.distance_mm (Entry.step w)) windows
     / inject_Z (Z.of_nat (length windows)))%Q in
  Ok (object3 coverage window_coverage step_size).

Section Cost.
Variables targets weights : per_criterion.

(** The quotient is taken in [Q]: the value is that of the code for a
    target other than zero. *)
Definition get_error (stats : per_criterion) (key : criterion) : Q :=
  (Qabs (stats key - targets key) / targets key * 100)%Q.

Definition get_errors (stats : per_criterion) : per_criterion :=
  object3 (get_error stats total_coverage)
          (get_error stats window_coverage)
          (get_error stats step_size).

Definition get_cost (errors : per_criterion) (key : criterion) : Q :=
  (weights key * errors key)%Q.

(** [Object.keys(errors)] lists the properties in creation order. *)
Definition get_cost_sum (errors : per_criterion) : Q :=
  fold_left (fun acc key => acc + get_cost errors key)%Q
    [total_coverage; window_coverage; step_size] 0%Q.

Record costs := mkCosts { per_key : per_criterion; sum : Q }.

Definition get_costs (errors : per_criterion) : costs :=
  mkCosts (object3 (get_cost errors total_coverage)
                   (get_cost errors window_coverage)
                   (get_cost errors step_size))
          (get_cost_sum errors).
End Cost.

(** *** Weight normalisation in [calculateWindows]

    [raw_weights] is kept as the list of its entries, in creation order. *)
Section Weights.
Context {K : Type}.

Definition normalize_weights (raw_weights : list (K * Q)) : list (K * Q) :=
  let totalWeight := fold_left (fun acc val => acc + val)%Q
                       (map snd raw_weights) 0%Q in
  if Qeq_bool totalWeight 0 then
    let weight_count := inject_Z (Z.of_nat (length (map fst raw_weights))) in
    map (fun kv => (fst kv, 1 / weight_count)%Q) raw_weights
  else
    map (fun kv => (fst kv, snd kv / totalWeight)%Q) raw_weights.
End Weights.

(** The three weights read from the form, in the order of the literal. *)
Definition raw_weights (w_window_coverage w_step_size w_total_coverage : Q)
    : list (criterion * Q) :=
  [(window_coverage, w_window_coverage);
   (step_size, w_step_size);
   (total_coverage, w_total_coverage)].

(** [weights[key]] on the normalised object; every key is present. *)
Definition weight_of (weights : list (criterion * Q)) (key : criterion) : Q :=
  match find (fun kv => criterion_eqb (fst kv) key) weights with
  | Some kv => snd kv
  | None => 0
  end.

End PositionAware.

(** ** Nelder-Mead variant: weights and objective *)

Module NelderMead.

Inductive key := window_length | window_number | step_or_overlap | percentage.

Definition keys : list key :=
  [window_length; window_number; step_or_overlap; percentage].

Definition key_eqb (a b : key) : bool :=
  match a, b with
  | window_length, window_length
  | window_number, window_number
  | step_or_overlap, step_or_overlap
  | percentage, percentage => true
  | _, _ => false
  end.

(** An object with these four properties, and the assignment [o[k] = v]. *)
Definition object := key -> Q.

Definition set (o : object) (k : key) (v : Q) : object :=
  fun k' => if key_eqb k' k then v else o k'.

(** [v || d] on numbers: [d] replaces a zero. *)
Definition or_else (v d : Q) : Q := if Qeq_bool v 0 then d else v.

(** [Math.max] on two numbers. *)
Definition Qmax (a b : Q) : Q := if Qltb a b then b else a.

(** The first lines of [optimizeWithNelderMead]: the weights are normalised
    in place. *)
Definition normalize_weights (weights : object) : object :=
  let wsum := fold_left (fun wsum k => wsum + or_else (weights k) 0)%Q keys 0%Q in
  let '(weights, wsum) :=
    if Qeq_bool wsum 0
    then (fold_left (fun w k => set w k (1 # 4)) keys weights, 1%Q)
    else (weights, wsum) in
  fold_left (fun w k => set w k (or_else (w k) 0 / wsum)%Q) keys weights.

Section Objective.
Variable totalImages : Z.
Variable targets : object.
Variable sliceInterval : Q.
Variable weights : object.

Definition scale : object :=
  fun k =>
    match k with
    | window_length =>
        Qmax (or_else (targets window_length) (5 * sliceInterval)) sliceInterval
    | window_number => Qmax (or_else (targets window_number) 4) 2
    | step_or_overlap =>
        Qmax (or_else (targets step_or_overlap) (2 * sliceInterval)) sliceInterval
    | percentage => Qmax (or_else (targets percentage) 80) 1
    end.

Definition clampInt (x : Q) (lo hi : Z) : Z :=
  Z.max lo (Z.min hi (Qfloor x)).

(** [e < 1 ? 0.5 * e * e : e - 0.5] *)
Definition huber (e : Q) : Q :=
  if Qltb e 1 then ((1 # 2) * e * e)%Q else (e - (1 # 2))%Q.

(** The parameter vector; its second component is a placeholder the
    objective never reads. *)
Record params := mkParams { p0 : Q; p1 : Q; p2 : Q; p3 : Q }.

Definition objectiveFunction (p : params) : Q :=
  let windowCm := Qmax (p0 p) sliceInterval in
  let stepCm := Qmax (p2 p) sliceInterval in
  let windowImages := clampInt (windowCm / sliceInterval) 1 totalImages in
  let stepImages :=
    clampInt (stepCm / sliceInterval) 1 (Z.max 1 (windowImages - 1)) in
  let numWindows := (totalImages - windowImages) / stepImages + 1 in
  if numWindows <? 2 then 1000%Q
  else
    let lastStart := (numWindows - 1) * stepImages in
    let lastEnd := lastStart + windowImages - 1 in
    if lastEnd >=? totalImages then 1000%Q
    else
      let coverage := Z.min (lastEnd + 1) totalImages in
      let coveragePct :=
        (inject_Z coverage / inject_Z totalImages * 100)%Q in
      let v : object :=
        fun k =>
          match k with
          | window_length => windowCm
          | window_number => inject_Z numWindows
          | step_or_overlap => stepCm
          | percentage => coveragePct
          end in
      let cost :=
        fold_left
          (fun cost k =>
             let t := targets k in
             let s := or_else (scale k) 1 in
             let e := (Qabs (v k - t) / s)%Q in
             let h := huber e in
             (cost + or_else (weights k) 0 * h)%Q)
          keys 0%Q in
      let cost := if stepImages >=? windowImages then (cost + 5)%Q else cost in
      (cost * 100)%Q.
End Objective.

End NelderMead.

(** ** Index-based variant: [calculateWindows] of [index.js] *)

Module IndexBased.

Record window := mkWindow {
  start : Z;
  end_ : Z;
  center : Q;
  centercm : Q
}.

Section Windows.
Variable totalImages : Z.
Variable sliceInterval : Q.
Variables windowSize stepSize : Z.

(** [for (let i = ...; i < numWindows; i++)] with [n] iterations left;
    the [break] leaves the loop with the windows pushed so far. *)
Fixpoint push_windows (n : nat) (i : Z) (windows : list window) : list window :=
  match n with
  | O => windows
  | S n' =>
      let start := i * stepSize in
      let end_ := Z.min (start + windowSize - 1) (totalImages - 1) in
      if start >=? totalImages then windows
      else
        let centerIndex :=
          (inject_Z start
           + (inject_Z (Z.min windowSize (totalImages - start)) - 1) / 2)%Q in
        let centercm := (centerIndex * sliceInterval)%Q in
        push_windows n' (i + 1)
          (windows ++ [mkWindow start end_ centerIndex centercm])
  end.
End Windows.

(** The [windows] property of the object [calculateWindows] returns; its
    arguments are the four values read from the form. *)
Definition calculateWindows (totalImages numWindows overlapPercent : Z)
    (sliceInterval : Q) : list window :=
  let windowSize :=
    BruteForce.optimizeWindowSize totalImages numWindows overlapPercent in
  let overlapSize := (windowSize * overlapPercent) / 100 in
  let stepSize := windowSize - overlapSize in
  push_windows totalImages sliceInterval windowSize stepSize
    (Z.to_nat numWindows) 0 [].

End IndexBased.

(** ** Statistics shown by [updateVisualization] of [index.js] *)

Module Display.
Import IndexBased.

(** The pairs [(windows[i], windows[i + 1])] that the loop
    [for (i = 0; i < windows.length - 1; i++)] visits, in order. *)
Fixpoint adjacent {A} (l : list A) : list (A * A) :=
  match l with
  | a :: (b :: _) as r => (a, b) :: adjacent r
  | _ => []
  end.

Record stats := mkStats {
  coverageLength : Z;
  coverage : Q;
  actualOverlap : num
}.

(** The lines under "Calculate stats"; reading [end] of the last window of
    an empty array raises a [TypeError]. *)
Definition calculate_stats (totalImages windowSize : Z) (windows : list window)
    : outcome stats :=
  lastWindow <- defined (nth_error windows (length windows - 1)) ;;
  firstWindow <- defined (nth_error windows 0) ;;
  let seriesLength := totalImages in
  let coverageLength := end_ lastWindow - start firstWindow + 1 in
  let coverage := (inject_Z coverageLength / inject_Z seriesLength * 100)%Q in
  let actualOverlap :=
    fold_left
      (fun actualOverlap pair =>
         (actualOverlap
          + inject_Z (end_ (fst pair) + 1 - start (snd pair))
            / inject_Z windowSize)%Q)
      (adjacent windows) 0%Q in
  (* with a single window the loop adds nothing and the division is 0 / 0 *)
  let actualOverlap :=
    if Z.of_nat (length windows) - 1 =? 0 then NaN
    else Fin (actualOverlap / inject_Z (Z.of_nat (length windows) - 1) * 100)%Q in
  Ok (mkStats coverageLength coverage actualOverlap).

End Display.

(** ** The rest of [optimizeWithNelderMead]: starts, selection, result *)

Module Optimizer.
Import NelderMead.

(** What [fmin.nelderMead] returns: the point reached and its value. *)
Record run := mkRun { x : params; fx : Q }.

(** One pass of [for (const g of guesses)]; [None] is a start that threw,
    which the [catch] ignores. *)
Definition keep_best (best : option run) (res : option run) : option run :=
  match res with
  | None => best
  | Some res =>
      match best with
      | None => Some res
      | Some b => if Qltb (fx res) (fx b) then Some res else best
      end
  end.

Definition best_of (results : list (option run)) : option run :=
  fold_left keep_best results None.

Record result := mkResult {
  windowSize : Z;
  stepOrOverlap : Z;
  numWindows : Z;
  coverage : Q;
  windowCm : Q;
  stepCm : Q;
  optimizationScore : Q;
  converged : bool
}.

Section Optimize.
Variable totalImages : Z.
Variable sliceInterval : Q.

(** The lines after the loop over the starts. *)
Definition finalize (best : run) : result :=
  let windowCm := Qmax (p0 (x best)) sliceInterval in
  let stepCm := Qmax (p2 (x best)) sliceInterval in
  let windowImages := Z.max 1 (Qfloor (windowCm / sliceInterval)) in
  let stepImages :=
    Z.max 1 (Z.min (Qfloor (stepCm / sliceInterval)) (windowImages - 1)) in
  let numWindows := (totalImages - windowImages) / stepImages + 1 in
  let lastStart := (numWindows - 1) * stepImages in
  let lastEnd := lastStart + windowImages - 1 in
  let coverage :=
    (inject_Z (Z.min (lastEnd + 1) totalImages) / inject_Z totalImages)%Q in
  mkResult windowImages stepImages numWindows coverage windowCm stepCm
    (fx best) (Qltb (fx best) (5 # 100)).

(** [randomGuess], with the three numbers it draws from [Math.random]. *)
Definition randomGuess (u1 u2 u3 : Q) : params :=
  let wImg :=
    clampInt ((u1 * (8 # 10) + (2 # 10)) * inject_Z (Z.min totalImages 200))
      2 totalImages in
  let sImg := clampInt (u2 * (inject_Z wImg - 1) + 1) 1 (wImg - 1) in
  let pct := (u3 * 100)%Q in
  mkParams (inject_Z wImg * sliceInterval) 0 (inject_Z sImg * sliceInterval) pct.

Section Starts.
(** The minimiser of the [fmin] library, which is not part of the
    sources: only its result, or its failure, enters. *)
Variable nelderMead : (params -> Q) -> params -> option run.
Variable targets weights : object.

(** [optimizeWithNelderMead] from the jittered guesses on; [None] is
    [throw new Error("All optimization starts failed.")]. *)
Definition optimizeWithNelderMead (guesses : list params) : option result :=
  let weights := normalize_weights weights in
  let objectiveFunction :=
    objectiveFunction totalImages targets sliceInterval weights in
  match best_of (map (nelderMead objectiveFunction) guesses) with
  | None => None
  | Some best => Some (finalize best)
  end.
End Starts.

(** The window loop of [calculateWindows] in the Nelder-Mead variant: the
    loop of the index-based variant, run on the optimiser's result. *)
Definition calculateWindows (r : result) : list IndexBased.window :=
  IndexBased.push_windows totalImages sliceInterval (windowSize r)
    (stepOrOverlap r) (Z.to_nat (numWindows r)) 0 [].

End Optimize.

End Optimizer.

(** ** Statistics shown by [updateVisualization] of the Nelder-Mead variant *)

Module GuardedDisplay.
Import IndexBased.

Record stats := mkStats {
  coverageLength : Z;
  coverage : Q;
  actualOverlap : Q
}.

(** The lines from [if (!windows.length) return;] to the end of "Calculate
    stats"; [Ok None] is the early return. *)
Definition calculate_stats (totalImages : Z) (windows : list window)
    : outcome (option stats) :=
  if (length windows =? 0)%nat then Ok None
  else
    lastWindow <- defined (nth_error windows (length windows - 1)) ;;
    firstWindow <- defined (nth_error windows 0) ;;
    let seriesLength := totalImages in
    let coverageLength := end_ lastWindow - start firstWindow + 1 in
    let coverage := (inject_Z coverageLength / inject_Z seriesLength * 100)%Q in
    let actualOverlap :=
      fold_left
        (fun actualOverlap pair =>
           (actualOverlap
            + inject_Z (end_ (fst pair) + 1 - start (snd pair)))%Q)
        (Display.adjacent windows) 0%Q in
    let actualOverlap :=
      if (1 <? length windows)%nat
      then (actualOverlap / inject_Z (Z.of_nat (length windows) - 1))%Q
      else 0%Q in
    Ok (Some (mkStats coverageLength coverage actualOverlap)).

End GuardedDisplay.

(** ** The rest of [calculateWindows] of the position-aware variant *)

Module Layout.
Import PositionAware.

(** [Math.max(...Object.keys(slicePositions))]; [None] stands for the
    [-Infinity] of an empty table. *)
Definition largestKey (positions : table) : option Z :=
  match Obj.keys positions with
  | [] => None
  | k :: ks => Some (fold_left Z.max ks k)
  end.

(** [coverage_mm(slicePositions[smallestKey], slicePositions[largestKey])],
    the length the percentage target refers to. *)
Definition full_coverage (slicePositions : table) : outcome Q :=
  match smallestKey slicePositions, largestKey slicePositions with
  | Some s, Some l =>
      first <- defined (Obj.get slicePositions s) ;;
      last <- defined (Obj.get slicePositions l) ;;
      Ok (coverage_mm first (Some last))
  | _, _ => TypeError
  end.

Record results := mkResults {
  windows : list Entry.t;
  stats : per_criterion;
  errors : per_criterion;
  cost : costs
}.

Section Objective.
Variable slicePositions : table.
Variables targets weights : per_criterion.

Definition get_results (x0 x1 : Q) : outcome results :=
  _windows <- get_windows slicePositions x0 x1 ;;
  stats <- get_stats slicePositions _windows ;;
  let errors := get_errors targets stats in
  let cost := get_costs weights errors in
  Ok (mkResults _windows stats errors cost).

Definition objective (x0 x1 : Q) : outcome Q :=
  results <- get_results x0 x1 ;;
  Ok (sum (cost results)).
End Objective.

End Layout.

(** ** Binary floating point

    A JavaScript number is an IEEE 754 binary64 value, and every arithmetic
    operation returns the value nearest to the exact result, ties to the
    even significand.  [round] is that rounding on rationals.  Subnormal
    numbers and overflow are left out: it is used on values between 2^-1022
    and 2^1024 only. *)

Module Binary64.

(** 2^e *)
Definition pow2 (e : Z) : Q :=
  if 0 <=? e then inject_Z (2 ^ e) else (1 / inject_Z (2 ^ (- e)))%Q.

(** The integer nearest to [q >= 0], the even one of two at equal
    distance. *)
Definition nearest_even (q : Q) : Z :=
  let f := Qfloor q in
  match (2 * (q - inject_Z f) ?= 1)%Q with
  | Lt => f
  | Gt => f + 1
  | Eq => if Z.even f then f else f + 1
  end.

(** The exponent [E] with 2^E <= a < 2^(E+1), for [a > 0]. *)
Definition exponent (a : Q) : Z :=
  let l := Z.log2 (Qnum a) - Z.log2 (Z.pos (Qden a)) in
  if Qltb a (pow2 l) then l - 1 else l.

(** A significand of 53 bits. *)
Definition round (q : Q) : Q :=
  if Qeq_bool q 0 then 0%Q
  else
    let a := Qabs q in
    let e := exponent a - 52 in
    let m := nearest_even (a / pow2 e) in
    Qred ((if Qltb q 0 then - inject_Z m else inject_Z m) * pow2 e).

End Binary64.

(** ** The position-aware variant with rounded arithmetic

    The functions of [PositionAware] once more, every arithmetic operation
    followed by the rounding [rnd]; with the identity for [rnd] they are
    the functions of [PositionAware]. *)

Module Rounded.
Import PositionAware.

Section Rounded.
Variable rnd : Q -> Q.

Fixpoint slice_loop (totalImages : Z) (spaceBetweenSlices sliceThickness : Q)
    (n : nat) (i : Z) (positions : table) : table :=
  match n with
  | O => positions
  | S n' =>
      slice_loop totalImages spaceBetweenSlices sliceThickness n' (i - 1)
        (Obj.set i
           (Position.mk (rnd (inject_Z (totalImages - i) * spaceBetweenSlices))
                        sliceThickness)
           positions)
  end.

Definition getSlicePositions (totalImages : Z) (totalLength sliceThickness : Q)
    : table :=
  let spaceBetweenSlices := rnd (totalLength / inject_Z (totalImages - 1)) in
  slice_loop totalImages spaceBetweenSlices sliceThickness
    (Z.to_nat totalImages) totalImages [].

Definition distance_mm (start : Position.t) (end_ : option Position.t) : Q :=
  match end_ with
  | None => 0
  | Some e =>
      Qabs (rnd (Position.rel_center_mm e - Position.rel_center_mm start))
  end.

Definition thickness_mm (start : Position.t) (end_ : option Position.t) : Q :=
  match end_ with
  | None => Position.thickness_mm start
  | Some e =>
      rnd (rnd (Position.thickness_mm start + Position.thickness_mm e) / 2)
  end.

Definition coverage_mm (start : Position.t) (end_ : option Position.t) : Q :=
  match end_ with
  | None => Position.thickness_mm start
  | Some _ => rnd (distance_mm start end_ + thickness_mm start end_)
  end.

Definition rel_error (target_mm c : Q) : num :=
  if Qeq_bool target_mm 0 then
    if Qeq_bool (Qabs (rnd (c - target_mm))) 0 then NaN else Infinity
  else Fin (rnd (rnd (Qabs (rnd (c - target_mm)) / target_mm) * 100)).

Definition nearest (measure : Position.t -> option Position.t -> Q)
    (positions : table) (start_index : Z) (target_mm : Q)
    : outcome (Z * num * Q) :=
  let future_positions_mm := get_future_positions positions start_index in
  measures <-
    (match future_positions_mm with
     | [] => Ok []
     | _ :: _ =>
         start <- defined (Obj.get positions start_index) ;;
         Ok (map (fun kv => (fst kv, measure start (Some (snd kv))))
               future_positions_mm)
     end) ;;
  let errors := map (fun kc => (fst kc, rel_error target_mm (snd kc))) measures in
  min <- defined (Obj.reduce pick_min errors) ;;
  let min_error_key := fst min in
  min_error <- defined (Obj.get errors min_error_key) ;;
  min_error_measure <- defined (Obj.get measures min_error_key) ;;
  Ok (min_error_key, min_error, min_error_measure).

Definition get_asdf := nearest coverage_mm.
Definition get_asdf1 := nearest distance_mm.

Section Generator.
Variable slicePositions : table.
Variable x0 x1 : Q.

Fixpoint windows_loop (fuel : nat) (d : Q) (next_window_start_img : Z)
    (windows : list Entry.t) : outcome (list Entry.t) :=
  match fuel with
  | O => OutOfFuel
  | S fuel' =>
      let window_start_img := next_window_start_img in
      '(window_end_img, e1, c) <- get_asdf slicePositions window_start_img x0 ;;
      if num_ltb (Fin 1) e1 then Ok windows
      else
        '(next_window_start_img, e2, _) <-
           get_asdf1 slicePositions window_start_img x1 ;;
        window <- make_entry slicePositions window_start_img window_end_img
                    e1 c next_window_start_img e2 d ;;
        windows_loop fuel' d next_window_start_img (windows ++ [window])
  end.

Definition get_windows_fuel (fuel : nat) : outcome (list Entry.t) :=
  match smallestKey slicePositions with
  | None => TypeError
  | Some window_start_img =>
      '(window_end_img, e1, c) <- get_asdf slicePositions window_start_img x0 ;;
      '(next_window_start_img, e2, d) <-
         get_asdf1 slicePositions window_start_img x1 ;;
      first <- make_entry slicePositions window_start_img window_end_img e1 c
                 next_window_start_img e2 d ;;
      windows_loop fuel d next_window_start_img [first]
  end.

Definition get_windows : outcome (list Entry.t) :=
  get_windows_fuel (length slicePositions).

End Generator.

(** [windows.reduce((acc, window) => acc + f(window), 0)] *)
Definition sum_over {A} (f : A -> Q) (l : list A) : Q :=
  fold_left (fun acc a => rnd (acc + f a)) l 0%Q.

Definition get_stats (slicePositions : table) (windows : list Entry.t)
    : outcome per_criterion :=
  first_window <- defined (nth_error windows 0) ;;
  last_window <- defined (nth_error windows (length windows - 1)) ;;
  first_pos <- defined (Obj.get slicePositions
                          (Window.start_img (Entry.window first_window))) ;;
  last_pos <- defined (Obj.get slicePositions
                         (Window.end_img (Entry.window last_window))) ;;
  let coverage := coverage_mm first_pos (Some last_pos) in
  let window_coverage :=
    rnd (sum_over (fun w => Window.coverage_mm (Entry.window w)) windows
         / inject_Z (Z.of_nat (length windows))) in
  let step_size :=
    rnd (sum_over (fun w => Step.distance_mm (Entry.step w)) windows
         / inject_Z (Z.of_nat (length windows))) in
  Ok (object3 coverage window_coverage step_size).

End Rounded.

End Rounded.

(** * Properties *)

(** ** The brute-force search *)

Module BruteForceFacts.

Abbreviation best := BruteForce.best.
Abbreviation mkBest := BruteForce.mkBest.
Abbreviation bestWindowSize := BruteForce.bestWindowSize.
Abbreviation bestCoverage := BruteForce.bestCoverage.

Section Search.
Variables totalImages numWindows overlapPercent : Z.

Abbreviation stepSize := (BruteForce.stepSize overlapPercent).
Abbreviation lastWindowEnd := (BruteForce.lastWindowEnd numWindows overlapPercent).
Abbreviation coverage :=
  (BruteForce.coverage totalImages numWindows overlapPercent).
Abbreviation coveragePercent :=
  (BruteForce.coveragePercent totalImages numWindows overlapPercent).
Abbreviation loop_body :=
  (BruteForce.loop_body totalImages numWindows overlapPercent).
Abbreviation for_loop :=
  (BruteForce.for_loop totalImages numWindows overlapPercent).
Abbreviation feasible :=
  (BruteForce.feasible totalImages numWindows overlapPercent).
Abbreviation feasibleb :=
  (BruteForce.feasibleb totalImages numWindows overlapPercent).

Lemma feasibleb_spec w : feasibleb w = true <-> feasible w.
Proof.
  unfold BruteForce.feasibleb, feasible.
  rewrite andb_true_iff, !Z.ltb_lt. tauto.
Qed.

Lemma coveragePercent_lt a b :
  0 < totalImages ->
  (coveragePercent a < coveragePercent b)%Q <-> coverage a < coverage b.
Proof.
  intro Hn. unfold BruteForce.coveragePercent.
  assert (Hq : (0 < inject_Z totalImages)%Q)
    by (rewrite <- (Zlt_Qlt 0); exact Hn).
  rewrite (Zlt_Qlt (coverage a) (coverage b)).
  unfold Qdiv. split; intro H.
  - apply Qmult_lt_r in H; [exact H|]. apply Qinv_lt_0_compat; exact Hq.
  - apply Qmult_lt_r; [apply Qinv_lt_0_compat; exact Hq | exact H].
Qed.

Lemma coveragePercent_pos w :
  0 < totalImages -> 0 < coverage w -> (0 < coveragePercent w)%Q.
Proof.
  intros Hn Hc. unfold BruteForce.coveragePercent, Qdiv.
  apply Qmult_lt_0_compat.
  - rewrite <- (Zlt_Qlt 0); exact Hc.
  - apply Qinv_lt_0_compat. rewrite <- (Zlt_Qlt 0); exact Hn.
Qed.

Lemma feasible_coverage_pos w :
  1 <= numWindows -> 1 <= w -> 0 < totalImages -> feasible w ->
  0 < coverage w.
Proof.
  intros Hk Hw Hn [Hs He]. unfold BruteForce.coverage.
  unfold BruteForce.lastWindowEnd, BruteForce.lastWindowStart in *.
  apply Z.min_glb_lt; [|exact Hn]. nia.
Qed.

(** What the loop has established after the sizes [1 .. w-1]. *)
Inductive scanned (w : Z) (st : best) : Prop :=
| scanned_none :
    st = mkBest 1 0 ->
    (forall c, 1 <= c < w -> ~ feasible c) ->
    scanned w st
| scanned_some :
    1 <= bestWindowSize st < w ->
    feasible (bestWindowSize st) ->
    (bestCoverage st == coveragePercent (bestWindowSize st))%Q ->
    (forall c, 1 <= c < w -> feasible c ->
       coverage c <= coverage (bestWindowSize st) /\
       (coverage c = coverage (bestWindowSize st) -> bestWindowSize st <= c)) ->
    scanned w st.

Lemma loop_body_scanned w st :
  0 < totalImages -> 1 <= numWindows -> 1 <= w ->
  scanned w st -> scanned (w + 1) (loop_body st w).
Proof.
  intros Hn Hk Hw Hs. unfold BruteForce.loop_body.
  destruct (stepSize w <=? 0) eqn:Estep.
  { apply Z.leb_le in Estep.
    assert (Hnf : ~ feasible w) by (unfold BruteForce.feasible; lia).
    destruct Hs as [Hi Hno | Hb Hf Hc Hmax].
    - apply scanned_none; [exact Hi|].
      intros c Hc. destruct (Z.eq_dec c w) as [->|]; [exact Hnf|].
      apply Hno; lia.
    - apply scanned_some; [lia | exact Hf | exact Hc |].
      intros c Hc1 Hfc. destruct (Z.eq_dec c w) as [->|]; [contradiction|].
      apply Hmax; [lia | exact Hfc]. }
  apply Z.leb_gt in Estep.
  destruct (lastWindowEnd w <? totalImages) eqn:Eend.
  2:{ rewrite andb_false_r. apply Z.ltb_ge in Eend.
      assert (Hnf : ~ feasible w) by (unfold BruteForce.feasible; lia).
      destruct Hs as [Hi Hno | Hb Hf Hc Hmax].
      - apply scanned_none; [exact Hi|].
        intros c Hc. destruct (Z.eq_dec c w) as [->|]; [exact Hnf|].
        apply Hno; lia.
      - apply scanned_some; [lia | exact Hf | exact Hc |].
        intros c Hc1 Hfc. destruct (Z.eq_dec c w) as [->|]; [contradiction|].
        apply Hmax; [lia | exact Hfc]. }
  apply Z.ltb_lt in Eend. rewrite andb_true_r.
  assert (Hfw : feasible w) by (split; assumption).
  assert (Hpos : 0 < coverage w)
    by (apply feasible_coverage_pos; assumption).
  destruct (Qltb (bestCoverage st) (coveragePercent w)) eqn:Ecmp.
  - (* the candidate strictly improves on the best so far *)
    apply Qltb_lt in Ecmp.
    apply scanned_some; cbn [BruteForce.bestWindowSize BruteForce.bestCoverage];
      [lia | exact Hfw | reflexivity |].
    intros c Hc Hfc. destruct (Z.eq_dec c w) as [->|Hne]; [lia|].
    destruct Hs as [Hi Hno | Hb Hf Hbc Hmax].
    + exfalso. apply (Hno c); [lia | exact Hfc].
    + rewrite Hbc in Ecmp. apply coveragePercent_lt in Ecmp; [|exact Hn].
      destruct (Hmax c) as [Hle _]; [lia | exact Hfc |]. lia.
  - (* the best so far is kept *)
    apply Qltb_ge in Ecmp.
    destruct Hs as [Hi Hno | Hb Hf Hbc Hmax].
    + exfalso. subst st. cbn [BruteForce.bestCoverage] in Ecmp.
      apply (Qlt_not_le _ _ (coveragePercent_pos w Hn Hpos) Ecmp).
    + apply scanned_some; [lia | exact Hf | exact Hbc |].
      intros c Hc Hfc. destruct (Z.eq_dec c w) as [->|Hne].
      * rewrite Hbc in Ecmp.
        assert (Hle : coverage w <= coverage (bestWindowSize st)).
        { apply Z.nlt_ge. intro Hlt.
          apply (coveragePercent_lt _ _ Hn) in Hlt.
          apply (Qlt_not_le _ _ Hlt Ecmp). }
        split; [exact Hle | lia].
      * apply Hmax; [lia | exact Hfc].
Qed.

Lemma for_loop_scanned n w st :
  0 < totalImages -> 1 <= numWindows -> 1 <= w ->
  scanned w st -> scanned (w + Z.of_nat n) (for_loop n w st).
Proof.
  intros Hn Hk. revert w st.
  induction n as [|n IH]; intros w st Hw Hs.
  - cbn [BruteForce.for_loop]. replace (w + Z.of_nat 0) with w by lia. exact Hs.
  - cbn [BruteForce.for_loop].
    replace (w + Z.of_nat (S n)) with ((w + 1) + Z.of_nat n) by lia.
    apply IH; [lia|]. apply loop_body_scanned; assumption.
Qed.

(** The loop only ever stores a size it has visited, and only a feasible
    one; this needs no assumption on the inputs. *)
Lemma loop_body_range w st lo :
  lo <= bestWindowSize st <= Z.max lo (w - 1) ->
  lo <= w ->
  lo <= bestWindowSize (loop_body st w) <= Z.max lo w.
Proof.
  intros Hb Hw. unfold BruteForce.loop_body.
  destruct (stepSize w <=? 0); [lia|].
  destruct (_ && _); cbn [BruteForce.bestWindowSize]; lia.
Qed.

Lemma for_loop_range n w st :
  1 <= bestWindowSize st <= Z.max 1 (w - 1) ->
  1 <= w ->
  1 <= bestWindowSize (for_loop n w st) <= Z.max 1 (w + Z.of_nat n - 1).
Proof.
  revert w st. induction n as [|n IH]; intros w st Hb Hw.
  - cbn [BruteForce.for_loop]. lia.
  - cbn [BruteForce.for_loop].
    replace (w + Z.of_nat (S n) - 1) with ((w + 1) + Z.of_nat n - 1) by lia.
    apply IH; [|lia].
    replace (w + 1 - 1) with w by lia.
    apply loop_body_range; assumption.
Qed.

Lemma loop_body_keep w st :
  ~ feasible w -> loop_body st w = st.
Proof.
  intro Hnf. unfold BruteForce.loop_body.
  destruct (stepSize w <=? 0) eqn:E1; [reflexivity|].
  destruct (lastWindowEnd w <? totalImages) eqn:E2.
  - exfalso. apply Hnf. apply Z.leb_gt in E1. apply Z.ltb_lt in E2.
    split; lia.
  - rewrite andb_false_r. reflexivity.
Qed.

Lemma for_loop_keep n w st :
  (forall c, w <= c < w + Z.of_nat n -> ~ feasible c) ->
  for_loop n w st = st.
Proof.
  revert w st. induction n as [|n IH]; intros w st Hno; cbn [BruteForce.for_loop].
  - reflexivity.
  - rewrite loop_body_keep by (apply Hno; lia).
    apply IH. intros c Hc. apply Hno. lia.
Qed.

End Search.

End BruteForceFacts.

(** ** Properties of the outcome monad *)

Lemma bind_Ok {A B} (m : outcome A) (k : A -> outcome B) b :
  bind m k = Ok b -> exists a, m = Ok a /\ k a = Ok b.
Proof. destruct m; cbn; intro H; [eauto | discriminate | discriminate]. Qed.

Lemma defined_Ok {A} (o : option A) a : defined o = Ok a -> o = Some a.
Proof. destruct o; cbn; congruence. Qed.

(** Inverts a hypothesis [bind m k = Ok b], naming the intermediate value. *)
Ltac bind_inv H a Ha :=
  apply bind_Ok in H; destruct H as [a [Ha H]].

(** ** Properties of objects *)

Module ObjFacts.

Lemma get_In {V} (o : Obj.t V) k v : Obj.get o k = Some v -> In (k, v) o.
Proof.
  induction o as [|[k' v'] r IH]; cbn; [discriminate|].
  destruct (k =? k') eqn:E.
  - intro H. injection H as ->. apply Z.eqb_eq in E. subst. now left.
  - intro H. right. now apply IH.
Qed.

Lemma get_map {V W} (g : V -> W) (o : Obj.t V) k :
  Obj.get (map (fun kv => (fst kv, g (snd kv))) o) k
  = option_map g (Obj.get o k).
Proof.
  induction o as [|[k' v'] r IH]; cbn; [reflexivity|].
  destruct (k =? k'); [reflexivity | exact IH].
Qed.

End ObjFacts.

(** ** The nearest-match query *)

Module NearestFacts.
Import PositionAware.

(** The relative error against a nonzero target, as a rational. *)
Definition rel_error_fin (target_mm c : Q) : Q :=
  (Qabs (c - target_mm) / target_mm * 100)%Q.

Lemma rel_error_nonzero target_mm c :
  ~ (target_mm == 0)%Q ->
  rel_error target_mm c = Fin (rel_error_fin target_mm c).
Proof.
  intro H. unfold rel_error.
  destruct (Qeq_bool target_mm 0) eqn:E; [|reflexivity].
  apply Qeq_bool_iff in E. contradiction.
Qed.

(** An entry of an [errors] object whose error is finite. *)
Definition fin_entry (kq : Z * Q) : Z * num := (fst kq, Fin (snd kq)).

(** Among finite errors, the entry [reduce] returns is the first one of
    minimal error. *)
Lemma fold_pick_min (r : list (Z * Q)) :
  forall pre e mid,
    (forall x, In x pre -> (snd e < snd x)%Q) ->
    (forall x, In x mid -> (snd e <= snd x)%Q) ->
    exists l1 m l2,
      pre ++ e :: mid ++ r = l1 ++ m :: l2 /\
      fold_left pick_min (map fin_entry r) (fin_entry e) = fin_entry m /\
      (forall x, In x l1 -> (snd m < snd x)%Q) /\
      (forall x, In x l2 -> (snd m <= snd x)%Q).
Proof.
  induction r as [|x r IH]; intros pre e mid Hpre Hmid.
  - exists pre, e, mid. cbn. rewrite app_nil_r. auto.
  - cbn [map fold_left].
    assert (Hp : pick_min (fin_entry e) (fin_entry x)
                 = if Qltb (snd x) (snd e) then fin_entry x else fin_entry e)
      by reflexivity.
    rewrite Hp. clear Hp.
    destruct (Qltb (snd x) (snd e)) eqn:E.
    + apply Qltb_lt in E.
      destruct (IH (pre ++ e :: mid) x []) as (l1 & m & l2 & Heq & H).
      * intros y Hy. apply in_app_or in Hy. destruct Hy as [Hy|[<-|Hy]].
        -- eapply Qlt_trans; [exact E | now apply Hpre].
        -- exact E.
        -- eapply Qlt_le_trans; [exact E | now apply Hmid].
      * intros y [].
      * exists l1, m, l2. split; [|exact H].
        rewrite <- Heq. cbn [app]. now rewrite <- app_assoc.
    + apply Qltb_ge in E.
      destruct (IH pre e (mid ++ [x])) as (l1 & m & l2 & Heq & H).
      * exact Hpre.
      * intros y Hy. apply in_app_or in Hy. destruct Hy as [Hy|[<-|[]]].
        -- now apply Hmid.
        -- exact E.
      * exists l1, m, l2. split; [|exact H].
        rewrite <- Heq. now rewrite <- app_assoc.
Qed.

Lemma reduce_pick_min (l : list (Z * Q)) m :
  Obj.reduce pick_min (map fin_entry l) = Some m ->
  exists l1 mq l2,
    l = l1 ++ mq :: l2 /\
    m = fin_entry mq /\
    (forall x, In x l1 -> (snd mq < snd x)%Q) /\
    (forall x, In x l2 -> (snd mq <= snd x)%Q).
Proof.
  destruct l as [|e r]; cbn [map Obj.reduce]; [discriminate|].
  intro H. injection H as <-.
  destruct (fold_pick_min r [] e []) as (l1 & mq & l2 & Heq & Hm & H);
    cbn; try tauto.
  exists l1, mq, l2. cbn in Heq. auto.
Qed.

(** Over a zero target no error is finite, and [reduce] keeps its first
    entry: nothing compares below it. *)
Lemma rel_error_zero target_mm c :
  (target_mm == 0)%Q ->
  rel_error target_mm c = Infinity \/ rel_error target_mm c = NaN.
Proof.
  intro H. unfold rel_error. apply Qeq_bool_iff in H. rewrite H.
  destruct (Qeq_bool (Qabs (c - target_mm)) 0); auto.
Qed.

Lemma fold_pick_min_nonfinite (r : list (Z * num)) e :
  (forall x, In x r -> snd x = Infinity \/ snd x = NaN) ->
  fold_left pick_min r e = e.
Proof.
  revert e. induction r as [|x r IH]; intros e H; [reflexivity|].
  cbn [fold_left].
  assert (Hx : pick_min e x = e).
  { unfold pick_min. destruct (H x (or_introl eq_refl)) as [E|E];
      rewrite E; reflexivity. }
  rewrite Hx. apply IH. intros y Hy. apply H. now right.
Qed.

Section Nearest.
Variable measure : Position.t -> option Position.t -> Q.
Variable positions : table.
Variable start_index : Z.
Variable target_mm : Q.

(** The three intermediate objects of a query whose start position is
    [st]. *)
Definition measures_of (st : Position.t) : Obj.t Q :=
  map (fun kv => (fst kv, measure st (Some (snd kv))))
    (get_future_positions positions start_index).

Definition errors_of (st : Position.t) : Obj.t num :=
  map (fun kc => (fst kc, rel_error target_mm (snd kc))) (measures_of st).

Lemma errors_of_nonzero st :
  ~ (target_mm == 0)%Q ->
  errors_of st
  = map fin_entry
      (map (fun kc => (fst kc, rel_error_fin target_mm (snd kc)))
         (measures_of st)).
Proof.
  intro H. unfold errors_of. rewrite map_map. apply map_ext.
  intros [k c]. unfold fin_entry. cbn [fst snd].
  now rewrite rel_error_nonzero.
Qed.

Lemma nearest_Ok k err ms :
  nearest measure positions start_index target_mm = Ok (k, err, ms) ->
  exists st v,
    Obj.get positions start_index = Some st /\
    Obj.reduce pick_min (errors_of st) = Some (k, v) /\
    Obj.get (errors_of st) k = Some err /\
    Obj.get (measures_of st) k = Some ms.
Proof.
  unfold nearest. intro H.
  bind_inv H ms0 Hms. bind_inv H m Hm. bind_inv H e He. bind_inv H c Hc.
  injection H as <- <- <-.
  apply defined_Ok in Hm, He, Hc.
  destruct (get_future_positions positions start_index) as [|p fut] eqn:Ef.
  - injection Hms as <-. discriminate Hm.
  - bind_inv Hms st Hst. injection Hms as <-. apply defined_Ok in Hst.
    exists st, (snd m). unfold errors_of, measures_of. rewrite Ef.
    rewrite <- surjective_pairing. auto.
Qed.

Lemma nearest_future k err ms :
  nearest measure positions start_index target_mm = Ok (k, err, ms) ->
  In k (Obj.keys (get_future_positions positions start_index)).
Proof.
  intro H. apply nearest_Ok in H.
  destruct H as [st [v [_ [_ [_ H]]]]].
  unfold measures_of in H.
  rewrite (ObjFacts.get_map (fun p => measure st (Some p))) in H.
  destruct (Obj.get (get_future_positions positions start_index) k)
    as [pos|] eqn:E; [|discriminate].
  apply ObjFacts.get_In in E.
  apply (in_map fst) in E. exact E.
Qed.

Lemma nearest_fuel :
  nearest measure positions start_index target_mm <> OutOfFuel.
Proof.
  unfold nearest. intro H.
  destruct (get_future_positions positions start_index) as [|p fut].
  - cbn in H. discriminate.
  - destruct (Obj.get positions start_index); cbn in H; [|discriminate].
    repeat match type of H with
           | bind (defined ?o) _ = _ => destruct o; cbn in H; try discriminate
           end.
Qed.

End Nearest.

Lemma future_keys positions start_index k :
  In k (Obj.keys (get_future_positions positions start_index)) ->
  start_index < k /\ In k (Obj.keys positions).
Proof.
  unfold Obj.keys, get_future_positions. intro H.
  apply in_map_iff in H. destruct H as [[k' v] [<- H]].
  apply filter_In in H. destruct H as [Hin Hlt]. cbn in *.
  apply Z.ltb_lt in Hlt. split; [exact Hlt|].
  apply in_map_iff. exists (k', v). auto.
Qed.

(** Moving the start to one of its future positions leaves strictly fewer
    future positions. *)
Lemma future_shrinks (positions : table) start_index k :
  In k (Obj.keys (get_future_positions positions start_index)) ->
  (length (get_future_positions positions k)
   < length (get_future_positions positions start_index))%nat.
Proof.
  unfold Obj.keys, get_future_positions.
  induction positions as [|[k' v] r IH]; cbn; [tauto|].
  destruct (start_index <? k') eqn:E1; cbn.
  - intros [->|H].
    + rewrite Z.ltb_irrefl.
      apply Nat.lt_succ_r. clear IH.
      induction r as [|[k2 v2] r IH]; cbn; [lia|].
      apply Z.ltb_lt in E1.
      destruct (k <? k2) eqn:E2; cbn.
      * apply Z.ltb_lt in E2.
        replace (start_index <? k2) with true by (symmetry; apply Z.ltb_lt; lia).
        cbn. lia.
      * destruct (start_index <? k2); cbn; lia.
    + specialize (IH H). destruct (k <? k'); cbn; lia.
  - intro H. specialize (IH H).
    assert (Hk : start_index < k).
    { apply in_map_iff in H. destruct H as [[k2 v2] [<- H]].
      apply filter_In in H. destruct H as [_ H]. now apply Z.ltb_lt in H. }
    apply Z.ltb_ge in E1.
    replace (k <? k') with false by (symmetry; apply Z.ltb_ge; lia).
    exact IH.
Qed.

Lemma future_length (positions : table) start_index :
  (length (get_future_positions positions start_index) <= length positions)%nat.
Proof. apply filter_length_le. Qed.

End NearestFacts.

(** ** The greedy generator as a relation *)

Module GeneratorFacts.
Import PositionAware NearestFacts.

Section Run.
Variable slicePositions : table.
Variables x0 x1 : Q.

Abbreviation loop := (windows_loop slicePositions x0 x1).
Abbreviation future := (get_future_positions slicePositions).

(** [run d s ws]: entered with the start index [s], the loop pushes the
    entries [ws] and then leaves through its [break]. *)
Inductive run (d : Q) : Z -> list Entry.t -> Prop :=
| run_stop s e e1 c :
    get_asdf slicePositions s x0 = Ok (e, e1, c) ->
    num_ltb (Fin 1) e1 = true ->
    run d s []
| run_step s e e1 c n e2 dd w ws :
    get_asdf slicePositions s x0 = Ok (e, e1, c) ->
    num_ltb (Fin 1) e1 = false ->
    get_asdf1 slicePositions s x1 = Ok (n, e2, dd) ->
    make_entry slicePositions s e e1 c n e2 d = Ok w ->
    run d n ws ->
    run d s (w :: ws).

Lemma make_entry_fuel s e e1 c n e2 d :
  make_entry slicePositions s e e1 c n e2 d <> OutOfFuel.
Proof.
  unfold make_entry.
  repeat match goal with
         | |- bind (defined ?o) _ <> _ => destruct o; cbn; try discriminate
         end.
Qed.

Lemma windows_loop_acc fuel : forall d s acc,
  loop fuel d s acc
  = bind (loop fuel d s []) (fun more => Ok (acc ++ more)).
Proof.
  induction fuel as [|fuel IH]; intros d s acc; [reflexivity|].
  cbn [windows_loop].
  destruct (get_asdf slicePositions s x0) as [[[e e1] c]| |]; cbn [bind];
    try reflexivity.
  destruct (num_ltb (Fin 1) e1); [cbn; now rewrite app_nil_r|].
  destruct (get_asdf1 slicePositions s x1) as [[[n e2] dd]| |]; cbn [bind];
    try reflexivity.
  destruct (make_entry slicePositions s e e1 c n e2 d) as [w| |]; cbn [bind];
    try reflexivity.
  rewrite (IH d n (acc ++ [w])), (IH d n ([] ++ [w])).
  destruct (loop fuel d n []) as [more| |]; cbn [bind]; try reflexivity.
  now rewrite <- app_assoc.
Qed.

Lemma windows_loop_run fuel : forall d s ws,
  loop fuel d s [] = Ok ws -> run d s ws.
Proof.
  induction fuel as [|fuel IH]; intros d s ws H; [discriminate|].
  cbn [windows_loop] in H.
  destruct (get_asdf slicePositions s x0) as [[[e e1] c]| |] eqn:Ea;
    cbn [bind] in H; try discriminate.
  destruct (num_ltb (Fin 1) e1) eqn:Eb.
  - injection H as <-. eapply run_stop; eauto.
  - destruct (get_asdf1 slicePositions s x1) as [[[n e2] dd]| |] eqn:Es;
      cbn [bind] in H; try discriminate.
    destruct (make_entry slicePositions s e e1 c n e2 d) as [w| |] eqn:Ew;
      cbn [bind] in H; try discriminate.
    rewrite windows_loop_acc in H. cbn [app] in H.
    destruct (loop fuel d n []) as [more| |] eqn:El; cbn [bind] in H;
      try discriminate.
    injection H as <-. eapply run_step; eauto.
Qed.

(** Every pass either leaves the loop or moves to a start index with
    strictly fewer positions ahead, so fuel beyond that number is never
    used up. *)
Lemma windows_loop_fuel fuel : forall d s acc,
  (length (future s) < fuel)%nat ->
  loop fuel d s acc <> OutOfFuel.
Proof.
  induction fuel as [|fuel IH]; intros d s acc Hf; [lia|].
  cbn [windows_loop].
  destruct (get_asdf slicePositions s x0) as [[[e e1] c]| |] eqn:Ea;
    cbn [bind]; try discriminate.
  { destruct (num_ltb (Fin 1) e1); [discriminate|].
    destruct (get_asdf1 slicePositions s x1) as [[[n e2] dd]| |] eqn:Es;
      cbn [bind]; try discriminate.
    - destruct (make_entry slicePositions s e e1 c n e2 d) as [w| |] eqn:Ew;
        cbn [bind]; try discriminate.
      + apply IH. apply nearest_future in Es.
        apply future_shrinks in Es. lia.
      + now apply make_entry_fuel in Ew.
    - now apply nearest_fuel in Es. }
  now apply nearest_fuel in Ea.
Qed.

Lemma windows_loop_more fuel : forall fuel' d s acc,
  (fuel <= fuel')%nat ->
  loop fuel d s acc <> OutOfFuel ->
  loop fuel' d s acc = loop fuel d s acc.
Proof.
  induction fuel as [|fuel IH]; intros fuel' d s acc Hle Hne.
  - now contradiction Hne.
  - destruct fuel' as [|fuel']; [lia|].
    cbn [windows_loop] in *.
    destruct (get_asdf slicePositions s x0) as [[[e e1] c]| |];
      cbn [bind] in *; try reflexivity.
    destruct (num_ltb (Fin 1) e1); [reflexivity|].
    destruct (get_asdf1 slicePositions s x1) as [[[n e2] dd]| |];
      cbn [bind] in *; try reflexivity.
    destruct (make_entry slicePositions s e e1 c n e2 d) as [w| |];
      cbn [bind] in *; try reflexivity.
    apply IH; [lia | exact Hne].
Qed.

(** The run pushes at most one entry per position ahead of its start. *)
Lemma run_length d s ws :
  run d s ws -> (length ws <= length (future s))%nat.
Proof.
  induction 1 as [|s e e1 c n e2 dd w ws Ha Hb Hs Hw Hr IH]; cbn; [lia|].
  apply nearest_future in Hs. apply future_shrinks in Hs. lia.
Qed.

(** The shape of a successful call of [get_windows]. *)
Lemma get_windows_fuel_Ok fuel ws :
  get_windows_fuel slicePositions x0 x1 fuel = Ok ws ->
  exists k e e1 c n e2 d first more,
    smallestKey slicePositions = Some k /\
    get_asdf slicePositions k x0 = Ok (e, e1, c) /\
    get_asdf1 slicePositions k x1 = Ok (n, e2, d) /\
    make_entry slicePositions k e e1 c n e2 d = Ok first /\
    run d n more /\
    ws = first :: more.
Proof.
  unfold get_windows_fuel. intro H.
  destruct (smallestKey slicePositions) as [k|]; [|discriminate].
  destruct (get_asdf slicePositions k x0) as [[[e e1] c]| |] eqn:Ea;
    cbn [bind] in H; try discriminate.
  destruct (get_asdf1 slicePositions k x1) as [[[n e2] d]| |] eqn:Es;
    cbn [bind] in H; try discriminate.
  destruct (make_entry slicePositions k e e1 c n e2 d) as [w| |] eqn:Ew;
    cbn [bind] in H; try discriminate.
  rewrite windows_loop_acc in H.
  destruct (loop fuel d n []) as [more| |] eqn:El; cbn [bind] in H;
    try discriminate.
  injection H as <-. apply windows_loop_run in El.
  exists k, e, e1, c, n, e2, d, w, more. cbn [app]. tauto.
Qed.

Lemma get_windows_fuel_enough fuel :
  (length slicePositions <= fuel)%nat ->
  get_windows_fuel slicePositions x0 x1 fuel <> OutOfFuel /\
  get_windows_fuel slicePositions x0 x1 fuel
  = get_windows slicePositions x0 x1.
Proof.
  intro Hle. unfold get_windows, get_windows_fuel.
  destruct (smallestKey slicePositions) as [k|]; [|split; [discriminate|reflexivity]].
  destruct (get_asdf slicePositions k x0) as [[[e e1] c]| |] eqn:Ea;
    cbn [bind]; try (split; [discriminate|reflexivity]).
  2:{ now apply nearest_fuel in Ea. }
  destruct (get_asdf1 slicePositions k x1) as [[[n e2] d]| |] eqn:Es;
    cbn [bind]; try (split; [discriminate|reflexivity]).
  2:{ now apply nearest_fuel in Es. }
  destruct (make_entry slicePositions k e e1 c n e2 d) as [w| |] eqn:Ew;
    cbn [bind]; try (split; [discriminate|reflexivity]).
  2:{ now apply make_entry_fuel in Ew. }
  assert (Hlt : (length (future n) < length slicePositions)%nat).
  { apply nearest_future in Es. apply future_shrinks in Es.
    pose proof (future_length slicePositions k). lia. }
  assert (Hne : loop (length slicePositions) d n [w] <> OutOfFuel)
    by (apply windows_loop_fuel; exact Hlt).
  rewrite (windows_loop_more (length slicePositions) fuel) by assumption.
  split; [exact Hne | reflexivity].
Qed.

End Run.

End GeneratorFacts.

(** ** The position table built by [getSlicePositions] *)

Module TableFacts.
Import PositionAware NearestFacts.

(** The keys [lo, lo+1, ..., lo+n-1]. *)
Fixpoint range (lo : Z) (n : nat) : list Z :=
  match n with
  | O => []
  | S n' => lo :: range (lo + 1) n'
  end.

Lemma range_In lo n k : In k (range lo n) <-> lo <= k < lo + Z.of_nat n.
Proof.
  revert lo. induction n as [|n IH]; intro lo; cbn [range In].
  - lia.
  - rewrite IH. lia.
Qed.

Lemma range_snoc lo n : range lo (S n) = range lo n ++ [lo + Z.of_nat n].
Proof.
  revert lo. induction n as [|n IH]; intro lo.
  - cbn. now rewrite Z.add_0_r.
  - change (range lo (S (S n))) with (lo :: range (lo + 1) (S n)).
    rewrite IH. cbn [range app]. do 3 f_equal. lia.
Qed.

Lemma range_split lo n r1 y r2 :
  range lo n = r1 ++ y :: r2 ->
  lo <= y < lo + Z.of_nat n /\
  (forall k, lo <= k < y -> In k r1) /\
  (forall k, y < k < lo + Z.of_nat n -> In k r2).
Proof.
  revert lo n. induction r1 as [|x r1 IH]; intros lo n H.
  - destruct n as [|n]; [discriminate|]. cbn in H. injection H as <- <-.
    repeat split; try lia. intros k Hk. apply range_In. lia.
  - destruct n as [|n]; [discriminate|]. cbn in H. injection H as <- H.
    apply IH in H. destruct H as [Hy [H1 H2]].
    repeat split; try lia.
    + intros k Hk. destruct (Z.eq_dec k lo) as [->|]; [now left|].
      right. apply H1. lia.
    + intros k Hk. apply H2. lia.
Qed.

Section Table.
Variable totalImages : Z.
Variables spaceBetweenSlices sliceThickness : Q.

(** The position stored under the key [i]. *)
Definition slice_at (i : Z) : Position.t :=
  Position.mk (inject_Z (totalImages - i) * spaceBetweenSlices) sliceThickness.

Definition slice_table (lo : Z) (n : nat) : table :=
  map (fun i => (i, slice_at i)) (range lo n).

Lemma slice_table_keys lo n : Obj.keys (slice_table lo n) = range lo n.
Proof.
  unfold Obj.keys, slice_table. rewrite map_map. cbn. apply map_id.
Qed.

Lemma slice_table_length lo n : length (slice_table lo n) = n.
Proof.
  unfold slice_table. rewrite length_map.
  revert lo. induction n as [|n IH]; intro lo; cbn; [reflexivity|].
  now rewrite IH.
Qed.

Lemma slice_loop_eq n : forall i acc,
  (forall kv, In kv acc -> i < fst kv) ->
  slice_loop totalImages spaceBetweenSlices sliceThickness n i acc
  = slice_table (i - Z.of_nat n + 1) n ++ acc.
Proof.
  induction n as [|n IH]; intros i acc Hacc; [reflexivity|].
  cbn [slice_loop].
  assert (Hset : Obj.set i (slice_at i) acc = (i, slice_at i) :: acc).
  { destruct acc as [|[k v] r]; [reflexivity|]. cbn [Obj.set].
    specialize (Hacc (k, v) (or_introl eq_refl)). cbn in Hacc.
    apply Z.ltb_lt in Hacc. now rewrite Hacc. }
  fold (slice_at i). rewrite Hset. rewrite IH.
  - unfold slice_table. rewrite range_snoc, map_app. cbn [map].
    rewrite <- app_assoc. cbn [app].
    replace (i - 1 - Z.of_nat n + 1) with (i - Z.of_nat (S n) + 1) by lia.
    replace (i - Z.of_nat (S n) + 1 + Z.of_nat n) with i by lia.
    reflexivity.
  - intros kv [<-|H]; cbn; [lia|]. specialize (Hacc kv H). lia.
Qed.

Lemma slice_table_get lo n k :
  lo <= k < lo + Z.of_nat n ->
  Obj.get (slice_table lo n) k = Some (slice_at k).
Proof.
  unfold slice_table. revert lo.
  induction n as [|n IH]; intros lo Hk; [lia|].
  cbn [range map Obj.get].
  destruct (k =? lo) eqn:E.
  - apply Z.eqb_eq in E. now subst.
  - apply Z.eqb_neq in E. apply IH. lia.
Qed.

Lemma slice_table_get_In lo n k v :
  Obj.get (slice_table lo n) k = Some v ->
  lo <= k < lo + Z.of_nat n /\ v = slice_at k.
Proof.
  intro H. pose proof (ObjFacts.get_In _ _ _ H) as Hin.
  apply (in_map fst) in Hin. cbn in Hin.
  change (map fst (slice_table lo n)) with (Obj.keys (slice_table lo n)) in Hin.
  rewrite slice_table_keys in Hin. apply range_In in Hin.
  split; [exact Hin|]. rewrite slice_table_get in H by exact Hin. congruence.
Qed.

Lemma slice_table_future_all lo n a :
  a < lo -> get_future_positions (slice_table lo n) a = slice_table lo n.
Proof.
  unfold get_future_positions, slice_table. revert lo.
  induction n as [|n IH]; intros lo Ha; [reflexivity|].
  cbn [range map filter fst].
  replace (a <? lo) with true by (symmetry; apply Z.ltb_lt; lia).
  f_equal. apply IH. lia.
Qed.

Lemma slice_table_future lo n a :
  lo - 1 <= a ->
  get_future_positions (slice_table lo n) a
  = slice_table (a + 1) (Z.to_nat (lo + Z.of_nat n - 1 - a)).
Proof.
  revert lo. induction n as [|n IH]; intros lo Ha.
  - replace (Z.to_nat (lo + Z.of_nat 0 - 1 - a)) with O by lia. reflexivity.
  - destruct (Z.eq_dec a (lo - 1)) as [->|Hne].
    + rewrite slice_table_future_all by lia.
      replace (lo - 1 + 1) with lo by lia. f_equal. lia.
    + change (slice_table lo (S n))
        with ((lo, slice_at lo) :: slice_table (lo + 1) n).
      unfold get_future_positions. cbn [filter fst].
      replace (a <? lo) with false by (symmetry; apply Z.ltb_ge; lia).
      fold (get_future_positions (slice_table (lo + 1) n) a).
      rewrite IH by lia. f_equal. lia.
Qed.

Lemma fold_min_head (l : list Z) k :
  (forall x, In x l -> k <= x) -> fold_left Z.min l k = k.
Proof.
  revert k. induction l as [|x l IH]; intros k H; cbn; [reflexivity|].
  rewrite Z.min_l by (apply H; now left).
  apply IH. intros y Hy. apply H. now right.
Qed.

Lemma slice_table_smallestKey lo n :
  smallestKey (slice_table lo (S n)) = Some lo.
Proof.
  unfold smallestKey. rewrite slice_table_keys. cbn [range].
  f_equal. apply fold_min_head. intros x Hx. apply range_In in Hx. lia.
Qed.

(** A successful query on the table returns a key ahead of its start,
    with the measure of that key. *)
Lemma nearest_slice_range measure n a target j err ms :
  1 <= a ->
  nearest measure (slice_table 1 n) a target = Ok (j, err, ms) ->
  a < j <= Z.of_nat n /\
  ms = measure (slice_at a) (Some (slice_at j)).
Proof.
  intros Ha H.
  pose proof (nearest_future _ _ _ _ _ _ _ H) as Hfut.
  apply nearest_Ok in H. destruct H as [st [v [Hst [_ [_ Hms]]]]].
  apply slice_table_get_In in Hst. destruct Hst as [Hra ->].
  unfold measures_of in *.
  rewrite slice_table_future in * by lia.
  rewrite slice_table_keys in Hfut. apply range_In in Hfut.
  rewrite (ObjFacts.get_map (fun p => measure (slice_at a) (Some p))) in Hms.
  rewrite slice_table_get in Hms by lia. cbn in Hms. injection Hms as <-.
  split; [lia | reflexivity].
Qed.

(** Against a zero target the query returns the key next to its start. *)
Lemma nearest_slice_zero measure n a target j err ms :
  1 <= a -> (target == 0)%Q ->
  nearest measure (slice_table 1 n) a target = Ok (j, err, ms) ->
  j = a + 1.
Proof.
  intros Ha Ht H.
  destruct (nearest_slice_range _ _ _ _ _ _ _ Ha H) as [Hj _].
  apply nearest_Ok in H. destruct H as [st [v [Hst [Hred _]]]].
  unfold errors_of, measures_of in Hred.
  rewrite slice_table_future in Hred by lia.
  destruct (Z.to_nat (1 + Z.of_nat n - 1 - a)) as [|cnt] eqn:E; [lia|].
  unfold slice_table in Hred. cbn [range map Obj.reduce fst snd] in Hred.
  rewrite fold_pick_min_nonfinite in Hred.
  - now injection Hred as <- _.
  - intros x Hx. rewrite !map_map in Hx. apply in_map_iff in Hx.
    destruct Hx as [i [<- _]]. cbn [snd]. now apply rel_error_zero.
Qed.

(** Against a nonzero target, the error the query returns is the first
    minimum of the errors of the keys ahead. *)
Lemma nearest_slice_table measure n a target j err ms :
  1 <= a -> ~ (target == 0)%Q ->
  nearest measure (slice_table 1 n) a target = Ok (j, err, ms) ->
  let m k := measure (slice_at a) (Some (slice_at k)) in
  err = Fin (rel_error_fin target (m j)) /\
  forall k, a < k <= Z.of_nat n ->
    (k < j -> (rel_error_fin target (m j) < rel_error_fin target (m k))%Q) /\
    (rel_error_fin target (m j) <= rel_error_fin target (m k))%Q.
Proof.
  intros Ha Ht H m.
  destruct (nearest_slice_range _ _ _ _ _ _ _ Ha H) as [Hj ->].
  apply nearest_Ok in H. destruct H as [st [v [Hst [Hred [Herr Hms]]]]].
  apply slice_table_get_In in Hst. destruct Hst as [Hra ->].
  rewrite errors_of_nonzero in Hred by exact Ht.
  unfold errors_of, measures_of in *.
  rewrite slice_table_future in * by lia.
  set (cnt := Z.to_nat (1 + Z.of_nat n - 1 - a)) in *.
  rewrite (ObjFacts.get_map (rel_error target)) in Herr.
  rewrite Hms in Herr. cbn in Herr. injection Herr as <-.
  split; [now apply rel_error_nonzero|].
  apply reduce_pick_min in Hred.
  destruct Hred as (l1 & mq & l2 & Heq & Hm & Hl1 & Hl2).
  unfold slice_table in Heq. rewrite !map_map in Heq. cbn [fst snd] in Heq.
  apply map_eq_app in Heq. destruct Heq as [r1 [r2' [Hr [<- Hr2]]]].
  apply map_eq_cons in Hr2. destruct Hr2 as [y [r2 [-> [Hy <-]]]].
  subst mq. unfold fin_entry in Hm. cbn [fst snd] in Hm, Hl1, Hl2.
  injection Hm as <-.
  apply range_split in Hr. destruct Hr as [Hyr [Hr1 Hr2]].
  intros k Hk. split.
  - (* strictly better than every earlier candidate *)
    intro Hkj.
    apply (Hl1 (k, rel_error_fin target (m k))).
    apply in_map_iff. exists k. split; [reflexivity|]. apply Hr1. lia.
  - (* no worse than any candidate *)
    destruct (Z.compare_spec k j) as [->|Hlt|Hgt].
    + apply Qle_refl.
    + apply Qlt_le_weak.
      apply (Hl1 (k, rel_error_fin target (m k))).
      apply in_map_iff. exists k. split; [reflexivity|]. apply Hr1. lia.
    + apply (Hl2 (k, rel_error_fin target (m k))).
      apply in_map_iff. exists k. split; [reflexivity|]. apply Hr2. lia.
Qed.

End Table.

Lemma getSlicePositions_eq totalImages totalLength sliceThickness :
  getSlicePositions totalImages totalLength sliceThickness
  = slice_table totalImages (totalLength / inject_Z (totalImages - 1))
      sliceThickness 1 (Z.to_nat totalImages).
Proof.
  unfold getSlicePositions. rewrite slice_loop_eq by (intros kv []).
  rewrite app_nil_r.
  destruct (Z.le_gt_cases 0 totalImages) as [H|H].
  - f_equal. lia.
  - replace (Z.to_nat totalImages) with O by lia. reflexivity.
Qed.

End TableFacts.

(** ** Nearest step on an evenly spaced table *)

Module StepFacts.
Import PositionAware NearestFacts TableFacts.

Lemma Qabs_cases (x : Q) :
  ((0 <= x /\ Qabs x == x) \/ (x < 0 /\ Qabs x == - x))%Q.
Proof.
  destruct (Qlt_le_dec x 0) as [H|H].
  - right. split; [exact H|]. apply Qabs_neg. now apply Qlt_le_weak.
  - left. split; [exact H|]. now apply Qabs_pos.
Qed.

Lemma rel_error_fin_wd target c c' :
  (c == c')%Q -> (rel_error_fin target c == rel_error_fin target c')%Q.
Proof. intro H. unfold rel_error_fin. now rewrite H. Qed.

Lemma rel_error_fin_lt target c c' :
  (0 < target)%Q ->
  (rel_error_fin target c < rel_error_fin target c')%Q
  <-> (Qabs (c - target) < Qabs (c' - target))%Q.
Proof.
  intro Ht. unfold rel_error_fin, Qdiv.
  assert (Hi : (0 < / target)%Q) by now apply Qinv_lt_0_compat.
  assert (Hk : (0 < / target * 100)%Q)
    by (apply Qmult_lt_0_compat; [exact Hi | reflexivity]).
  rewrite <- !Qmult_assoc.
  split; intro H.
  - now apply Qmult_lt_r in H.
  - now apply Qmult_lt_r.
Qed.

Lemma rel_error_fin_le target c c' :
  (0 < target)%Q ->
  (rel_error_fin target c <= rel_error_fin target c')%Q
  <-> (Qabs (c - target) <= Qabs (c' - target))%Q.
Proof.
  intro Ht. unfold rel_error_fin, Qdiv.
  assert (Hi : (0 < / target)%Q) by now apply Qinv_lt_0_compat.
  assert (Hk : (0 < / target * 100)%Q)
    by (apply Qmult_lt_0_compat; [exact Hi | reflexivity]).
  rewrite <- !Qmult_assoc.
  split; intro H.
  - now apply Qmult_le_r in H.
  - now apply Qmult_le_r.
Qed.

Section Even.
Variable totalImages : Z.
Variables spaceBetweenSlices sliceThickness : Q.

Abbreviation at_ := (slice_at totalImages spaceBetweenSlices sliceThickness).

(** The distance between two positions of the table is the index
    difference times the spacing. *)
Lemma distance_slice a k :
  a <= k ->
  (distance_mm (at_ a) (Some (at_ k))
   == inject_Z (k - a) * Qabs spaceBetweenSlices)%Q.
Proof.
  intro Hk. unfold distance_mm, slice_at. cbn [Position.rel_center_mm].
  assert (E : (inject_Z (totalImages - k) * spaceBetweenSlices
               - inject_Z (totalImages - a) * spaceBetweenSlices
               == - (inject_Z (k - a) * spaceBetweenSlices))%Q).
  { unfold Z.sub. rewrite !inject_Z_plus, !inject_Z_opp. ring. }
  rewrite E, Qabs_opp, Qabs_Qmult.
  rewrite (Qabs_pos (inject_Z (k - a))); [reflexivity|].
  rewrite <- (Zle_Qle 0). lia.
Qed.

(** The error of an index step [k] against the target step [target]. *)
Definition step_error (target : Q) (k : Z) : Q :=
  Qabs (inject_Z k * Qabs spaceBetweenSlices - target).

(** [k] is the first step of least error among the steps [1 .. m]. *)
Definition first_least (target : Q) (m k : Z) : Prop :=
  1 <= k <= m /\
  forall i, 1 <= i <= m ->
    (i < k -> (step_error target k < step_error target i)%Q) /\
    (step_error target k <= step_error target i)%Q.

Lemma get_asdf1_first_least n a target j err dist :
  (0 < target)%Q -> 1 <= a ->
  get_asdf1 (slice_table totalImages spaceBetweenSlices sliceThickness 1 n)
    a target = Ok (j, err, dist) ->
  first_least target (Z.of_nat n - a) (j - a) /\
  (dist == inject_Z (j - a) * Qabs spaceBetweenSlices)%Q.
Proof.
  intros Ht Ha H. unfold get_asdf1 in H.
  assert (Hnz : ~ (target == 0)%Q)
    by (intro E; rewrite E in Ht; now apply Qlt_irrefl in Ht).
  destruct (nearest_slice_range _ _ _ _ _ _ _ _ _ _ Ha H) as [Hj ->].
  apply nearest_slice_table in H; [|exact Ha|exact Hnz].
  destruct H as [_ Hmin].
  split; [|apply distance_slice; lia].
  split; [lia|]. intros i Hi.
  destruct (Hmin (a + i)) as [Hlt Hle]; [lia|].
  unfold step_error.
  rewrite (rel_error_fin_wd target _ _ (distance_slice a j ltac:(lia)))
    in Hlt, Hle.
  rewrite (rel_error_fin_wd target _ _ (distance_slice a (a + i) ltac:(lia)))
    in Hlt, Hle.
  replace (a + i - a) with i in * by lia.
  split.
  - intro Hik. apply (rel_error_fin_lt target); [exact Ht|]. apply Hlt. lia.
  - apply (rel_error_fin_le target); [exact Ht|]. exact Hle.
Qed.

(** Shrinking the range of steps either keeps the first least step or cuts
    it off, and then the largest remaining step is chosen: the error is
    V-shaped in the step. *)
Lemma first_least_restrict target m m' k k' :
  (0 < Qabs spaceBetweenSlices)%Q ->
  m' <= m ->
  first_least target m k ->
  first_least target m' k' ->
  k' = k \/ k' = m'.
Proof.
  intros Hu Hm [Hk Hmin] [Hk' Hmin'].
  destruct (Z.le_gt_cases k m') as [Hin|Hout].
  - left.
    destruct (Z.compare_spec k' k) as [E|Hlt|Hgt]; [exact E| |]; exfalso.
    + destruct (Hmin k') as [H1 _]; [lia|]. specialize (H1 Hlt).
      destruct (Hmin' k) as [_ H2]; [lia|].
      apply (Qlt_not_le _ _ H1 H2).
    + destruct (Hmin' k) as [H1 _]; [lia|]. specialize (H1 Hgt).
      destruct (Hmin k') as [_ H2]; [lia|].
      apply (Qlt_not_le _ _ H1 H2).
  - right.
    destruct (Z.eq_dec k' m') as [E|Hne]; [exact E|]. exfalso.
    assert (Hlt : k' < m') by lia.
    destruct (Hmin' m') as [_ H1]; [lia|].
    destruct (Hmin m') as [H2 _]; [lia|]. specialize (H2 Hout).
    unfold step_error in *.
    assert (Ha : (inject_Z k' * Qabs spaceBetweenSlices
                  < inject_Z m' * Qabs spaceBetweenSlices)%Q).
    { apply Qmult_lt_compat_r; [exact Hu|]. rewrite <- Zlt_Qlt. exact Hlt. }
    assert (Hb : (inject_Z m' * Qabs spaceBetweenSlices
                  < inject_Z k * Qabs spaceBetweenSlices)%Q).
    { apply Qmult_lt_compat_r; [exact Hu|]. rewrite <- Zlt_Qlt. exact Hout. }
    revert H1 H2 Ha Hb.
    generalize (inject_Z k' * Qabs spaceBetweenSlices)%Q as A.
    generalize (inject_Z m' * Qabs spaceBetweenSlices)%Q as B.
    generalize (inject_Z k * Qabs spaceBetweenSlices)%Q as C.
    intros C B A H1 H2 Ha Hb.
    destruct (Qabs_cases (A - target)) as [[? EA]|[? EA]];
    destruct (Qabs_cases (B - target)) as [[? EB]|[? EB]];
    destruct (Qabs_cases (C - target)) as [[? EC]|[? EC]];
    rewrite EA, EB in H1; rewrite EB, EC in H2; lra.
Qed.

(** Against a negative target the error falls as the distance grows, and
    the query returns the last key of the table. *)
Lemma get_asdf1_negative n a target j err dist :
  (0 < Qabs spaceBetweenSlices)%Q ->
  (target < 0)%Q -> 1 <= a ->
  get_asdf1 (slice_table totalImages spaceBetweenSlices sliceThickness 1 n)
    a target = Ok (j, err, dist) ->
  j = Z.of_nat n.
Proof.
  intros Hu Ht Ha H. unfold get_asdf1 in H.
  assert (Hnz : ~ (target == 0)%Q)
    by (intro E; rewrite E in Ht; now apply Qlt_irrefl in Ht).
  destruct (nearest_slice_range _ _ _ _ _ _ _ _ _ _ Ha H) as [Hj _].
  apply nearest_slice_table in H; [|exact Ha|exact Hnz].
  destruct H as [_ Hmin].
  destruct (Z.eq_dec j (Z.of_nat n)) as [E|Hne]; [exact E|]. exfalso.
  destruct (Hmin (Z.of_nat n)) as [_ Hle]; [lia|].
  rewrite (rel_error_fin_wd target _ _ (distance_slice a j ltac:(lia))) in Hle.
  rewrite (rel_error_fin_wd target _ _
             (distance_slice a (Z.of_nat n) ltac:(lia))) in Hle.
  assert (Hc : (inject_Z (j - a) * Qabs spaceBetweenSlices
                < inject_Z (Z.of_nat n - a) * Qabs spaceBetweenSlices)%Q).
  { apply Qmult_lt_compat_r; [exact Hu|]. rewrite <- Zlt_Qlt. lia. }
  assert (Hp : (0 <= inject_Z (j - a) * Qabs spaceBetweenSlices)%Q).
  { apply Qmult_le_0_compat; [|now apply Qlt_le_weak].
    rewrite <- (Zle_Qle 0). lia. }
  revert Hle Hc Hp.
  generalize (inject_Z (j - a) * Qabs spaceBetweenSlices)%Q as A.
  generalize (inject_Z (Z.of_nat n - a) * Qabs spaceBetweenSlices)%Q as B.
  intros B A Hle Hc Hp. unfold rel_error_fin in Hle.
  rewrite (Qabs_pos (A - target)), (Qabs_pos (B - target)) in Hle by lra.
  assert (Hm : ((A - target) / target * 100 * (- target)
                <= (B - target) / target * 100 * (- target))%Q)
    by (apply Qmult_le_compat_r; [exact Hle | lra]).
  assert (EA : ((A - target) / target * 100 * (- target)
                == - ((A - target) * 100))%Q) by (field; exact Hnz).
  assert (EB : ((B - target) / target * 100 * (- target)
                == - ((B - target) * 100))%Q) by (field; exact Hnz).
  rewrite EA, EB in Hm. lra.
Qed.

(** Two queries on the same table take the same index step, unless the
    later one runs into the end of the table; this holds for every target
    step. *)
Lemma get_asdf1_uniform n a target j1 e1 d j e dist :
  (0 < Qabs spaceBetweenSlices)%Q ->
  1 <= a ->
  get_asdf1 (slice_table totalImages spaceBetweenSlices sliceThickness 1 n)
    1 target = Ok (j1, e1, d) ->
  get_asdf1 (slice_table totalImages spaceBetweenSlices sliceThickness 1 n)
    a target = Ok (j, e, dist) ->
  j < Z.of_nat n ->
  j - a = j1 - 1.
Proof.
  intros Hu Ha H1 H Hj.
  destruct (Q_dec target 0) as [[Ht|Ht]|Ht].
  - (* negative target *)
    apply get_asdf1_negative in H; [lia | exact Hu | exact Ht | exact Ha].
  - (* positive target *)
    apply get_asdf1_first_least in H1; [|exact Ht|lia].
    apply get_asdf1_first_least in H; [|exact Ht|exact Ha].
    destruct H1 as [F1 _]. destruct H as [F _].
    destruct (first_least_restrict target (Z.of_nat n - 1) (Z.of_nat n - a)
                (j1 - 1) (j - a) Hu ltac:(lia) F1 F) as [E|E]; lia.
  - (* zero target *)
    unfold get_asdf1 in H1, H.
    apply nearest_slice_zero in H1; [|lia|exact Ht].
    apply nearest_slice_zero in H; [|exact Ha|exact Ht]. lia.
Qed.

End Even.

End StepFacts.

(** ** Entries of a generated sequence *)

Module ChainFacts.
Import PositionAware NearestFacts GeneratorFacts TableFacts StepFacts.

Abbreviation w_start w := (Window.start_img (Entry.window w)).
Abbreviation w_end w := (Window.end_img (Entry.window w)).
Abbreviation w_next w := (Step.img (Entry.step w)).

Section Chain.
Variable slicePositions : table.
Variables x0 x1 : Q.

Lemma make_entry_Ok s e e1 c n e2 d w :
  make_entry slicePositions s e e1 c n e2 d = Ok w ->
  exists sp ep cp,
    Obj.get slicePositions s = Some sp /\
    Obj.get slicePositions e = Some ep /\
    Obj.get slicePositions ((s + e) / 2) = Some cp /\
    w = Entry.mk
          (Window.mk s (s - 1) (Position.rel_center_mm sp)
             e (e - 1) (Position.rel_center_mm ep)
             e1 c (e - s + 1) ((s + e) / 2) (Position.rel_center_mm cp))
          (Step.mk n (n - 1) e2 d (n - s + 1)).
Proof.
  unfold make_entry. intro H.
  bind_inv H sp Hsp. bind_inv H ep Hep. bind_inv H cp Hcp. bind_inv H np Hnp.
  apply defined_Ok in Hsp, Hep, Hcp. injection H as <-.
  exists sp, ep, cp. auto.
Qed.

(** What is known of the entry pushed for the start index [s]. *)
Definition entry_from (d : Q) (s : Z) (w : Entry.t) : Prop :=
  w_start w = s /\
  s < w_end w /\ In (w_end w) (Obj.keys slicePositions) /\
  s < w_next w /\ In (w_next w) (Obj.keys slicePositions) /\
  (exists sp, Obj.get slicePositions s = Some sp /\
              Window.start_mm (Entry.window w) = Position.rel_center_mm sp) /\
  Step.distance_mm (Entry.step w) = d.

(** Each entry starts where the step of the one before it points. *)
Fixpoint chained (d : Q) (s : Z) (ws : list Entry.t) : Prop :=
  match ws with
  | [] => True
  | w :: r => entry_from d s w /\ chained d (w_next w) r
  end.

Lemma entry_from_intro s e e1 c n e2 dd d w :
  get_asdf slicePositions s x0 = Ok (e, e1, c) ->
  get_asdf1 slicePositions s x1 = Ok (n, e2, dd) ->
  make_entry slicePositions s e e1 c n e2 d = Ok w ->
  entry_from d s w /\ w_next w = n.
Proof.
  intros Ha Hs Hw.
  apply nearest_future, future_keys in Ha.
  apply nearest_future, future_keys in Hs.
  apply make_entry_Ok in Hw. destruct Hw as [sp [ep [cp [Hsp [_ [_ ->]]]]]].
  unfold entry_from. cbn. repeat split; try tauto. eauto.
Qed.

Lemma run_chained d s ws :
  run slicePositions x0 x1 d s ws -> chained d s ws.
Proof.
  induction 1 as [|s e e1 c n e2 dd w ws Ha Hb Hs Hw Hr IH]; cbn; [exact I|].
  destruct (entry_from_intro _ _ _ _ _ _ _ _ _ Ha Hs Hw) as [Hf ->].
  auto.
Qed.

Lemma get_windows_chained ws :
  get_windows slicePositions x0 x1 = Ok ws ->
  exists k d, smallestKey slicePositions = Some k /\ ws <> [] /\ chained d k ws.
Proof.
  intro H. apply get_windows_fuel_Ok in H.
  destruct H as (k & e & e1 & c & n & e2 & d & first & more
                 & Hk & Ha & Hs & Hw & Hr & ->).
  exists k, d. split; [exact Hk|]. split; [discriminate|].
  cbn. destruct (entry_from_intro _ _ _ _ _ _ _ _ _ Ha Hs Hw) as [Hf ->].
  split; [exact Hf|]. now apply run_chained.
Qed.

Lemma chained_lower d s ws :
  chained d s ws -> Forall (fun w => s <= w_start w) ws.
Proof.
  revert s. induction ws as [|w r IH]; intros s H; [constructor|].
  destruct H as [Hf Hr]. constructor.
  - destruct Hf as [-> _]. lia.
  - apply IH in Hr. destruct Hf as (_ & _ & _ & Hn & _).
    eapply Forall_impl; [|exact Hr]. cbn. intros a Ha. lia.
Qed.

Lemma chained_sorted d s ws :
  chained d s ws ->
  StronglySorted (fun a b => w_start a < w_start b) ws.
Proof.
  revert s. induction ws as [|w r IH]; intros s H; [constructor|].
  destruct H as [Hf Hr]. constructor; [now apply IH in Hr|].
  apply chained_lower in Hr. destruct Hf as (-> & _ & _ & Hn & _).
  eapply Forall_impl; [|exact Hr]. cbn. intros a Ha. lia.
Qed.

Lemma chained_linked d s ws :
  chained d s ws ->
  forall i a b,
    nth_error ws i = Some a -> nth_error ws (S i) = Some b ->
    w_start b = w_next a.
Proof.
  revert s. induction ws as [|w r IH]; intros s H i a b Ha Hb.
  - destruct i; discriminate Ha.
  - destruct H as [_ Hr]. destruct i as [|i].
    + cbn in Ha, Hb. injection Ha as <-.
      destruct r as [|w' r']; [discriminate Hb|].
      cbn in Hb. injection Hb as <-.
      destruct Hr as [(E & _) _]. exact E.
    + cbn in Ha, Hb. exact (IH _ Hr i a b Ha Hb).
Qed.

Lemma chained_bounds d s ws lo hi :
  (forall k, In k (Obj.keys slicePositions) -> lo <= k <= hi) ->
  lo <= s ->
  chained d s ws ->
  Forall (fun w => lo <= w_start w /\ w_start w < w_end w /\ w_end w <= hi) ws.
Proof.
  intros Hkeys. revert s. induction ws as [|w r IH]; intros s Hs H; [constructor|].
  destruct H as [Hf Hr].
  destruct Hf as (Hst & He & Hek & Hn & Hnk & _).
  constructor.
  - apply Hkeys in Hek. lia.
  - apply (IH (w_next w)); [lia | exact Hr].
Qed.

End Chain.

End ChainFacts.

(** ** Mean step of a generated sequence, in exact arithmetic *)

Module StatsFacts.
Import PositionAware NearestFacts GeneratorFacts TableFacts StepFacts ChainFacts.

(** The physical distance between the start positions of each pair of
    adjacent windows: one value per pair, none for the last window. *)
Fixpoint adjacent_start_distances (ws : list Entry.t) : list Q :=
  match ws with
  | a :: (b :: _) as r =>
      Qabs (Window.start_mm (Entry.window b) - Window.start_mm (Entry.window a))
      :: adjacent_start_distances r
  | _ => []
  end.

(** Arithmetic mean of a list of numbers. *)
Definition mean (l : list Q) : Q :=
  (fold_right Qplus 0 l / inject_Z (Z.of_nat (length l)))%Q.

Lemma sum_over_const {A} (f : A -> Q) (d : Q) (l : list A) :
  Forall (fun a => f a = d) l ->
  (sum_over f l == inject_Z (Z.of_nat (length l)) * d)%Q.
Proof.
  unfold sum_over. intro H.
  assert (G : forall acc,
             (fold_left (fun acc a => acc + f a) l acc
              == acc + inject_Z (Z.of_nat (length l)) * d)%Q).
  { induction H as [|a l Ha Hl IH]; intro acc; cbn [fold_left length].
    - cbn. ring.
    - rewrite IH, Ha, Nat2Z.inj_succ. unfold Z.succ.
      rewrite inject_Z_plus. ring. }
  rewrite G. ring.
Qed.

Lemma mean_const (d : Q) (l : list Q) :
  Forall (fun q => (q == d)%Q) l -> l <> [] -> (mean l == d)%Q.
Proof.
  intros H Hne. unfold mean.
  assert (G : (fold_right Qplus 0 l == inject_Z (Z.of_nat (length l)) * d)%Q).
  { clear Hne. induction H as [|a l Ha Hl IH]; cbn [fold_right length].
    - cbn. ring.
    - rewrite IH, Ha, Nat2Z.inj_succ. unfold Z.succ.
      rewrite inject_Z_plus. ring. }
  rewrite G. field.
  destruct l; [congruence|]. cbn [length].
  intro E. apply (Qlt_irrefl 0). rewrite <- E at 2.
  rewrite <- (Zlt_Qlt 0). lia.
Qed.

Section Uniform.
Variable totalImages : Z.
Variables spaceBetweenSlices sliceThickness : Q.
Variable n : nat.
Variables x0 x1 : Q.

Abbreviation tbl := (slice_table totalImages spaceBetweenSlices sliceThickness 1 n).
Abbreviation at_ := (slice_at totalImages spaceBetweenSlices sliceThickness).

Hypothesis spacing : (0 < Qabs spaceBetweenSlices)%Q.

(** Entries that start at [s], [s + k], [s + 2k], ... *)
Fixpoint progression (k : Z) (d : Q) (s : Z) (ws : list Entry.t) : Prop :=
  match ws with
  | [] => True
  | w :: r =>
      (w_start w = s /\
       Window.start_mm (Entry.window w) = Position.rel_center_mm (at_ s) /\
       s < w_end w <= Z.of_nat n /\
       Step.distance_mm (Entry.step w) = d) /\
      progression k d (s + k) r
  end.

Lemma run_inside d s ws :
  1 <= s -> run tbl x0 x1 d s ws -> s < Z.of_nat n.
Proof.
  intros Hs H.
  assert (exists e e1 c, get_asdf tbl s x0 = Ok (e, e1, c)) as (e & e1 & c & Ha)
    by (destruct H; eauto).
  apply nearest_slice_range in Ha; [|exact Hs]. lia.
Qed.

Lemma run_progression j1 e2 d0 d s ws :
  get_asdf1 tbl 1 x1 = Ok (j1, e2, d0) ->
  1 <= s ->
  run tbl x0 x1 d s ws ->
  progression (j1 - 1) d s ws.
Proof.
  intros H1 Hs H. induction H as [|s e e1 c nx e2' dd w ws Ha Hb Hst Hw Hr IH];
    cbn [progression]; [exact I|].
  assert (Hnx : s < nx).
  { apply nearest_slice_range in Hst; [lia | exact Hs]. }
  assert (Hin : nx < Z.of_nat n) by (apply (run_inside d nx ws); [lia | exact Hr]).
  assert (Hk : nx - s = j1 - 1)
    by (eapply get_asdf1_uniform; eauto).
  apply nearest_slice_range in Ha; [|exact Hs]. destruct Ha as [He _].
  apply make_entry_Ok in Hw. destruct Hw as (sp & ep & cp & Hsp & _ & _ & ->).
  apply slice_table_get_In in Hsp. destruct Hsp as [_ ->].
  cbn. split; [repeat split; lia|].
  replace (s + (j1 - 1)) with nx by lia. apply IH. lia.
Qed.

Lemma progression_adjacent k d s ws :
  0 <= k ->
  progression k d s ws ->
  Forall (fun q => (q == inject_Z k * Qabs spaceBetweenSlices)%Q)
    (adjacent_start_distances ws).
Proof.
  intro Hk. revert s. induction ws as [|a r IH]; intros s H; [constructor|].
  destruct r as [|b r']; [constructor|].
  destruct H as [(_ & Ea & _) Hr].
  change (adjacent_start_distances (a :: b :: r'))
    with (Qabs (Window.start_mm (Entry.window b) - Window.start_mm (Entry.window a))
          :: adjacent_start_distances (b :: r')).
  constructor; [|exact (IH _ Hr)].
  destruct Hr as [(_ & Eb & _) _]. rewrite Ea, Eb.
  change (Qabs (Position.rel_center_mm (at_ (s + k)) - Position.rel_center_mm (at_ s)))
    with (distance_mm (at_ s) (Some (at_ (s + k)))).
  rewrite distance_slice by lia. now replace (s + k - s) with k by lia.
Qed.

Lemma progression_Forall k d s ws :
  0 <= k -> 1 <= s ->
  progression k d s ws ->
  Forall (fun w => 1 <= w_end w <= Z.of_nat n
                   /\ Step.distance_mm (Entry.step w) = d) ws.
Proof.
  intro Hk. revert s. induction ws as [|a r IH]; intros s Hs H; [constructor|].
  destruct H as [(_ & _ & He & Hd) Hr].
  constructor; [split; [lia | exact Hd]|]. apply (IH (s + k)); [lia | exact Hr].
Qed.

Lemma adjacent_length ws :
  length (adjacent_start_distances ws) = (length ws - 1)%nat.
Proof.
  induction ws as [|a [|b r] IH]; try reflexivity.
  change (adjacent_start_distances (a :: b :: r))
    with (Qabs (Window.start_mm (Entry.window b) - Window.start_mm (Entry.window a))
          :: adjacent_start_distances (b :: r)).
  cbn [length] in *. rewrite IH. lia.
Qed.

(** On an evenly spaced table every sequence the generator returns has one
    and the same step, the one recorded for the first window, so the mean
    of the recorded steps is the mean of the adjacent distances. *)
Lemma get_stats_step_size ws :
  get_windows tbl x0 x1 = Ok ws ->
  (2 <= length ws)%nat ->
  exists stats,
    get_stats tbl ws = Ok stats /\
    (stats step_size == mean (adjacent_start_distances ws))%Q.
Proof.
  intros H Hlen. apply get_windows_fuel_Ok in H.
  destruct H as (k & e & e1 & c & j1 & e2 & d & first & more
                 & Hk & Ha & Hs & Hw & Hr & ->).
  destruct n as [|n0] eqn:En; [discriminate Hk|].
  rewrite slice_table_smallestKey in Hk. injection Hk as <-.
  rewrite <- En in *.
  assert (Hj1 : 1 < j1 <= Z.of_nat n)
    by (pose proof Hs as Hs'; apply nearest_slice_range in Hs'; lia).
  assert (Hd : (d == inject_Z (j1 - 1) * Qabs spaceBetweenSlices)%Q).
  { pose proof Hs as Hs'. unfold get_asdf1 in Hs'.
    apply nearest_slice_range in Hs'; [|lia]. destruct Hs' as [_ ->].
    apply distance_slice. lia. }
  assert (Hp : progression (j1 - 1) d 1 (first :: more)).
  { cbn [progression]. split.
    - apply nearest_slice_range in Ha; [|lia]. destruct Ha as [He _].
      apply make_entry_Ok in Hw. destruct Hw as (sp & ep & cp & Hsp & _ & _ & ->).
      apply slice_table_get_In in Hsp. destruct Hsp as [_ ->].
      cbn. repeat split; lia.
    - replace (1 + (j1 - 1)) with j1 by lia.
      eapply run_progression; eauto. lia. }
  pose proof (progression_Forall (j1 - 1) d 1 (first :: more)
                ltac:(lia) ltac:(lia) Hp) as Hall.
  pose proof (progression_adjacent (j1 - 1) d 1 (first :: more)
                ltac:(lia) Hp) as Hadj.
  (* the statistics are computed without error *)
  unfold get_stats.
  cbn [nth_error defined bind].
  destruct (nth_error (first :: more) (length (first :: more) - 1))
    as [lastw|] eqn:El.
  2:{ apply nth_error_None in El. cbn [length] in *. lia. }
  cbn [defined bind].
  assert (Hfirst : w_start first = 1) by (destruct Hp as [(E & _) _]; exact E).
  rewrite Hfirst. rewrite slice_table_get by lia. cbn [defined bind].
  apply nth_error_In in El.
  rewrite Forall_forall in Hall. destruct (Hall _ El) as [Hle _].
  rewrite slice_table_get by lia. cbn [defined bind].
  eexists. split; [reflexivity|]. cbn [object3].
  rewrite (sum_over_const _ d).
  2:{ apply Forall_forall. intros w Hin. now apply Hall. }
  rewrite mean_const with (d := d).
  - field. intro E. apply (Qlt_irrefl 0). rewrite <- E at 2.
    rewrite <- (Zlt_Qlt 0). lia.
  - eapply Forall_impl; [|exact Hadj]. cbn. intros q Hq. now rewrite Hq, Hd.
  - intro E. apply (f_equal (@length Q)) in E.
    rewrite adjacent_length in E. cbn [length] in *. lia.
Qed.

End Uniform.

End StatsFacts.

(** ** The index-based window loop *)

Module IndexFacts.
Import IndexBased.

Lemma optimizeWindowSize_range totalImages numWindows overlapPercent :
  1 <= BruteForce.optimizeWindowSize totalImages numWindows overlapPercent
    <= Z.max 1 totalImages.
Proof.
  unfold BruteForce.optimizeWindowSize.
  pose proof (BruteForceFacts.for_loop_range totalImages numWindows
                overlapPercent (Z.to_nat totalImages) 1 (BruteForce.mkBest 1 0))
    as H.
  cbn [BruteForce.bestWindowSize] in H.
  specialize (H ltac:(lia) ltac:(lia)). lia.
Qed.

Lemma stepSize_pos overlapPercent windowSize :
  overlapPercent < 100 -> 1 <= windowSize ->
  1 <= windowSize - (windowSize * overlapPercent) / 100.
Proof.
  intros Hp Hw.
  assert ((windowSize * overlapPercent) / 100 < windowSize).
  { apply Z.div_lt_upper_bound; [lia | nia]. }
  lia.
Qed.

Section Windows.
Variables totalImages : Z.
Variable sliceInterval : Q.
Variables windowSize stepSize : Z.

Abbreviation push := (push_windows totalImages sliceInterval windowSize stepSize).

Lemma push_windows_acc n : forall i acc,
  push n i acc = acc ++ push n i [].
Proof.
  induction n as [|n IH]; intros i acc; cbn [push_windows].
  - now rewrite app_nil_r.
  - destruct (i * stepSize >=? totalImages); [now rewrite app_nil_r|].
    rewrite IH, (IH _ ([] ++ _)). cbn [app]. now rewrite <- app_assoc.
Qed.

(** Windows pushed from the loop index [i] on: 0-based bounds, and a
    strictly increasing start. *)
Lemma push_windows_spec n : forall i,
  1 <= stepSize -> 1 <= windowSize -> 0 <= i ->
  Forall (fun w => i * stepSize <= start w /\
                   start w <= end_ w /\ end_ w <= totalImages - 1)
    (push n i []) /\
  StronglySorted (fun a b => start a < start b) (push n i []).
Proof.
  induction n as [|n IH]; intros i Hs Hw Hi; cbn [push_windows].
  - split; constructor.
  - destruct (i * stepSize >=? totalImages) eqn:E; [split; constructor|].
    rewrite Z.geb_leb in E. apply Z.leb_gt in E.
    rewrite push_windows_acc. cbn [app].
    destruct (IH (i + 1) Hs Hw ltac:(lia)) as [Hall Hsort].
    split.
    + constructor; [cbn; lia|].
      eapply Forall_impl; [|exact Hall]. cbn. intros a Ha. nia.
    + constructor; [exact Hsort|].
      eapply Forall_impl; [|exact Hall]. cbn. intros a Ha. nia.
Qed.

End Windows.

End IndexFacts.

(** ** Cost evaluators *)

Module CostFacts.

(** The cost as the design document words it: the weighted sum, over the
    criteria [keys], of the smoothed relative error against a scale that is
    the target or, if larger, a small positive floor. *)
Definition huber_cost {K} (keys : list K)
    (weights observed targets floor : K -> Q) : Q :=
  fold_right Qplus 0%Q
    (map (fun k =>
            let scale := NelderMead.Qmax (targets k) (floor k) in
            let e := (Qabs (observed k - targets k) / scale)%Q in
            (weights k * NelderMead.huber e)%Q)
       keys).

Lemma or_else_nonzero v d : ~ (v == 0)%Q -> NelderMead.or_else v d = v.
Proof.
  intro H. unfold NelderMead.or_else.
  destruct (Qeq_bool v 0) eqn:E; [|reflexivity].
  apply Qeq_bool_iff in E. contradiction.
Qed.

Lemma or_else_zero v : (NelderMead.or_else v 0 == v)%Q.
Proof.
  unfold NelderMead.or_else.
  destruct (Qeq_bool v 0) eqn:E; [|reflexivity].
  apply Qeq_bool_iff in E. now rewrite E.
Qed.

Lemma Qmax_lower a b : (b <= NelderMead.Qmax a b)%Q.
Proof.
  unfold NelderMead.Qmax. destruct (Qltb a b) eqn:E.
  - apply Qle_refl.
  - now apply Qltb_ge in E.
Qed.

Lemma scale_pos targets sliceInterval k :
  (0 < sliceInterval)%Q -> (0 < NelderMead.scale targets sliceInterval k)%Q.
Proof.
  intro H. unfold NelderMead.scale.
  destruct k; (eapply Qlt_le_trans; [|apply Qmax_lower]);
    first [exact H | reflexivity].
Qed.

(** The weighted sum, over [keys], of the smoothed error against [scale]. *)
Definition smoothed_cost {K} (keys : list K)
    (weights observed targets scale : K -> Q) : Q :=
  fold_right Qplus 0%Q
    (map (fun k =>
            (weights k
             * NelderMead.huber (Qabs (observed k - targets k) / scale k))%Q)
       keys).

(** The weighted sum, over [keys], of the relative error in percent. *)
Definition percent_cost {K} (keys : list K)
    (weights observed targets : K -> Q) : Q :=
  fold_right Qplus 0%Q
    (map (fun k =>
            (weights k * (Qabs (observed k - targets k) / targets k * 100))%Q)
       keys).

Section Candidate.
Variable totalImages : Z.
Variable sliceInterval : Q.
Variable p : NelderMead.params.

(** The quantities [objectiveFunction] derives from a parameter vector. *)
Definition windowCm : Q := NelderMead.Qmax (NelderMead.p0 p) sliceInterval.
Definition stepCm : Q := NelderMead.Qmax (NelderMead.p2 p) sliceInterval.
Definition windowImages : Z :=
  NelderMead.clampInt (windowCm / sliceInterval) 1 totalImages.
Definition stepImages : Z :=
  NelderMead.clampInt (stepCm / sliceInterval) 1 (Z.max 1 (windowImages - 1)).
Definition numWindows : Z := (totalImages - windowImages) / stepImages + 1.
Definition lastEnd : Z := (numWindows - 1) * stepImages + windowImages - 1.

Definition observed : NelderMead.object :=
  fun k =>
    match k with
    | NelderMead.window_length => windowCm
    | NelderMead.window_number => inject_Z numWindows
    | NelderMead.step_or_overlap => stepCm
    | NelderMead.percentage =>
        (inject_Z (Z.min (lastEnd + 1) totalImages) / inject_Z totalImages * 100)%Q
    end.

(** At least two windows, the last one inside the sequence. *)
Definition candidate_ok : Prop := 2 <= numWindows /\ lastEnd < totalImages.

Definition penalty : Q := if stepImages >=? windowImages then 5 else 0.

Lemma objectiveFunction_rejects targets weights :
  ~ candidate_ok ->
  NelderMead.objectiveFunction totalImages targets sliceInterval weights p
  = 1000%Q.
Proof.
  intro H. unfold NelderMead.objectiveFunction.
  fold windowCm stepCm. fold windowImages. fold stepImages. fold numWindows.
  destruct (numWindows <? 2) eqn:E1; [reflexivity|].
  fold lastEnd.
  destruct (lastEnd >=? totalImages) eqn:E2; [reflexivity|].
  exfalso. apply H. apply Z.ltb_ge in E1.
  rewrite Z.geb_leb in E2. apply Z.leb_gt in E2. split; lia.
Qed.

Lemma objectiveFunction_scores targets weights :
  (0 < sliceInterval)%Q ->
  candidate_ok ->
  (NelderMead.objectiveFunction totalImages targets sliceInterval weights p
   == 100 * (smoothed_cost NelderMead.keys weights observed targets
               (NelderMead.scale targets sliceInterval)
             + penalty))%Q.
Proof.
  intros Hsi [H1 H2]. unfold NelderMead.objectiveFunction.
  fold windowCm stepCm. fold windowImages. fold stepImages. fold numWindows.
  replace (numWindows <? 2) with false by (symmetry; apply Z.ltb_ge; lia).
  fold lastEnd.
  replace (lastEnd >=? totalImages) with false
    by (symmetry; rewrite Z.geb_leb; apply Z.leb_gt; lia).
  unfold smoothed_cost, NelderMead.keys, penalty.
  cbn [fold_left fold_right map].
  assert (Hsc : forall k,
             NelderMead.or_else (NelderMead.scale targets sliceInterval k) 1
             = NelderMead.scale targets sliceInterval k).
  { intro k. apply or_else_nonzero. intro E.
    pose proof (scale_pos targets sliceInterval k Hsi) as Hp.
    rewrite E in Hp. now apply Qlt_irrefl in Hp. }
  rewrite !Hsc.
  unfold observed.
  destruct (stepImages >=? windowImages);
    rewrite !or_else_zero; ring.
Qed.

End Candidate.

Lemma get_cost_sum_percent targets weights stats :
  (PositionAware.sum
     (PositionAware.get_costs weights
        (PositionAware.get_errors targets stats))
   == percent_cost
        [PositionAware.total_coverage; PositionAware.window_coverage;
         PositionAware.step_size]
        weights stats targets)%Q.
Proof.
  unfold PositionAware.get_costs, PositionAware.get_cost_sum, percent_cost,
    PositionAware.get_cost, PositionAware.get_errors, PositionAware.get_error.
  cbn [PositionAware.sum fold_left fold_right map PositionAware.object3].
  ring.
Qed.

End CostFacts.

(** ** Rounded arithmetic *)

Module RoundedFacts.
Import PositionAware.

(** 0.1 is the binary64 value 3602879701896397 / 2^55. *)
Lemma round_tenth :
  Binary64.round (1 # 10) = (3602879701896397 # 36028797018963968)%Q.
Proof. vm_compute. reflexivity. Qed.

(** Values of 53 bits or fewer are left as they are; 2^53 + 1 and
    2^53 + 3 lie half way between two values and go to the even
    significand. *)
Lemma round_exact :
  Binary64.round 1 = 1%Q /\ Binary64.round (83 # 64) = (83 # 64)%Q /\
  Binary64.round (- (1 # 4)) = (- (1 # 4))%Q /\
  Binary64.round (9007199254740993 # 1) = (9007199254740992 # 1)%Q /\
  Binary64.round (9007199254740995 # 1) = (9007199254740996 # 1)%Q.
Proof. repeat split; vm_compute; reflexivity. Qed.

(** Without rounding the functions of [Rounded] are those of
    [PositionAware]. *)
Abbreviation exact := (fun q : Q => q).

Lemma getSlicePositions_exact :
  Rounded.getSlicePositions exact = getSlicePositions.
Proof. reflexivity. Qed.

Lemma get_asdf_exact : Rounded.get_asdf exact = get_asdf.
Proof. reflexivity. Qed.

Lemma get_asdf1_exact : Rounded.get_asdf1 exact = get_asdf1.
Proof. reflexivity. Qed.

Lemma get_windows_exact : Rounded.get_windows exact = get_windows.
Proof. reflexivity. Qed.

Lemma get_stats_exact : Rounded.get_stats exact = get_stats.
Proof. reflexivity. Qed.

End RoundedFacts.

(** * The claims of the design document *)

Module Claims.
Import PositionAware TableFacts GeneratorFacts ChainFacts StatsFacts CostFacts.

(** ** Brute-force search *)

(** [r] is the optimum the document asks of the search: a candidate size
    (positive step, last window inside the sequence) of greatest coverage,
    and the smallest such size. *)
Definition optimal (totalImages numWindows overlapPercent r : Z) : Prop :=
  1 <= r <= totalImages /\
  BruteForce.feasible totalImages numWindows overlapPercent r /\
  forall w, 1 <= w <= totalImages ->
    BruteForce.feasible totalImages numWindows overlapPercent w ->
    BruteForce.coverage totalImages numWindows overlapPercent w
      <= BruteForce.coverage totalImages numWindows overlapPercent r /\
    (BruteForce.coverage totalImages numWindows overlapPercent w
       = BruteForce.coverage totalImages numWindows overlapPercent r ->
     r <= w).

(** C1, as stated, fails: with one item and two windows no size is a
    candidate (the single size 1 puts the second window past the end), and
    the search returns 1, which is not a candidate. *)
Lemma optimizeWindowSize_without_candidate :
  BruteForce.optimizeWindowSize 1 2 0 = 1 /\
  ~ optimal 1 2 0 (BruteForce.optimizeWindowSize 1 2 0).
Proof.
  split; [reflexivity|].
  intros [_ [[_ H] _]]. vm_compute in H. discriminate H.
Qed.

(** C1, amended: for every itemCount >= 1, windowCount >= 1 and
    overlapPercent such that some size in [1, itemCount] has a positive step
    and a last window inside the sequence, [optimizeWindowSize] returns the
    size in [1, itemCount] of greatest coverage among those candidates, and
    the smallest size among the candidates of greatest coverage. *)
Theorem optimizeWindowSize_optimal totalImages numWindows overlapPercent :
  1 <= totalImages -> 1 <= numWindows ->
  (exists w, 1 <= w <= totalImages /\
             BruteForce.feasible totalImages numWindows overlapPercent w) ->
  optimal totalImages numWindows overlapPercent
    (BruteForce.optimizeWindowSize totalImages numWindows overlapPercent).
Proof.
  intros Hn Hk [w0 [Hw0 Hf0]].
  unfold BruteForce.optimizeWindowSize.
  assert (H0 : BruteForceFacts.scanned totalImages numWindows overlapPercent
                 1 (BruteForce.mkBest 1 0))
    by (apply BruteForceFacts.scanned_none; [reflexivity | intros c Hc; lia]).
  pose proof (BruteForceFacts.for_loop_scanned totalImages numWindows
                overlapPercent (Z.to_nat totalImages) 1 (BruteForce.mkBest 1 0)
                ltac:(lia) Hk ltac:(lia) H0) as H.
  rewrite Z2Nat.id in H by lia.
  destruct H as [Hi Hno | Hb Hf Hc Hmax].
  - exfalso. apply (Hno w0); [lia | exact Hf0].
  - split; [lia|]. split; [exact Hf|].
    intros w Hw Hfw. apply Hmax; [lia | exact Hfw].
Qed.

Lemma optimizeWindowSize_optimal_witness :
  optimal 20 4 25 (BruteForce.optimizeWindowSize 20 4 25).
Proof.
  apply optimizeWindowSize_optimal; [lia | lia |].
  exists 1. split; [lia|]. split; reflexivity.
Defined.

(** C10: [optimizeWindowSize] is total and signals no failure: for every
    itemCount >= 1, windowCount and overlapPercent it returns an integer in
    [1, itemCount], and it returns the default 1 when no size in
    [1, itemCount] has both a positive step and a last window inside the
    sequence; there are inputs for which that default is itself no such
    size. *)
Theorem optimizeWindowSize_total :
  (forall totalImages numWindows overlapPercent,
     1 <= totalImages ->
     1 <= BruteForce.optimizeWindowSize totalImages numWindows overlapPercent
       <= totalImages /\
     ((forall w, 1 <= w <= totalImages ->
         ~ BruteForce.feasible totalImages numWindows overlapPercent w) ->
      BruteForce.optimizeWindowSize totalImages numWindows overlapPercent = 1))
  /\
  (exists totalImages numWindows overlapPercent,
     1 <= totalImages /\
     ~ BruteForce.feasible totalImages numWindows overlapPercent
         (BruteForce.optimizeWindowSize totalImages numWindows overlapPercent)).
Proof.
  split.
  - intros totalImages numWindows overlapPercent Hn. split.
    + pose proof (IndexFacts.optimizeWindowSize_range
                    totalImages numWindows overlapPercent). lia.
    + intro Hno. unfold BruteForce.optimizeWindowSize.
      rewrite BruteForceFacts.for_loop_keep; [reflexivity|].
      intros c Hc. apply Hno. lia.
  - exists 1, 2, 0. split; [lia|].
    intros [_ H]. vm_compute in H. discriminate H.
Qed.

Lemma optimizeWindowSize_total_witness :
  BruteForce.optimizeWindowSize 1 2 0 = 1.
Proof.
  apply (proj1 optimizeWindowSize_total 1 2 0); [lia|].
  intros w Hw [_ H]. assert (w = 1) as -> by lia.
  vm_compute in H. discriminate H.
Defined.

(** ** Position table *)

(** An input the document rules out: fewer than two items, or a
    non-positive total length or extent. *)
Definition invalid_input (totalImages : Z) (totalLength sliceThickness : Q)
    : Prop :=
  totalImages < 2 \/ (totalLength <= 0)%Q \/ (sliceThickness <= 0)%Q.

(** C8, as stated, fails: [getSlicePositions] has no check and raises
    nothing; for a total length of zero, and for a single item, it returns
    a table. *)
Lemma getSlicePositions_accepts_invalid_input :
  (invalid_input 3 0 1 /\ Obj.keys (PositionAware.getSlicePositions 3 0 1) = [1; 2; 3])
  /\
  (invalid_input 1 5 1 /\ Obj.keys (PositionAware.getSlicePositions 1 5 1) = [1]).
Proof.
  split; (split; [|reflexivity]).
  - right. left. discriminate.
  - left. lia.
Qed.

(** C8, amended: position table construction checks nothing and never
    fails: for every item count, total length and extent, those with item
    count < 2 or a non-positive length or extent included, it returns the
    table whose keys are 1, ..., itemCount (none when itemCount <= 0), every
    entry with the given extent. *)
Theorem getSlicePositions_total totalImages totalLength sliceThickness :
  Obj.keys (PositionAware.getSlicePositions totalImages totalLength sliceThickness)
    = range 1 (Z.to_nat totalImages) /\
  Forall (fun kv => Position.thickness_mm (snd kv) = sliceThickness)
    (PositionAware.getSlicePositions totalImages totalLength sliceThickness).
Proof.
  rewrite getSlicePositions_eq. split; [apply slice_table_keys|].
  unfold slice_table. apply Forall_forall. intros kv H.
  apply in_map_iff in H. destruct H as [i [<- _]]. reflexivity.
Qed.

(** C9, as stated, fails: the centre offset decreases with the index; in
    the table of three items over a length of 2 the second centre lies
    below the first. *)
Lemma getSlicePositions_not_increasing :
  exists p q,
    Obj.get (PositionAware.getSlicePositions 3 2 1) 1 = Some p /\
    Obj.get (PositionAware.getSlicePositions 3 2 1) 2 = Some q /\
    (Position.rel_center_mm q < Position.rel_center_mm p)%Q.
Proof.
  eexists. eexists. split; [reflexivity|]. split; [reflexivity|]. reflexivity.
Qed.

(** C9, amended: for every table built from item count >= 2 and total
    length > 0, consecutive positions are totalLength/(itemCount-1) apart,
    and the centre offset decreases strictly with the index: the position at
    index i+1 has a strictly smaller centre offset than the one at index
    i. *)
Theorem getSlicePositions_evenly_decreasing
    totalImages totalLength sliceThickness i :
  2 <= totalImages -> (0 < totalLength)%Q -> 1 <= i < totalImages ->
  exists p q,
    Obj.get (PositionAware.getSlicePositions totalImages totalLength sliceThickness) i
      = Some p /\
    Obj.get (PositionAware.getSlicePositions totalImages totalLength sliceThickness)
      (i + 1) = Some q /\
    (Position.rel_center_mm p - Position.rel_center_mm q
     == totalLength / inject_Z (totalImages - 1))%Q /\
    (Position.rel_center_mm q < Position.rel_center_mm p)%Q.
Proof.
  intros Hn Hl Hi. rewrite getSlicePositions_eq.
  do 2 eexists.
  split; [apply slice_table_get; lia|].
  split; [apply slice_table_get; lia|].
  cbn [slice_at Position.rel_center_mm].
  set (s := (totalLength / inject_Z (totalImages - 1))%Q).
  assert (Hs : (0 < s)%Q).
  { unfold s, Qdiv. apply Qmult_lt_0_compat; [exact Hl|].
    apply Qinv_lt_0_compat. rewrite <- (Zlt_Qlt 0). lia. }
  assert (E : (inject_Z (totalImages - i) * s
               - inject_Z (totalImages - (i + 1)) * s == s)%Q).
  { unfold Z.sub. rewrite !inject_Z_plus, !inject_Z_opp, inject_Z_plus.
    change (inject_Z 1) with 1%Q. ring. }
  split; [exact E|]. lra.
Qed.

Lemma getSlicePositions_evenly_decreasing_witness :
  exists p q,
    Obj.get (PositionAware.getSlicePositions 3 2 1) 2 = Some p /\
    Obj.get (PositionAware.getSlicePositions 3 2 1) (2 + 1) = Some q /\
    (Position.rel_center_mm p - Position.rel_center_mm q == 2 / inject_Z (3 - 1))%Q /\
    (Position.rel_center_mm q < Position.rel_center_mm p)%Q.
Proof.
  apply (getSlicePositions_evenly_decreasing 3 2 1 2); [lia | reflexivity | lia].
Defined.

(** ** Greedy generator *)

(** C2, evaluated where it fails: three items one unit apart, extent 1,
    target span 100.  No window from the first position comes closer than
    97 percent to the target, which is beyond the tolerance of 1 percent,
    and the window is emitted all the same; with a target step of 100 as
    well the call ends in a [TypeError]. *)
Lemma get_windows_first_window_unchecked :
  (exists w e,
     get_windows (getSlicePositions 3 2 1) 100 1 = Ok [w] /\
     Window.error (Entry.window w) = Fin e /\
     (e == 97)%Q /\
     num_ltb (Fin 1) (Window.error (Entry.window w)) = true)
  /\ get_windows (getSlicePositions 3 2 1) 100 100 = TypeError.
Proof.
  split; [|reflexivity].
  do 2 eexists. split; [vm_compute; reflexivity|].
  split; [reflexivity|]. split; reflexivity.
Qed.

(** A sample run: ten items one unit apart, extent 1, target span 3,
    target step 2; it returns the four windows 1-3, 3-5, 5-7 and 7-9. *)
Definition example_run : list Entry.t :=
  Eval vm_compute in
    match get_windows (getSlicePositions 10 9 1) 3 2 with
    | Ok ws => ws
    | _ => []
    end.

(** C3: for every position table and every pair of targets, the generator
    terminates within itemCount passes of its loop (itemCount being the
    number of entries of the table): with fuel for that many passes the call
    ends, in a window list or in a [TypeError], and more fuel leaves the
    outcome unchanged; a returned list holds at most itemCount windows; each
    pass that does not stop moves the start index to a strictly larger one
    (the step of every window points past its start, the next window starts
    there), whatever the target step is. *)
Theorem get_windows_terminates (slicePositions : table) (x0 x1 : Q) :
  ((exists ws, get_windows slicePositions x0 x1 = Ok ws) \/
   get_windows slicePositions x0 x1 = TypeError) /\
  (forall fuel, (length slicePositions <= fuel)%nat ->
     get_windows_fuel slicePositions x0 x1 fuel
     = get_windows slicePositions x0 x1) /\
  (forall ws, get_windows slicePositions x0 x1 = Ok ws ->
     (length ws <= length slicePositions)%nat /\
     Forall (fun w => w_start w < w_next w) ws /\
     (forall i a b,
        nth_error ws i = Some a -> nth_error ws (S i) = Some b ->
        w_start b = w_next a) /\
     StronglySorted (fun a b => w_start a < w_start b) ws).
Proof.
  split; [|split].
  - pose proof (get_windows_fuel_enough slicePositions x0 x1
                  (length slicePositions) (Nat.le_refl _)) as [Hne _].
    fold (get_windows slicePositions x0 x1) in Hne.
    destruct (get_windows slicePositions x0 x1) as [ws| |];
      [left; eauto | now right | now contradiction Hne].
  - intros fuel Hf. now apply get_windows_fuel_enough.
  - intros ws H. split; [|split; [|split]].
    + apply get_windows_fuel_Ok in H.
      destruct H as (k & e & e1 & c & n & e2 & d & first & more
                     & Hk & Ha & Hs & Hw & Hr & ->).
      apply run_length in Hr.
      apply NearestFacts.nearest_future, NearestFacts.future_shrinks in Hs.
      pose proof (NearestFacts.future_length slicePositions k).
      cbn [length]. lia.
    + apply get_windows_chained in H. destruct H as (k & d & _ & _ & Hc).
      clear - Hc. revert k Hc.
      induction ws as [|w r IH]; intros k Hc; [constructor|].
      destruct Hc as [Hf Hr]. constructor.
      * destruct Hf as (-> & _ & _ & Hn & _). exact Hn.
      * exact (IH _ Hr).
    + apply get_windows_chained in H. destruct H as (k & d & _ & _ & Hc).
      exact (chained_linked _ _ _ _ Hc).
    + apply get_windows_chained in H. destruct H as (k & d & _ & _ & Hc).
      exact (chained_sorted _ _ _ _ Hc).
Qed.

Lemma get_windows_terminates_witness :
  (length example_run <= length (getSlicePositions 10 9 1))%nat /\
  Forall (fun w => w_start w < w_next w) example_run /\
  (forall i a b,
     nth_error example_run i = Some a -> nth_error example_run (S i) = Some b ->
     w_start b = w_next a) /\
  StronglySorted (fun a b => w_start a < w_start b) example_run.
Proof.
  apply (proj2 (proj2 (get_windows_terminates (getSlicePositions 10 9 1) 3 2))
           example_run).
  vm_compute. reflexivity.
Defined.

(** ** Window bounds and order *)

(** C6, as stated, fails: the index-based path counts from 0; for twenty
    items, four windows and 25 percent overlap its first window starts at
    index 0. *)
Lemma calculateWindows_starts_at_zero :
  exists w ws,
    IndexBased.calculateWindows 20 4 25 1 = w :: ws /\
    IndexBased.start w = 0 /\
    ~ 1 <= IndexBased.start w.
Proof.
  eexists. eexists. split; [vm_compute; reflexivity|]. cbn. split; lia.
Qed.

(** C6, amended: every window of the index-based path satisfies
    0 <= start <= end <= itemCount - 1 (indices count from 0) for every
    overlap below 100 percent; every window of a sequence the greedy path
    returns satisfies 1 <= start < end <= itemCount; and in both paths the
    list is strictly ordered by start. *)
Theorem windows_bounded_and_ordered (totalImages : Z) :
  (forall numWindows overlapPercent sliceInterval,
     overlapPercent < 100 ->
     Forall (fun w => 0 <= IndexBased.start w /\
                      IndexBased.start w <= IndexBased.end_ w /\
                      IndexBased.end_ w <= totalImages - 1)
       (IndexBased.calculateWindows totalImages numWindows overlapPercent
          sliceInterval) /\
     StronglySorted (fun a b => IndexBased.start a < IndexBased.start b)
       (IndexBased.calculateWindows totalImages numWindows overlapPercent
          sliceInterval))
  /\
  (forall totalLength sliceThickness x0 x1 ws,
     get_windows (getSlicePositions totalImages totalLength sliceThickness)
       x0 x1 = Ok ws ->
     Forall (fun w => 1 <= w_start w /\ w_start w < w_end w /\
                      w_end w <= totalImages) ws /\
     StronglySorted (fun a b => w_start a < w_start b) ws).
Proof.
  split.
  - intros numWindows overlapPercent sliceInterval Hp.
    unfold IndexBased.calculateWindows.
    pose proof (IndexFacts.optimizeWindowSize_range
                  totalImages numWindows overlapPercent) as Hw.
    destruct (IndexFacts.push_windows_spec totalImages sliceInterval
                (BruteForce.optimizeWindowSize totalImages numWindows overlapPercent)
                (BruteForce.optimizeWindowSize totalImages numWindows overlapPercent
                 - BruteForce.optimizeWindowSize totalImages numWindows overlapPercent
                   * overlapPercent / 100)
                (Z.to_nat numWindows) 0) as [Hall Hsort].
    + apply IndexFacts.stepSize_pos; lia.
    + lia.
    + lia.
    + split; [|exact Hsort].
      eapply Forall_impl; [|exact Hall]. cbn. intros a Ha. lia.
  - intros totalLength sliceThickness x0 x1 ws H.
    apply get_windows_chained in H. destruct H as (k & d & Hk & _ & Hc).
    split; [|exact (chained_sorted _ _ _ _ Hc)].
    rewrite getSlicePositions_eq in Hk, Hc.
    destruct (Z.to_nat totalImages) as [|n] eqn:En; [discriminate Hk|].
    rewrite slice_table_smallestKey in Hk. injection Hk as <-.
    eapply chained_bounds; [| |exact Hc]; [|lia].
    intros j Hj. rewrite slice_table_keys in Hj. apply range_In in Hj. lia.
Qed.

Lemma windows_bounded_and_ordered_witness :
  (Forall (fun w => 0 <= IndexBased.start w /\
                    IndexBased.start w <= IndexBased.end_ w /\
                    IndexBased.end_ w <= 10 - 1)
     (IndexBased.calculateWindows 10 4 25 1) /\
   StronglySorted (fun a b => IndexBased.start a < IndexBased.start b)
     (IndexBased.calculateWindows 10 4 25 1))
  /\
  (Forall (fun w => 1 <= w_start w /\ w_start w < w_end w /\ w_end w <= 10)
     example_run /\
   StronglySorted (fun a b => w_start a < w_start b) example_run).
Proof.
  split.
  - apply (proj1 (windows_bounded_and_ordered 10) 4 25 1%Q). lia.
  - apply (proj2 (windows_bounded_and_ordered 10) 9%Q 1%Q 3%Q 2%Q example_run).
    vm_compute. reflexivity.
Defined.

(** ** Mean step *)

(** C7 fails of the code.  Inside its loop [get_windows] takes only the
    key and the error from [get_asdf1], so every window records the step
    distance [d] of the first window, and [get_stats] divides the sum of
    these n copies by n.  On [getSlicePositions(11, 1, 1)] and
    x = [1.296875, 0.25], in binary64, the windows start at items 1, 4 and
    6: the starts are 0.3 and 0.2 apart, 0.25 in the mean, and the mean step
    reported is 0.29999999999999993, the distance of the first step. *)
Lemma get_stats_step_size_stale :
  exists ws stats,
    Rounded.get_windows Binary64.round
      (Rounded.getSlicePositions Binary64.round 11 1 1) (83 # 64) (1 # 4)
    = Ok ws /\
    map (fun w => w_start w) ws = [1; 4; 6] /\
    Forall (fun w =>
              (Step.distance_mm (Entry.step w)
               == 2702159776422297 # 9007199254740992)%Q) ws /\
    Rounded.get_stats Binary64.round
      (Rounded.getSlicePositions Binary64.round 11 1 1) ws
    = Ok stats /\
    (stats step_size == 2702159776422297 # 9007199254740992)%Q /\
    (mean (adjacent_start_distances ws) == 1 # 4)%Q /\
    ~ (stats step_size == mean (adjacent_start_distances ws))%Q.
Proof.
  eexists. eexists. split; [vm_compute; reflexivity|].
  split; [reflexivity|].
  split; [repeat constructor|].
  split; [vm_compute; reflexivity|].
  split; [reflexivity|]. split; [reflexivity|].
  intro H. vm_compute in H. discriminate H.
Qed.

(** ** Weights *)

(** C5: the normalised weights sum to 1, in the position-aware variant
    (three criteria) and in the Nelder-Mead variant (four criteria), for
    every supplied weight set, the non-negative ones in particular; and when
    every supplied weight is zero each criterion gets the uniform weight,
    1/3 and 1/4 respectively. *)
Theorem normalized_weights_sum_to_one :
  (forall a b c : Q,
     (PositionAware.weight_of
        (PositionAware.normalize_weights (PositionAware.raw_weights a b c))
        PositionAware.window_coverage
      + PositionAware.weight_of
          (PositionAware.normalize_weights (PositionAware.raw_weights a b c))
          PositionAware.step_size
      + PositionAware.weight_of
          (PositionAware.normalize_weights (PositionAware.raw_weights a b c))
          PositionAware.total_coverage
      == 1)%Q /\
     ((a == 0)%Q -> (b == 0)%Q -> (c == 0)%Q ->
      forall k,
        (PositionAware.weight_of
           (PositionAware.normalize_weights (PositionAware.raw_weights a b c)) k
         == 1 # 3)%Q))
  /\
  (forall weights : NelderMead.object,
     (NelderMead.normalize_weights weights NelderMead.window_length
      + NelderMead.normalize_weights weights NelderMead.window_number
      + NelderMead.normalize_weights weights NelderMead.step_or_overlap
      + NelderMead.normalize_weights weights NelderMead.percentage
      == 1)%Q /\
     ((forall k, (weights k == 0)%Q) ->
      forall k, (NelderMead.normalize_weights weights k == 1 # 4)%Q)).
Proof.
  split.
  - intros a b c.
    unfold PositionAware.normalize_weights, PositionAware.raw_weights.
    cbn [map fold_left snd fst length].
    destruct (Qeq_bool (0 + a + b + c) 0) eqn:E.
    + split; [reflexivity|]. intros _ _ _ k. destruct k; reflexivity.
    + apply Qeq_bool_neq in E. split.
      * unfold PositionAware.weight_of.
        cbn [find PositionAware.criterion_eqb fst snd]. field.
        intro H. apply E. lra.
      * intros Ha Hb Hc. exfalso. apply E. rewrite Ha, Hb, Hc. reflexivity.
  - intro weights. unfold NelderMead.normalize_weights, NelderMead.keys.
    cbn [fold_left].
    set (wsum := (0 + NelderMead.or_else (weights NelderMead.window_length) 0
                  + NelderMead.or_else (weights NelderMead.window_number) 0
                  + NelderMead.or_else (weights NelderMead.step_or_overlap) 0
                  + NelderMead.or_else (weights NelderMead.percentage) 0)%Q).
    destruct (Qeq_bool wsum 0) eqn:E.
    + split; [reflexivity|]. intros _ k. destruct k; reflexivity.
    + apply Qeq_bool_neq in E. split.
      * unfold NelderMead.set. cbn [NelderMead.key_eqb].
        unfold wsum in *. field.
        intro H. apply E. lra.
      * intros Hz. exfalso. apply E. unfold wsum.
        rewrite !or_else_zero, !Hz. reflexivity.
Qed.

Lemma normalized_weights_sum_to_one_witness :
  (NelderMead.normalize_weights (fun _ => 0%Q) NelderMead.percentage
   == 1 # 4)%Q
  /\
  (PositionAware.weight_of
     (PositionAware.normalize_weights (PositionAware.raw_weights 0 0 0))
     PositionAware.step_size
   == 1 # 3)%Q.
Proof.
  split.
  - apply (proj2 (proj2 normalized_weights_sum_to_one (fun _ => 0%Q))).
    intro k. reflexivity.
  - apply (proj2 (proj1 normalized_weights_sum_to_one 0%Q 0%Q 0%Q));
      reflexivity.
Defined.

(** ** Cost *)

(** C4, as stated, fails in both evaluators.  The position-aware one
    returns the weighted sum of the relative errors in percent: for an
    observed coverage of 20 against a target of 10 (the other two on
    target, uniform weights) it returns 100/3, the smoothed sum being 1/6.
    [objectiveFunction] returns a hundred times the smoothed sum: 769/288
    against 769/28800 for windows of 5 and steps of 3 over ten items. *)
Lemma cost_is_not_smoothed_sum :
  ((PositionAware.sum
      (PositionAware.get_costs
         (PositionAware.object3 (1 # 3) (1 # 3) (1 # 3))
         (PositionAware.get_errors (PositionAware.object3 10 10 10)
            (PositionAware.object3 20 10 10)))
    == 100 # 3)%Q /\
   (huber_cost
      [PositionAware.total_coverage; PositionAware.window_coverage;
       PositionAware.step_size]
      (PositionAware.object3 (1 # 3) (1 # 3) (1 # 3))
      (PositionAware.object3 20 10 10)
      (PositionAware.object3 10 10 10)
      (fun _ => 1 # 1000)
    == 1 # 6)%Q /\
   ~ (100 # 3 == 1 # 6)%Q)
  /\
  ((NelderMead.objectiveFunction 10
      (fun k => match k with
                | NelderMead.window_length => 4
                | NelderMead.window_number => 3
                | NelderMead.step_or_overlap => 3
                | NelderMead.percentage => 100
                end)
      1 (fun _ => 1 # 4) (NelderMead.mkParams 5 0 3 0)
    == 769 # 288)%Q /\
   (huber_cost NelderMead.keys (fun _ => 1 # 4)
      (observed 10 1 (NelderMead.mkParams 5 0 3 0))
      (fun k => match k with
                | NelderMead.window_length => 4
                | NelderMead.window_number => 3
                | NelderMead.step_or_overlap => 3
                | NelderMead.percentage => 100
                end)
      (fun k => match k with
                | NelderMead.window_number => 2
                | _ => 1
                end)
    == 769 # 28800)%Q /\
   ~ (769 # 288 == 769 # 28800)%Q).
Proof.
  repeat split; try (vm_compute; reflexivity);
    intro H; vm_compute in H; discriminate H.
Qed.

(** C4, amended: for every candidate parameter vector, targets and
    weights, with a positive slice interval, [objectiveFunction] returns the
    fixed value 1000 for a candidate with fewer than two windows or a last
    window past the sequence, and otherwise 100 times the sum of the
    weighted smoothed errors h(e) and of a penalty (5 when the step in items
    is not below the window in items, else 0), where
    e = |observed - target| / scale, scale is the code's [scale] (the target,
    or a default when the target is zero, and at least a positive floor) and
    h(e) = 0.5*e^2 when e < 1 and e - 0.5 otherwise; for targets other
    than zero, the cost of the position-aware evaluator is the weighted sum
    of the relative errors |observed - target| / target in percent, without
    smoothing. *)
Theorem cost_evaluators :
  (forall totalImages targets sliceInterval weights p,
     (0 < sliceInterval)%Q ->
     (candidate_ok totalImages sliceInterval p ->
      (NelderMead.objectiveFunction totalImages targets sliceInterval weights p
       == 100 * (smoothed_cost NelderMead.keys weights
                   (observed totalImages sliceInterval p) targets
                   (NelderMead.scale targets sliceInterval)
                 + penalty totalImages sliceInterval p))%Q) /\
     (~ candidate_ok totalImages sliceInterval p ->
      NelderMead.objectiveFunction totalImages targets sliceInterval weights p
      = 1000%Q))
  /\
  (forall targets weights stats,
     (forall k, ~ (targets k == 0)%Q) ->
     (PositionAware.sum
        (PositionAware.get_costs weights
           (PositionAware.get_errors targets stats))
      == percent_cost
           [PositionAware.total_coverage; PositionAware.window_coverage;
            PositionAware.step_size]
           weights stats targets)%Q).
Proof.
  split.
  - intros totalImages targets sliceInterval weights p Hsi. split.
    + now apply objectiveFunction_scores.
    + apply objectiveFunction_rejects.
  - intros targets weights stats _. apply get_cost_sum_percent.
Qed.

Lemma cost_evaluators_witness :
  (NelderMead.objectiveFunction 10
     (fun k => match k with
               | NelderMead.window_length => 4
               | NelderMead.window_number => 3
               | NelderMead.step_or_overlap => 3
               | NelderMead.percentage => 100
               end)
     1 (fun _ => 1 # 4) (NelderMead.mkParams 5 0 3 0)
   == 100 * (smoothed_cost NelderMead.keys (fun _ => 1 # 4)
               (observed 10 1 (NelderMead.mkParams 5 0 3 0))
               (fun k => match k with
                         | NelderMead.window_length => 4
                         | NelderMead.window_number => 3
                         | NelderMead.step_or_overlap => 3
                         | NelderMead.percentage => 100
                         end)
               (NelderMead.scale
                  (fun k => match k with
                            | NelderMead.window_length => 4
                            | NelderMead.window_number => 3
                            | NelderMead.step_or_overlap => 3
                            | NelderMead.percentage => 100
                            end) 1)
             + penalty 10 1 (NelderMead.mkParams 5 0 3 0)))%Q
  /\
  (PositionAware.sum
     (PositionAware.get_costs
        (PositionAware.object3 (1 # 3) (1 # 3) (1 # 3))
        (PositionAware.get_errors (PositionAware.object3 10 10 10)
           (PositionAware.object3 20 10 10)))
   == percent_cost
        [PositionAware.total_coverage; PositionAware.window_coverage;
         PositionAware.step_size]
        (PositionAware.object3 (1 # 3) (1 # 3) (1 # 3))
        (PositionAware.object3 20 10 10)
        (PositionAware.object3 10 10 10))%Q.
Proof.
  split.
  - apply (proj1 cost_evaluators 10 _ 1%Q (fun _ => 1 # 4)%Q
             (NelderMead.mkParams 5 0 3 0)).
    + reflexivity.
    + split; vm_compute; [discriminate | reflexivity].
  - apply (proj2 cost_evaluators (PositionAware.object3 10 10 10)).
    intros k H. destruct k; vm_compute in H; discriminate H.
Defined.

End Claims.

(** * Further properties of the code *)

(** ** The search for overlaps below and above 100 percent *)

Module SearchFacts.

Section Search.
Variables totalImages numWindows overlapPercent : Z.

Abbreviation stepSize := (BruteForce.stepSize overlapPercent).
Abbreviation lastWindowEnd := (BruteForce.lastWindowEnd numWindows overlapPercent).
Abbreviation coverage :=
  (BruteForce.coverage totalImages numWindows overlapPercent).
Abbreviation feasible :=
  (BruteForce.feasible totalImages numWindows overlapPercent).

(** Below 100 percent the step is positive and does not shrink as the
    window grows. *)
Lemma stepSize_mono a b :
  overlapPercent < 100 -> 1 <= a <= b ->
  1 <= stepSize a <= stepSize b.
Proof.
  intros Hp Hab. unfold BruteForce.stepSize, BruteForce.overlapSize.
  pose proof (Z.div_mod (a * overlapPercent) 100 ltac:(lia)) as Ea.
  pose proof (Z.mod_pos_bound (a * overlapPercent) 100 ltac:(lia)) as Ba.
  pose proof (Z.div_mod (b * overlapPercent) 100 ltac:(lia)) as Eb.
  pose proof (Z.mod_pos_bound (b * overlapPercent) 100 ltac:(lia)) as Bb.
  nia.
Qed.

Lemma lastWindowEnd_mono a b :
  overlapPercent < 100 -> 1 <= numWindows -> 1 <= a -> a < b ->
  lastWindowEnd a < lastWindowEnd b.
Proof.
  intros Hp Hk Ha Hab.
  pose proof (stepSize_mono a b Hp ltac:(lia)) as H.
  unfold BruteForce.lastWindowEnd, BruteForce.lastWindowStart. nia.
Qed.

Lemma feasible_coverage a :
  feasible a -> coverage a = lastWindowEnd a + 1.
Proof. intros [_ H]. unfold BruteForce.coverage. lia. Qed.

(** From 100 percent on no size has a positive step. *)
Lemma stepSize_nonpos a :
  100 <= overlapPercent -> 1 <= a -> stepSize a <= 0.
Proof.
  intros Hp Ha. unfold BruteForce.stepSize, BruteForce.overlapSize.
  assert (a <= a * overlapPercent / 100)
    by (apply Z.div_le_lower_bound; nia).
  lia.
Qed.

(** With a candidate present the search ends on a candidate of greatest
    coverage. *)
Lemma search_result :
  1 <= totalImages -> 1 <= numWindows ->
  (exists w, 1 <= w <= totalImages /\ feasible w) ->
  let r := BruteForce.optimizeWindowSize totalImages numWindows overlapPercent in
  1 <= r <= totalImages /\ feasible r /\
  forall w, 1 <= w <= totalImages -> feasible w -> coverage w <= coverage r.
Proof.
  intros Hn Hk [w0 [Hw0 Hf0]] r. unfold r, BruteForce.optimizeWindowSize.
  assert (H0 : BruteForceFacts.scanned totalImages numWindows overlapPercent
                 1 (BruteForce.mkBest 1 0))
    by (apply BruteForceFacts.scanned_none; [reflexivity | intros c Hc; lia]).
  pose proof (BruteForceFacts.for_loop_scanned totalImages numWindows
                overlapPercent (Z.to_nat totalImages) 1 (BruteForce.mkBest 1 0)
                ltac:(lia) Hk ltac:(lia) H0) as H.
  rewrite Z2Nat.id in H by lia.
  destruct H as [Hi Hno | Hb Hf Hc Hmax].
  - exfalso. apply (Hno w0); [lia | exact Hf0].
  - split; [lia|]. split; [exact Hf|].
    intros w Hw Hfw. apply Hmax; [lia | exact Hfw].
Qed.

Lemma search_default :
  (forall w, 1 <= w <= totalImages -> ~ feasible w) ->
  BruteForce.optimizeWindowSize totalImages numWindows overlapPercent = 1.
Proof.
  intro Hno. unfold BruteForce.optimizeWindowSize.
  rewrite BruteForceFacts.for_loop_keep; [reflexivity|].
  intros c Hc. apply Hno. lia.
Qed.

End Search.

Lemma search_single totalImages overlapPercent :
  overlapPercent < 100 -> 1 <= totalImages ->
  BruteForce.optimizeWindowSize totalImages 1 overlapPercent = totalImages.
Proof.
  intros Hp Hn.
  assert (Hall : forall c, 1 <= c <= totalImages ->
                   BruteForce.feasible totalImages 1 overlapPercent c).
  { intros c Hc. split.
    - pose proof (stepSize_mono overlapPercent c c Hp ltac:(lia)). lia.
    - unfold BruteForce.lastWindowEnd, BruteForce.lastWindowStart. lia. }
  destruct (search_result totalImages 1 overlapPercent Hn ltac:(lia))
    as (Hr & Hfr & Hmax).
  { exists 1. split; [lia|]. apply Hall. lia. }
  specialize (Hmax totalImages ltac:(lia) (Hall totalImages ltac:(lia))).
  rewrite !feasible_coverage in Hmax by (apply Hall; lia).
  unfold BruteForce.lastWindowEnd, BruteForce.lastWindowStart in Hmax. lia.
Qed.

End SearchFacts.

Module SearchTheorems.
Import SearchFacts.

(** X1: for an overlap below 100 percent, at least one window and one
    item, and some size that fits, the size [optimizeWindowSize] returns is
    the largest that fits: a size in [1, totalImages] keeps its last window
    inside the sequence exactly when it is at most the returned size. *)
Theorem optimizeWindowSize_largest_fit
    totalImages numWindows overlapPercent w :
  overlapPercent < 100 -> 1 <= totalImages -> 1 <= numWindows ->
  (exists c, 1 <= c <= totalImages /\
             BruteForce.feasible totalImages numWindows overlapPercent c) ->
  1 <= w <= totalImages ->
  (BruteForce.feasible totalImages numWindows overlapPercent w <->
   w <= BruteForce.optimizeWindowSize totalImages numWindows overlapPercent).
Proof.
  intros Hp Hn Hk Hex Hw.
  destruct (search_result totalImages numWindows overlapPercent Hn Hk Hex)
    as (Hr & Hfr & Hmax).
  set (r := BruteForce.optimizeWindowSize totalImages numWindows overlapPercent)
    in *.
  split.
  - intro Hf. apply Z.nlt_ge. intro Hlt.
    specialize (Hmax w Hw Hf).
    rewrite !feasible_coverage in Hmax by assumption.
    pose proof (lastWindowEnd_mono numWindows overlapPercent r w Hp Hk
                  ltac:(lia) Hlt). lia.
  - intro Hle. destruct Hfr as [_ Hend]. split.
    + pose proof (stepSize_mono overlapPercent w w Hp ltac:(lia)). lia.
    + destruct (Z.eq_dec w r) as [->|Hne]; [exact Hend|].
      pose proof (lastWindowEnd_mono numWindows overlapPercent w r Hp Hk
                    ltac:(lia) ltac:(lia)). lia.
Qed.

Lemma optimizeWindowSize_largest_fit_witness :
  BruteForce.feasible 20 4 25 5 <-> 5 <= BruteForce.optimizeWindowSize 20 4 25.
Proof.
  apply (optimizeWindowSize_largest_fit 20 4 25 5); try lia.
  exists 1. split; [lia|]. split; reflexivity.
Defined.

(** X2: with a single window and an overlap below 100 percent the search
    returns the whole sequence: [optimizeWindowSize(n, 1, p) = n]. *)
Theorem optimizeWindowSize_single_window totalImages overlapPercent :
  overlapPercent < 100 -> 1 <= totalImages ->
  BruteForce.optimizeWindowSize totalImages 1 overlapPercent = totalImages.
Proof. exact (search_single totalImages overlapPercent). Qed.

Lemma optimizeWindowSize_single_window_witness :
  BruteForce.optimizeWindowSize 12 1 30 = 12.
Proof. apply optimizeWindowSize_single_window; lia. Defined.

(** X3: from an overlap of 100 percent on, every size has a step of zero
    or less and is skipped, so the search returns its initial size 1
    whatever the item and window counts are. *)
Theorem optimizeWindowSize_full_overlap totalImages numWindows overlapPercent :
  100 <= overlapPercent ->
  BruteForce.optimizeWindowSize totalImages numWindows overlapPercent = 1.
Proof.
  intro Hp. apply search_default. intros w Hw [Hs _].
  pose proof (stepSize_nonpos overlapPercent w Hp ltac:(lia)). lia.
Qed.

Lemma optimizeWindowSize_full_overlap_witness :
  BruteForce.optimizeWindowSize 50 3 100 = 1.
Proof. apply optimizeWindowSize_full_overlap. lia. Defined.

End SearchTheorems.

(** ** The window loop of [calculateWindows] *)

Module LoopFacts.
Import IndexBased TableFacts.

Section Windows.
Variables totalImages : Z.
Variable sliceInterval : Q.
Variables windowSize stepSize : Z.

Abbreviation push := (push_windows totalImages sliceInterval windowSize stepSize).

(** The window the loop pushes at the index [i]. *)
Definition window_at (i : Z) : window :=
  let start := i * stepSize in
  let end_ := Z.min (start + windowSize - 1) (totalImages - 1) in
  let centerIndex :=
    (inject_Z start
     + (inject_Z (Z.min windowSize (totalImages - start)) - 1) / 2)%Q in
  mkWindow start end_ centerIndex (centerIndex * sliceInterval)%Q.

(** Without a [break] the loop pushes one window per index. *)
Lemma push_windows_all n : forall i,
  (forall j, i <= j < i + Z.of_nat n -> j * stepSize < totalImages) ->
  push n i [] = map window_at (range i n).
Proof.
  induction n as [|n IH]; intros i H; [reflexivity|].
  cbn [push_windows range map].
  replace (i * stepSize >=? totalImages) with false
    by (symmetry; rewrite Z.geb_leb; apply Z.leb_gt; apply H; lia).
  rewrite IndexFacts.push_windows_acc. cbn [app]. f_equal.
  apply IH. intros j Hj. apply H. lia.
Qed.

(** At the [break] the loop stops. *)
Lemma push_windows_break n i :
  totalImages <= i * stepSize -> push n i [] = [].
Proof.
  intro H. destruct n as [|n]; [reflexivity|]. cbn [push_windows].
  replace (i * stepSize >=? totalImages) with true
    by (symmetry; rewrite Z.geb_leb; apply Z.leb_le; exact H).
  reflexivity.
Qed.

Lemma push_windows_split n m : forall i,
  (forall j, i <= j < i + Z.of_nat n -> j * stepSize < totalImages) ->
  totalImages <= (i + Z.of_nat n) * stepSize ->
  push (n + m) i [] = map window_at (range i n).
Proof.
  induction n as [|n IH]; intros i H Hb.
  - cbn [Nat.add range map]. apply push_windows_break.
    now replace (i + Z.of_nat 0) with i in Hb by lia.
  - cbn [Nat.add push_windows range map].
    replace (i * stepSize >=? totalImages) with false
      by (symmetry; rewrite Z.geb_leb; apply Z.leb_gt; apply H; lia).
    rewrite IndexFacts.push_windows_acc. cbn [app]. f_equal.
    apply IH.
    + intros j Hj. apply H. lia.
    + now replace (i + 1 + Z.of_nat n) with (i + Z.of_nat (S n)) by lia.
Qed.

Lemma push_windows_length n : forall i,
  (length (push n i []) <= n)%nat.
Proof.
  induction n as [|n IH]; intro i; cbn [push_windows]; [cbn; lia|].
  destruct (i * stepSize >=? totalImages); [cbn; lia|].
  rewrite IndexFacts.push_windows_acc. cbn [app length].
  specialize (IH (i + 1)). lia.
Qed.

Lemma push_windows_In n : forall i w,
  In w (push n i []) -> exists j, w = window_at j.
Proof.
  induction n as [|n IH]; intros i w; cbn [push_windows]; [intros []|].
  destruct (i * stepSize >=? totalImages); [intros []|].
  rewrite IndexFacts.push_windows_acc. cbn [app].
  intros [<-|H]; [now exists i | exact (IH _ _ H)].
Qed.

Lemma push_windows_empty n i :
  push n i [] = [] -> n = O \/ totalImages <= i * stepSize.
Proof.
  destruct n as [|n]; [auto|]. cbn [push_windows].
  destruct (i * stepSize >=? totalImages) eqn:E.
  - intros _. right. rewrite Z.geb_leb in E. now apply Z.leb_le in E.
  - rewrite IndexFacts.push_windows_acc. discriminate.
Qed.

(** The centre of a window is the midpoint of its two ends. *)
Lemma window_at_center i :
  (center (window_at i)
   == (inject_Z (start (window_at i)) + inject_Z (end_ (window_at i))) / 2)%Q.
Proof.
  unfold window_at. cbn [center start end_].
  assert (E : Z.min (i * stepSize + windowSize - 1) (totalImages - 1)
              = i * stepSize + Z.min windowSize (totalImages - i * stepSize) - 1)
    by lia.
  rewrite E. unfold Z.sub. rewrite !inject_Z_plus, !inject_Z_opp.
  change (inject_Z 1) with 1%Q. field.
Qed.

End Windows.

Lemma range_length lo n : length (range lo n) = n.
Proof.
  revert lo. induction n as [|n IH]; intro lo; cbn; [reflexivity|].
  now rewrite IH.
Qed.

Lemma range_nth lo n i :
  (i < n)%nat -> nth_error (range lo n) i = Some (lo + Z.of_nat i).
Proof.
  revert lo i. induction n as [|n IH]; intros lo i H; [lia|].
  destruct i as [|i]; cbn [range nth_error].
  - f_equal. lia.
  - rewrite IH by lia. f_equal. lia.
Qed.

End LoopFacts.

(** ** Windows and statistics of the index-based variant *)

Module DisplayFacts.
Import IndexBased TableFacts LoopFacts Display.

Lemma adjacent_map {A B} (f : A -> B) (l : list A) :
  adjacent (map f l) = map (fun p => (f (fst p), f (snd p))) (adjacent l).
Proof.
  induction l as [|a [|b r] IH]; try reflexivity.
  change (adjacent (map f (a :: b :: r)))
    with ((f a, f b) :: adjacent (map f (b :: r))).
  rewrite IH. reflexivity.
Qed.

Lemma adjacent_range lo n :
  adjacent (range lo n) = map (fun i => (i, i + 1)) (range lo (n - 1)).
Proof.
  revert lo. induction n as [|n IH]; intro lo; [reflexivity|].
  destruct n as [|n]; [reflexivity|].
  change (adjacent (range lo (S (S n))))
    with ((lo, lo + 1) :: adjacent (range (lo + 1) (S n))).
  rewrite IH. cbn [Nat.sub]. rewrite Nat.sub_0_r. reflexivity.
Qed.

Lemma range_nth_inv lo n i j :
  nth_error (range lo n) i = Some j -> (i < n)%nat /\ j = lo + Z.of_nat i.
Proof.
  intro H.
  assert (Hi : (i < n)%nat).
  { rewrite <- (range_length lo n). apply nth_error_Some. congruence. }
  split; [exact Hi|]. rewrite range_nth in H by exact Hi. congruence.
Qed.

Lemma calculate_stats_TypeError totalImages windowSize windows :
  calculate_stats totalImages windowSize windows = TypeError <-> windows = [].
Proof.
  unfold calculate_stats. split.
  - destruct windows as [|w r]; [reflexivity|]. intro H. exfalso.
    destruct (nth_error (w :: r) (length (w :: r) - 1)) eqn:E.
    + cbn in H. discriminate H.
    + apply nth_error_None in E. cbn [length] in E. lia.
  - intros ->. reflexivity.
Qed.

Section Fit.
Variables totalImages numWindows overlapPercent : Z.
Variable sliceInterval : Q.

Abbreviation size :=
  (BruteForce.optimizeWindowSize totalImages numWindows overlapPercent).
Abbreviation step := (BruteForce.stepSize overlapPercent size).
Abbreviation at_ := (window_at totalImages sliceInterval size step).

(** With a size that fits, the loop never breaks and clips no window. *)
Lemma calculateWindows_fit :
  1 <= numWindows -> 1 <= size ->
  BruteForce.feasible totalImages numWindows overlapPercent size ->
  calculateWindows totalImages numWindows overlapPercent sliceInterval
  = map at_ (range 0 (Z.to_nat numWindows)) /\
  forall i, 0 <= i < numWindows ->
    start (at_ i) = i * step /\ end_ (at_ i) = i * step + size - 1.
Proof.
  intros Hk Hw [Hs He].
  unfold BruteForce.lastWindowEnd, BruteForce.lastWindowStart in He.
  split.
  - unfold calculateWindows. apply push_windows_all.
    intros j Hj. fold step. nia.
  - intros i Hi. unfold window_at. cbn [start end_]. split; [reflexivity|].
    apply Z.min_l. nia.
Qed.

End Fit.

End DisplayFacts.

Module WindowTheorems.
Import IndexBased TableFacts LoopFacts Display DisplayFacts SearchFacts.

(** X4: when the size the search returns fits (at least one item and one
    window, some candidate size), [calculateWindows] of [index.js] produces
    exactly numWindows windows; the i-th starts at i * stepSize, holds
    windowSize items and ends inside the sequence: the loop never breaks and
    no window is clipped. *)
Theorem calculateWindows_full_layout
    totalImages numWindows overlapPercent sliceInterval :
  1 <= totalImages -> 1 <= numWindows ->
  (exists c, 1 <= c <= totalImages /\
             BruteForce.feasible totalImages numWindows overlapPercent c) ->
  length (calculateWindows totalImages numWindows overlapPercent sliceInterval)
    = Z.to_nat numWindows /\
  forall i w,
    nth_error
      (calculateWindows totalImages numWindows overlapPercent sliceInterval) i
      = Some w ->
    start w
      = Z.of_nat i
        * BruteForce.stepSize overlapPercent
            (BruteForce.optimizeWindowSize totalImages numWindows overlapPercent)
    /\
    end_ w
      = start w
        + BruteForce.optimizeWindowSize totalImages numWindows overlapPercent
        - 1 /\
    end_ w < totalImages.
Proof.
  intros Hn Hk Hex.
  destruct (search_result totalImages numWindows overlapPercent Hn Hk Hex)
    as (Hr & Hfr & _).
  destruct (calculateWindows_fit totalImages numWindows overlapPercent
              sliceInterval Hk ltac:(lia) Hfr) as [-> Hat].
  split; [now rewrite length_map, range_length|].
  intros i w Hw. rewrite nth_error_map in Hw.
  destruct (nth_error (range 0 (Z.to_nat numWindows)) i) as [j|] eqn:E;
    [|discriminate Hw].
  cbn in Hw. injection Hw as <-.
  apply range_nth_inv in E. destruct E as [Hi ->].
  destruct (Hat (0 + Z.of_nat i) ltac:(lia)) as [E1 E2].
  rewrite E1, E2. replace (0 + Z.of_nat i) with (Z.of_nat i) by lia.
  split; [reflexivity|]. split; [lia|].
  destruct Hfr as [Hs He].
  unfold BruteForce.lastWindowEnd, BruteForce.lastWindowStart in He. nia.
Qed.

Lemma calculateWindows_full_layout_witness :
  length (calculateWindows 20 4 25 1) = Z.to_nat 4 /\
  forall i w,
    nth_error (calculateWindows 20 4 25 1) i = Some w ->
    start w
      = Z.of_nat i
        * BruteForce.stepSize 25 (BruteForce.optimizeWindowSize 20 4 25) /\
    end_ w = start w + BruteForce.optimizeWindowSize 20 4 25 - 1 /\
    end_ w < 20.
Proof.
  apply (calculateWindows_full_layout 20 4 25 1%Q); try lia.
  exists 1. split; [lia|]. split; reflexivity.
Defined.

(** X5: for all inputs, the centre of every window that
    [calculateWindows] of [index.js] pushes is the midpoint of its start and
    end indices, a clipped last window included, and its centre in
    centimetres is that midpoint times the slice interval. *)
Theorem calculateWindows_center
    totalImages numWindows overlapPercent sliceInterval :
  Forall (fun w =>
            (center w == (inject_Z (start w) + inject_Z (end_ w)) / 2)%Q /\
            centercm w = (center w * sliceInterval)%Q)
    (calculateWindows totalImages numWindows overlapPercent sliceInterval).
Proof.
  apply Forall_forall. intros w Hw. unfold calculateWindows in Hw.
  apply push_windows_In in Hw. destruct Hw as [j ->].
  split; [apply window_at_center | reflexivity].
Qed.

(** X6: [calculateWindows] of [index.js] never returns more windows than
    asked for, and it returns none exactly when numWindows <= 0 or
    totalImages <= 0. *)
Theorem calculateWindows_count
    totalImages numWindows overlapPercent sliceInterval :
  (length (calculateWindows totalImages numWindows overlapPercent sliceInterval)
   <= Z.to_nat numWindows)%nat /\
  (calculateWindows totalImages numWindows overlapPercent sliceInterval = []
   <-> numWindows <= 0 \/ totalImages <= 0).
Proof.
  unfold calculateWindows. split; [apply push_windows_length|]. split.
  - intro H. apply push_windows_empty in H. lia.
  - intros [H|H].
    + replace (Z.to_nat numWindows) with O by lia. reflexivity.
    + apply push_windows_break. lia.
Qed.

(** X7: when more windows are asked for than there are items (overlap in
    [0, 100)), no size fits: the search falls back to size 1 with step 1,
    the loop breaks at the end of the sequence, and [calculateWindows]
    returns totalImages windows of one item each, the i-th at index i. *)
Theorem calculateWindows_more_windows_than_items
    totalImages numWindows overlapPercent sliceInterval :
  0 <= overlapPercent < 100 -> 1 <= totalImages < numWindows ->
  length (calculateWindows totalImages numWindows overlapPercent sliceInterval)
    = Z.to_nat totalImages /\
  forall i w,
    nth_error
      (calculateWindows totalImages numWindows overlapPercent sliceInterval) i
      = Some w ->
    start w = Z.of_nat i /\ end_ w = Z.of_nat i.
Proof.
  intros Hp Hn.
  assert (Hsize : BruteForce.optimizeWindowSize totalImages numWindows
                    overlapPercent = 1).
  { apply search_default. intros w Hw [Hs He].
    pose proof (stepSize_mono overlapPercent w w ltac:(lia) ltac:(lia)).
    unfold BruteForce.lastWindowEnd, BruteForce.lastWindowStart in He. nia. }
  unfold calculateWindows. rewrite Hsize.
  replace (1 * overlapPercent / 100) with 0
    by (symmetry; apply Z.div_small; lia).
  replace (Z.to_nat numWindows)
    with (Z.to_nat totalImages + Z.to_nat (numWindows - totalImages))%nat
    by lia.
  rewrite push_windows_split by lia.
  split; [now rewrite length_map, range_length|].
  intros i w Hw. rewrite nth_error_map in Hw.
  destruct (nth_error (range 0 (Z.to_nat totalImages)) i) as [j|] eqn:E;
    [|discriminate Hw].
  cbn in Hw. injection Hw as <-.
  apply range_nth_inv in E. destruct E as [Hi ->].
  unfold window_at. cbn [start end_]. lia.
Qed.

Lemma calculateWindows_more_windows_than_items_witness :
  length (calculateWindows 3 5 20 1) = Z.to_nat 3 /\
  forall i w,
    nth_error (calculateWindows 3 5 20 1) i = Some w ->
    start w = Z.of_nat i /\ end_ w = Z.of_nat i.
Proof.
  apply (calculateWindows_more_windows_than_items 3 5 20 1%Q); lia.
Defined.

End WindowTheorems.

Module StatsDisplayFacts.
Import IndexBased TableFacts LoopFacts Display DisplayFacts SearchFacts.

Lemma nth_error_last_map {B} (f : Z -> B) lo n :
  nth_error (map f (range lo (S n))) (length (map f (range lo (S n))) - 1)
  = Some (f (lo + Z.of_nat n)).
Proof.
  rewrite length_map, range_length, nth_error_map.
  replace (S n - 1)%nat with n by lia.
  rewrite range_nth by lia. reflexivity.
Qed.

Lemma inject_Z_nonzero z : z <> 0 -> ~ (inject_Z z == 0)%Q.
Proof. intros H E. apply H. now apply (inject_Z_injective z 0). Qed.

Lemma fold_left_over_map {A B C} (f : A -> C -> A) (g : B -> C) l : forall a,
  fold_left f (map g l) a = fold_left (fun a x => f a (g x)) l a.
Proof. induction l as [|x l IH]; intro a; cbn; [reflexivity | apply IH]. Qed.

(** The statistics of a list laid out without a break. *)
Lemma calculate_stats_layout totalImages sliceInterval windowSize stepSize n :
  calculate_stats totalImages windowSize
    (map (window_at totalImages sliceInterval windowSize stepSize)
       (range 0 (S n)))
  = Ok (mkStats
          (end_ (window_at totalImages sliceInterval windowSize stepSize
                   (Z.of_nat n)) + 1)
          (inject_Z (end_ (window_at totalImages sliceInterval windowSize
                             stepSize (Z.of_nat n)) + 1)
           / inject_Z totalImages * 100)
          (if Z.of_nat (S n) - 1 =? 0 then NaN
           else Fin
             (PositionAware.sum_over
                (fun i =>
                   inject_Z
                     (end_ (window_at totalImages sliceInterval windowSize
                              stepSize i) + 1
                      - start (window_at totalImages sliceInterval windowSize
                                 stepSize (i + 1)))
                   / inject_Z windowSize)%Q
                (range 0 n)
              / inject_Z (Z.of_nat (S n) - 1) * 100)%Q)).
Proof.
  unfold calculate_stats. rewrite nth_error_last_map.
  cbn [bind defined]. cbn [range map nth_error bind defined].
  change (window_at totalImages sliceInterval windowSize stepSize 0
          :: map (window_at totalImages sliceInterval windowSize stepSize)
               (range (0 + 1) n))
    with (map (window_at totalImages sliceInterval windowSize stepSize)
            (range 0 (S n))).
  rewrite length_map, range_length, adjacent_map, adjacent_range.
  replace (S n - 1)%nat with n by lia.
  replace (end_ (window_at totalImages sliceInterval windowSize stepSize
                   (0 + Z.of_nat n))
           - start (window_at totalImages sliceInterval windowSize stepSize 0)
           + 1)
    with (end_ (window_at totalImages sliceInterval windowSize stepSize
                  (Z.of_nat n)) + 1)
    by (unfold window_at; cbn [start end_]; lia).
  unfold PositionAware.sum_over.
  rewrite !fold_left_over_map. reflexivity.
Qed.

End StatsDisplayFacts.

Module DisplayTheorems.
Import IndexBased TableFacts LoopFacts Display DisplayFacts SearchFacts
  StatsDisplayFacts.

(** X8: the statistics [updateVisualization] of [index.js] computes from
    the windows of [calculateWindows], when at least two windows are asked
    for and the size the search returns fits: the covered length is the
    coverage the search maximised, and the mean overlap of adjacent windows
    is the overlap in items over the window size, in percent, which never
    exceeds the overlap asked for. *)
Theorem calculate_stats_of_layout
    totalImages numWindows overlapPercent sliceInterval :
  1 <= totalImages -> 2 <= numWindows ->
  (exists c, 1 <= c <= totalImages /\
             BruteForce.feasible totalImages numWindows overlapPercent c) ->
  exists st o,
    calculate_stats totalImages
      (BruteForce.optimizeWindowSize totalImages numWindows overlapPercent)
      (calculateWindows totalImages numWindows overlapPercent sliceInterval)
    = Ok st /\
    coverageLength st
    = BruteForce.coverage totalImages numWindows overlapPercent
        (BruteForce.optimizeWindowSize totalImages numWindows overlapPercent) /\
    actualOverlap st = Fin o /\
    (o == inject_Z
            (BruteForce.overlapSize overlapPercent
               (BruteForce.optimizeWindowSize totalImages numWindows
                  overlapPercent))
          / inject_Z
              (BruteForce.optimizeWindowSize totalImages numWindows
                 overlapPercent)
          * 100)%Q /\
    (o <= inject_Z overlapPercent)%Q.
Proof.
  intros Hn Hk Hex.
  destruct (search_result totalImages numWindows overlapPercent Hn
              ltac:(lia) Hex) as (Hr & Hfr & _).
  destruct (calculateWindows_fit totalImages numWindows overlapPercent
              sliceInterval ltac:(lia) ltac:(lia) Hfr) as [-> Hat].
  set (w := BruteForce.optimizeWindowSize totalImages numWindows overlapPercent)
    in *.
  destruct (Z.to_nat numWindows) as [|n] eqn:En; [lia|].
  rewrite calculate_stats_layout.
  assert (Hn0 : (Z.of_nat (S n) - 1 =? 0) = false)
    by (apply Z.eqb_neq; lia).
  rewrite Hn0. eexists. eexists. split; [reflexivity|].
  cbn [coverageLength actualOverlap].
  split; [|split; [reflexivity|]].
  - destruct (Hat (Z.of_nat n) ltac:(lia)) as [_ ->].
    rewrite feasible_coverage by exact Hfr.
    unfold BruteForce.lastWindowEnd, BruteForce.lastWindowStart.
    replace (numWindows - 1) with (Z.of_nat n) by lia. lia.
  - assert (Hsum :
      (PositionAware.sum_over
         (fun i =>
            inject_Z
              (end_ (window_at totalImages sliceInterval w
                       (BruteForce.stepSize overlapPercent w) i) + 1
               - start (window_at totalImages sliceInterval w
                          (BruteForce.stepSize overlapPercent w) (i + 1)))
            / inject_Z w)
         (range 0 n)
       == inject_Z (Z.of_nat n)
          * (inject_Z (BruteForce.overlapSize overlapPercent w) / inject_Z w))%Q).
    { rewrite <- (range_length 0 n) at 2.
      apply StatsFacts.sum_over_const. apply Forall_forall. intros i Hi.
      apply range_In in Hi.
      destruct (Hat i ltac:(lia)) as [_ ->].
      destruct (Hat (i + 1) ltac:(lia)) as [-> _].
      replace (i * BruteForce.stepSize overlapPercent w + w - 1 + 1
               - (i + 1) * BruteForce.stepSize overlapPercent w)
        with (BruteForce.overlapSize overlapPercent w)
        by (unfold BruteForce.stepSize; lia).
      reflexivity. }
    assert (Hw : ~ (inject_Z w == 0)%Q)
      by (apply inject_Z_nonzero; lia).
    assert (Hn' : ~ (inject_Z (Z.of_nat n) == 0)%Q)
      by (apply inject_Z_nonzero; lia).
    replace (Z.of_nat (S n) - 1) with (Z.of_nat n) by lia.
    split.
    + rewrite Hsum. field. split; assumption.
    + rewrite Hsum.
      setoid_replace
        (inject_Z (Z.of_nat n)
         * (inject_Z (BruteForce.overlapSize overlapPercent w) / inject_Z w)
         / inject_Z (Z.of_nat n) * 100)%Q
        with (inject_Z (BruteForce.overlapSize overlapPercent w * 100)
              / inject_Z w)%Q
        by (rewrite inject_Z_mult; field; split; assumption).
      apply Qle_shift_div_r; [rewrite <- (Zlt_Qlt 0); lia|].
      rewrite <- inject_Z_mult, <- Zle_Qle.
      unfold BruteForce.overlapSize.
      pose proof (Z.mul_div_le (w * overlapPercent) 100 ltac:(lia)). lia.
Qed.

Lemma calculate_stats_of_layout_witness :
  exists st o,
    calculate_stats 20 (BruteForce.optimizeWindowSize 20 4 25)
      (calculateWindows 20 4 25 1)
    = Ok st /\
    coverageLength st
    = BruteForce.coverage 20 4 25 (BruteForce.optimizeWindowSize 20 4 25) /\
    actualOverlap st = Fin o /\
    (o == inject_Z
            (BruteForce.overlapSize 25 (BruteForce.optimizeWindowSize 20 4 25))
          / inject_Z (BruteForce.optimizeWindowSize 20 4 25)
          * 100)%Q /\
    (o <= inject_Z 25)%Q.
Proof.
  apply (calculate_stats_of_layout 20 4 25 1%Q); try lia.
  exists 1. split; [lia|]. split; reflexivity.
Defined.

(** X9: [updateVisualization] of [index.js] reads the last window without
    a guard: its statistics raise a [TypeError] exactly when
    [calculateWindows] returned no window, that is when numWindows <= 0 or
    totalImages <= 0. *)
Theorem calculate_stats_unguarded
    totalImages numWindows overlapPercent sliceInterval windowSize :
  calculate_stats totalImages windowSize
    (calculateWindows totalImages numWindows overlapPercent sliceInterval)
  = TypeError
  <-> numWindows <= 0 \/ totalImages <= 0.
Proof.
  rewrite calculate_stats_TypeError. unfold calculateWindows. split.
  - intro H. apply push_windows_empty in H. lia.
  - intros [H|H].
    + replace (Z.to_nat numWindows) with O by lia. reflexivity.
    + apply push_windows_break. lia.
Qed.

(** X10: with a single window (overlap below 100 percent, at least one
    item) the statistics of [index.js] report the whole sequence as covered,
    100 percent, and an overlap that is not a number: the loop over adjacent
    pairs adds nothing and the mean divides 0 by 0. *)
Theorem calculate_stats_single_window totalImages overlapPercent sliceInterval :
  overlapPercent < 100 -> 1 <= totalImages ->
  exists st,
    calculate_stats totalImages
      (BruteForce.optimizeWindowSize totalImages 1 overlapPercent)
      (calculateWindows totalImages 1 overlapPercent sliceInterval)
    = Ok st /\
    coverageLength st = totalImages /\
    (coverage st == 100)%Q /\
    actualOverlap st = NaN.
Proof.
  intros Hp Hn. unfold calculateWindows.
  rewrite (search_single totalImages overlapPercent Hp Hn).
  change (Z.to_nat 1) with 1%nat.
  rewrite push_windows_all
    by (intros j Hj; replace j with 0 by lia; lia).
  rewrite calculate_stats_layout. eexists. split; [reflexivity|].
  cbn [coverageLength coverage actualOverlap Z.of_nat].
  assert (E : end_ (window_at totalImages sliceInterval totalImages
                      (totalImages - totalImages * overlapPercent / 100) 0) + 1
              = totalImages)
    by (unfold window_at; cbn [end_]; lia).
  rewrite E. split; [reflexivity|]. split; [|reflexivity].
  field. apply inject_Z_nonzero. lia.
Qed.

Lemma calculate_stats_single_window_witness :
  exists st,
    calculate_stats 12 (BruteForce.optimizeWindowSize 12 1 30)
      (calculateWindows 12 1 30 1)
    = Ok st /\
    coverageLength st = 12 /\
    (coverage st == 100)%Q /\
    actualOverlap st = NaN.
Proof. apply (calculate_stats_single_window 12 30 1%Q); lia. Defined.

End DisplayTheorems.

(** ** The Nelder-Mead variant: starts, objective and result *)

Module OptimizerFacts.
Import NelderMead Optimizer CostFacts.

Lemma keep_best_fold results : forall b,
  exists b', fold_left keep_best results (Some b) = Some b'.
Proof.
  induction results as [|r results IH]; intro b; cbn [fold_left];
    [now exists b|].
  destruct r as [r|]; cbn [keep_best]; [|apply IH].
  destruct (Qltb (fx r) (fx b)); apply IH.
Qed.

(** Started from [b], the loop ends on [b] if no later result is strictly
    better, and otherwise on the first result that beats everything before
    it and is not beaten later. *)
Lemma fold_keep_best results : forall b b',
  fold_left keep_best results (Some b) = Some b' ->
  (b' = b /\ forall r, In (Some r) results -> (fx b <= fx r)%Q) \/
  (exists pre post,
     results = pre ++ Some b' :: post /\
     (fx b' < fx b)%Q /\
     (forall r, In (Some r) pre -> (fx b' < fx r)%Q) /\
     (forall r, In (Some r) post -> (fx b' <= fx r)%Q)).
Proof.
  induction results as [|r results IH]; intros b b' H; cbn [fold_left] in H.
  - left. split; [congruence | intros r []].
  - destruct r as [r|]; cbn [keep_best] in H.
    + destruct (Qltb (fx r) (fx b)) eqn:E.
      * apply Qltb_lt in E. destruct (IH _ _ H) as [[-> Hall]|Hex].
        -- right. exists [], results. repeat split;
             [exact E | intros ? [] | exact Hall].
        -- destruct Hex as (pre & post & -> & Hlt & Hpre & Hpost).
           right. exists (Some r :: pre), post.
           repeat split; [lra | | exact Hpost].
           intros r' [Hr|Hr]; [injection Hr as <-; exact Hlt | now apply Hpre].
      * apply Qltb_ge in E. destruct (IH _ _ H) as [[-> Hall]|Hex].
        -- left. split; [reflexivity|].
           intros r' [Hr|Hr]; [injection Hr as <-; exact E | now apply Hall].
        -- destruct Hex as (pre & post & -> & Hlt & Hpre & Hpost).
           right. exists (Some r :: pre), post.
           repeat split; [exact Hlt | | exact Hpost].
           intros r' [Hr|Hr]; [injection Hr as <-; lra | now apply Hpre].
    + destruct (IH _ _ H) as [[-> Hall]|Hex].
      * left. split; [reflexivity|].
        intros r' [Hr|Hr]; [discriminate Hr | now apply Hall].
      * destruct Hex as (pre & post & -> & Hlt & Hpre & Hpost).
        right. exists (None :: pre), post.
        repeat split; [exact Hlt | | exact Hpost].
        intros r' [Hr|Hr]; [discriminate Hr | now apply Hpre].
Qed.

Lemma huber_nonneg e : (0 <= huber e)%Q.
Proof.
  unfold huber. destruct (Qltb e 1) eqn:E.
  - setoid_replace ((1 # 2) * e * e)%Q with ((1 # 2) * (e * e))%Q by ring.
    apply Qmult_le_0_compat; [discriminate|]. nra.
  - apply Qltb_ge in E. lra.
Qed.

Lemma huber_zero e : (0 <= e)%Q -> (huber e == 0)%Q -> (e == 0)%Q.
Proof.
  unfold huber. intros He H. destruct (Qltb e 1) eqn:E.
  - assert (H2 : (e * e == 0)%Q) by lra.
    apply Qmult_integral in H2. tauto.
  - apply Qltb_ge in E. lra.
Qed.

Lemma huber_at_zero e : (e == 0)%Q -> (huber e == 0)%Q.
Proof.
  unfold huber. intro H. destruct (Qltb e 1) eqn:E.
  - rewrite H. ring.
  - apply Qltb_ge in E. lra.
Qed.

Section Discretisation.
Variable totalImages : Z.
Variable sliceInterval : Q.
Variable p : params.

Lemma windowImages_range :
  1 <= windowImages totalImages sliceInterval p /\
  (1 <= totalImages -> windowImages totalImages sliceInterval p <= totalImages).
Proof. unfold windowImages, clampInt. lia. Qed.

Lemma stepImages_range :
  1 <= stepImages totalImages sliceInterval p
  <= Z.max 1 (windowImages totalImages sliceInterval p - 1).
Proof. unfold stepImages, clampInt. lia. Qed.

Lemma lastEnd_inside :
  1 <= totalImages ->
  lastEnd totalImages sliceInterval p < totalImages.
Proof.
  intro Hn. unfold lastEnd, numWindows.
  pose proof windowImages_range as [Hw1 Hw2]. specialize (Hw2 Hn).
  pose proof stepImages_range as [Hs _].
  set (w := windowImages totalImages sliceInterval p) in *.
  set (s := stepImages totalImages sliceInterval p) in *.
  pose proof (Z.mul_div_le (totalImages - w) s ltac:(lia)).
  replace ((totalImages - w) / s + 1 - 1) with ((totalImages - w) / s) by lia.
  nia.
Qed.

Lemma numWindows_two :
  2 <= numWindows totalImages sliceInterval p
  <-> windowImages totalImages sliceInterval p
      + stepImages totalImages sliceInterval p <= totalImages.
Proof.
  unfold numWindows.
  pose proof stepImages_range as [Hs _].
  set (w := windowImages totalImages sliceInterval p) in *.
  set (s := stepImages totalImages sliceInterval p) in *.
  split; intro H.
  - assert (1 <= (totalImages - w) / s) by lia.
    pose proof (Z.mul_div_le (totalImages - w) s ltac:(lia)). nia.
  - assert (1 <= (totalImages - w) / s); [|lia].
    apply Z.div_le_lower_bound; lia.
Qed.

Lemma penalty_cases :
  penalty totalImages sliceInterval p
  = if windowImages totalImages sliceInterval p =? 1 then 5%Q else 0%Q.
Proof.
  unfold penalty.
  pose proof windowImages_range as [Hw _].
  pose proof stepImages_range as Hs.
  destruct (windowImages totalImages sliceInterval p =? 1) eqn:E.
  - apply Z.eqb_eq in E.
    replace (stepImages totalImages sliceInterval p
             >=? windowImages totalImages sliceInterval p) with true;
      [reflexivity|].
    symmetry. rewrite Z.geb_leb. apply Z.leb_le. lia.
  - apply Z.eqb_neq in E.
    replace (stepImages totalImages sliceInterval p
             >=? windowImages totalImages sliceInterval p) with false;
      [reflexivity|].
    symmetry. rewrite Z.geb_leb. apply Z.leb_gt. lia.
Qed.

End Discretisation.

End OptimizerFacts.

Module ObjectiveFacts.
Import NelderMead Optimizer CostFacts OptimizerFacts.

Lemma term_nonneg w v t s :
  (0 <= w)%Q -> (0 <= w * huber (Qabs (v - t) / s))%Q.
Proof. intro Hw. apply Qmult_le_0_compat; [exact Hw | apply huber_nonneg]. Qed.

Lemma rel_zero v t s :
  (0 < s)%Q -> (Qabs (v - t) / s == 0)%Q <-> (v == t)%Q.
Proof.
  intro Hs. split; intro H.
  - assert (Ha : (Qabs (v - t) == 0)%Q).
    { setoid_replace (Qabs (v - t)) with (Qabs (v - t) / s * s)%Q
        by (field; lra).
      rewrite H. ring. }
    destruct (StepFacts.Qabs_cases (v - t)) as [[_ E]|[_ E]]; rewrite E in Ha; lra.
  - setoid_replace (v - t)%Q with 0%Q by lra. cbn. field. lra.
Qed.

Lemma rel_nonneg v t s : (0 < s)%Q -> (0 <= Qabs (v - t) / s)%Q.
Proof.
  intro Hs. apply Qle_shift_div_l; [exact Hs|].
  setoid_replace (0 * s)%Q with 0%Q by ring. apply Qabs_nonneg.
Qed.

Lemma term_zero w v t s :
  (0 <= w)%Q -> (0 < s)%Q ->
  (w * huber (Qabs (v - t) / s) == 0)%Q <-> ((0 < w)%Q -> (v == t)%Q).
Proof.
  intros Hw Hs. split.
  - intros H Hpos. apply Qmult_integral in H. destruct H as [H|H]; [lra|].
    apply huber_zero in H; [|now apply rel_nonneg].
    now apply rel_zero in H.
  - intro H. destruct (Qlt_le_dec 0 w) as [Hpos|Hle].
    + rewrite huber_at_zero; [ring|]. apply rel_zero; auto.
    + setoid_replace w with 0%Q by lra. ring.
Qed.

Lemma best_of_cases (results : list (option run)) :
  match best_of results with
  | None => Forall (fun r => r = None) results
  | Some b =>
      exists pre post,
        results = pre ++ Some b :: post /\
        (forall r, In (Some r) pre -> (fx b < fx r)%Q) /\
        (forall r, In (Some r) post -> (fx b <= fx r)%Q)
  end.
Proof.
  unfold best_of. induction results as [|r results IH]; [constructor|].
  cbn [fold_left]. destruct r as [r|]; cbn [keep_best].
  - destruct (keep_best_fold results r) as [b' Hb']. rewrite Hb'.
    destruct (fold_keep_best _ _ _ Hb') as [[-> Hall]|Hex].
    + exists [], results. repeat split; [intros ? [] | exact Hall].
    + destruct Hex as (pre & post & -> & Hlt & Hpre & Hpost).
      exists (Some r :: pre), post. repeat split; [|exact Hpost].
      intros r' [Hr|Hr]; [injection Hr as <-; exact Hlt | now apply Hpre].
  - destruct (fold_left keep_best results None) as [b|].
    + destruct IH as (pre & post & -> & Hpre & Hpost).
      exists (None :: pre), post. repeat split; [|exact Hpost].
      intros r' [Hr|Hr]; [discriminate Hr | now apply Hpre].
    + constructor; [reflexivity | exact IH].
Qed.

End ObjectiveFacts.

Module ObjectiveTheorems.
Import NelderMead Optimizer CostFacts OptimizerFacts ObjectiveFacts.

(** X11: the loop over the starts of [optimizeWithNelderMead] keeps the
    first result of least value, whatever the minimiser returns: the
    function throws exactly when every start failed, and otherwise builds
    its result from a run that is strictly below every run before it and
    not above any run after it; failed starts are skipped. *)
Theorem optimizeWithNelderMead_first_least
    totalImages sliceInterval nelderMead targets weights guesses :
  match optimizeWithNelderMead totalImages sliceInterval nelderMead targets
          weights guesses with
  | None =>
      Forall (fun r => r = None)
        (map (nelderMead
                (objectiveFunction totalImages targets sliceInterval
                   (normalize_weights weights)))
           guesses)
  | Some r =>
      exists b pre post,
        r = finalize totalImages sliceInterval b /\
        map (nelderMead
               (objectiveFunction totalImages targets sliceInterval
                  (normalize_weights weights)))
          guesses
        = pre ++ Some b :: post /\
        (forall r', In (Some r') pre -> (fx b < fx r')%Q) /\
        (forall r', In (Some r') post -> (fx b <= fx r')%Q)
  end.
Proof.
  unfold optimizeWithNelderMead.
  pose proof (best_of_cases
                (map (nelderMead
                        (objectiveFunction totalImages targets sliceInterval
                           (normalize_weights weights)))
                   guesses)) as H.
  destruct (best_of _) as [b|]; [|exact H].
  destruct H as (pre & post & H). exists b, pre, post. tauto.
Qed.

(** X12: in [objectiveFunction], for a sequence of at least one item and
    a positive slice interval, the last window of a candidate never passes
    the end of the sequence, so the second rejection never fires; a
    candidate is rejected with the value 1000 exactly when its window and
    one step together exceed the sequence. *)
Theorem objectiveFunction_rejection
    totalImages targets sliceInterval weights p :
  1 <= totalImages -> (0 < sliceInterval)%Q ->
  lastEnd totalImages sliceInterval p < totalImages /\
  (candidate_ok totalImages sliceInterval p <->
   windowImages totalImages sliceInterval p
   + stepImages totalImages sliceInterval p <= totalImages) /\
  (totalImages < windowImages totalImages sliceInterval p
                 + stepImages totalImages sliceInterval p ->
   objectiveFunction totalImages targets sliceInterval weights p = 1000%Q).
Proof.
  intros Hn Hsi.
  pose proof (lastEnd_inside totalImages sliceInterval p Hn) as Hl.
  pose proof (numWindows_two totalImages sliceInterval p) as Hw.
  split; [exact Hl|]. split.
  - unfold candidate_ok. split; [intros [H _]; now apply Hw|].
    intro H. split; [now apply Hw | exact Hl].
  - intro H. apply objectiveFunction_rejects. intros [H2 _].
    apply Hw in H2. lia.
Qed.

Lemma objectiveFunction_rejection_witness :
  lastEnd 10 1 (mkParams 8 0 3 0) < 10 /\
  (candidate_ok 10 1 (mkParams 8 0 3 0) <->
   windowImages 10 1 (mkParams 8 0 3 0)
   + stepImages 10 1 (mkParams 8 0 3 0) <= 10) /\
  (10 < windowImages 10 1 (mkParams 8 0 3 0)
        + stepImages 10 1 (mkParams 8 0 3 0) ->
   objectiveFunction 10 (fun _ => 1%Q) 1 (fun _ => 1 # 4) (mkParams 8 0 3 0)
   = 1000%Q).
Proof.
  apply (objectiveFunction_rejection 10 (fun _ => 1%Q) 1%Q (fun _ => 1 # 4)%Q
           (mkParams 8 0 3 0)); [lia | reflexivity].
Defined.

(** X13: the step of a candidate, in items, is at least 1 and at most
    the window size minus one (or 1 for a window of one item), so the bound
    penalty of [objectiveFunction] is added exactly for windows of a single
    item. *)
Theorem objectiveFunction_penalty totalImages sliceInterval p :
  (0 < sliceInterval)%Q ->
  1 <= stepImages totalImages sliceInterval p
    <= Z.max 1 (windowImages totalImages sliceInterval p - 1) /\
  penalty totalImages sliceInterval p
  = (if windowImages totalImages sliceInterval p =? 1 then 5 else 0)%Q.
Proof.
  intros _. split; [apply stepImages_range | apply penalty_cases].
Qed.

Lemma objectiveFunction_penalty_witness :
  1 <= stepImages 10 (1 # 2) (mkParams (1 # 2) 0 3 0)
    <= Z.max 1 (windowImages 10 (1 # 2) (mkParams (1 # 2) 0 3 0) - 1) /\
  penalty 10 (1 # 2) (mkParams (1 # 2) 0 3 0)
  = (if windowImages 10 (1 # 2) (mkParams (1 # 2) 0 3 0) =? 1 then 5 else 0)%Q.
Proof.
  apply (objectiveFunction_penalty 10 (1 # 2)%Q (mkParams (1 # 2) 0 3 0)).
  reflexivity.
Defined.

(** X14: for non-negative weights and a positive slice interval
    [objectiveFunction] is never negative, and it is zero exactly at a
    candidate that is accepted, has a window of more than one item, and
    whose observed value equals the target in every criterion of positive
    weight. *)
Theorem objectiveFunction_zero totalImages targets sliceInterval weights p :
  (0 < sliceInterval)%Q -> (forall k, 0 <= weights k)%Q ->
  (0 <= objectiveFunction totalImages targets sliceInterval weights p)%Q /\
  ((objectiveFunction totalImages targets sliceInterval weights p == 0)%Q <->
   candidate_ok totalImages sliceInterval p /\
   windowImages totalImages sliceInterval p <> 1 /\
   forall k, (0 < weights k)%Q ->
     (observed totalImages sliceInterval p k == targets k)%Q).
Proof.
  intros Hsi Hw.
  assert (Hdec : candidate_ok totalImages sliceInterval p \/
                 ~ candidate_ok totalImages sliceInterval p).
  { unfold candidate_ok.
    destruct (Z_le_dec 2 (numWindows totalImages sliceInterval p));
      destruct (Z_lt_dec (lastEnd totalImages sliceInterval p) totalImages);
      tauto. }
  destruct Hdec as [Hok|Hno].
  2:{ rewrite (objectiveFunction_rejects totalImages sliceInterval p targets
                 weights Hno).
      split; [discriminate|]. split; [discriminate | tauto]. }
  pose proof (objectiveFunction_scores totalImages sliceInterval p targets
                weights Hsi Hok) as Hs.
  unfold smoothed_cost, keys in Hs. cbn [map fold_right] in Hs.
  pose proof (fun k => term_nonneg (weights k)
                (observed totalImages sliceInterval p k) (targets k)
                (scale targets sliceInterval k) (Hw k)) as Hnn.
  pose proof (fun k => term_zero (weights k)
                (observed totalImages sliceInterval p k) (targets k)
                (scale targets sliceInterval k) (Hw k)
                (scale_pos targets sliceInterval k Hsi)) as Hz.
  pose proof (Hnn window_length) as N1. pose proof (Hnn window_number) as N2.
  pose proof (Hnn step_or_overlap) as N3. pose proof (Hnn percentage) as N4.
  rewrite penalty_cases in Hs.
  destruct (windowImages totalImages sliceInterval p =? 1) eqn:E.
  - apply Z.eqb_eq in E. split; [lra|]. split; [intro H; lra | tauto].
  - apply Z.eqb_neq in E. split; [lra|]. split.
    + intro H. split; [exact Hok|]. split; [exact E|].
      intros k. apply Hz. destruct k; lra.
    + intros (_ & _ & Hall).
      pose proof (proj2 (Hz window_length) (Hall _)).
      pose proof (proj2 (Hz window_number) (Hall _)).
      pose proof (proj2 (Hz step_or_overlap) (Hall _)).
      pose proof (proj2 (Hz percentage) (Hall _)). lra.
Qed.

Lemma objectiveFunction_zero_witness :
  (0 <= objectiveFunction 10 (fun _ => 1%Q) 1 (fun _ => 1 # 4)
          (mkParams 5 0 3 0))%Q /\
  ((objectiveFunction 10 (fun _ => 1%Q) 1 (fun _ => 1 # 4) (mkParams 5 0 3 0)
    == 0)%Q <->
   candidate_ok 10 1 (mkParams 5 0 3 0) /\
   windowImages 10 1 (mkParams 5 0 3 0) <> 1 /\
   forall k, (0 < (fun _ : key => 1 # 4) k)%Q ->
     (observed 10 1 (mkParams 5 0 3 0) k == (fun _ : key => 1%Q) k)%Q).
Proof.
  apply (objectiveFunction_zero 10 (fun _ => 1%Q) 1%Q (fun _ => 1 # 4)%Q
           (mkParams 5 0 3 0)); [reflexivity | intro k; discriminate].
Defined.

(** X15: the smoothed error [h] of [objectiveFunction] (quadratic below
    1, linear from 1 on) is never negative and is monotone on non-negative
    errors: the two pieces join at 1 without a step down. *)
Theorem huber_monotone (a b : Q) :
  (0 <= a)%Q -> (a <= b)%Q -> (0 <= huber a <= huber b)%Q.
Proof.
  intros Ha Hab. split; [apply huber_nonneg|].
  unfold huber.
  destruct (Qltb a 1) eqn:Ea; destruct (Qltb b 1) eqn:Eb;
    try apply Qltb_lt in Ea; try apply Qltb_ge in Ea;
    try apply Qltb_lt in Eb; try apply Qltb_ge in Eb.
  - nra.
  - nra.
  - lra.
  - lra.
Qed.

Lemma huber_monotone_witness :
  (0 <= huber (1 # 2) <= huber 2)%Q.
Proof. apply (huber_monotone (1 # 2) 2); discriminate. Defined.

End ObjectiveTheorems.

Module ResultFacts.
Import NelderMead Optimizer OptimizerFacts TableFacts LoopFacts DisplayFacts.

Section Result.
Variable totalImages : Z.
Variable sliceInterval : Q.
Variable b : run.

Abbreviation r := (finalize totalImages sliceInterval b).

Lemma finalize_ranges :
  1 <= windowSize r /\ 1 <= stepOrOverlap r /\
  Optimizer.numWindows r
  = (totalImages - windowSize r) / stepOrOverlap r + 1.
Proof. unfold finalize. cbn [windowSize stepOrOverlap Optimizer.numWindows]. lia. Qed.

Lemma finalize_fits :
  windowSize r <= totalImages ->
  1 <= Optimizer.numWindows r /\
  (Optimizer.numWindows r - 1) * stepOrOverlap r + windowSize r <= totalImages /\
  totalImages - stepOrOverlap r
  < (Optimizer.numWindows r - 1) * stepOrOverlap r + windowSize r.
Proof.
  intro Hw. destruct finalize_ranges as (H1 & H2 & ->).
  set (w := windowSize r) in *. set (s := stepOrOverlap r) in *.
  replace ((totalImages - w) / s + 1 - 1) with ((totalImages - w) / s) by lia.
  pose proof (Z.div_pos (totalImages - w) s ltac:(lia) ltac:(lia)).
  pose proof (Z.mul_div_le (totalImages - w) s ltac:(lia)).
  pose proof (Z.mul_succ_div_gt (totalImages - w) s ltac:(lia)).
  split; [lia|]. split; nia.
Qed.

Lemma calculateWindows_fits :
  windowSize r <= totalImages ->
  calculateWindows totalImages sliceInterval r
  = map (window_at totalImages sliceInterval (windowSize r) (stepOrOverlap r))
      (range 0 (Z.to_nat (Optimizer.numWindows r))) /\
  forall i, 0 <= i < Optimizer.numWindows r ->
    IndexBased.end_
      (window_at totalImages sliceInterval (windowSize r) (stepOrOverlap r) i)
    = i * stepOrOverlap r + windowSize r - 1.
Proof.
  intro Hw. destruct (finalize_fits Hw) as (Hn & Hle & _).
  destruct finalize_ranges as (H1 & H2 & _).
  set (w := windowSize r) in *. set (s := stepOrOverlap r) in *.
  set (n := Optimizer.numWindows r) in *.
  split.
  - unfold calculateWindows. apply push_windows_all. intros j Hj. nia.
  - intros i Hi. unfold window_at. cbn [IndexBased.end_].
    apply Z.min_l. nia.
Qed.

End Result.

End ResultFacts.

Module OptimizerTheorems.
Import NelderMead Optimizer OptimizerFacts TableFacts LoopFacts DisplayFacts
  ResultFacts.

(** X16: the result [optimizeWithNelderMead] derives from the best point
    uses the discretisation of [objectiveFunction] as long as the window,
    in items, does not exceed the sequence (positive slice interval, at
    least one item): window size, step and window count are those the
    objective scored, and the coverage is the observed percentage over
    100. *)
Theorem finalize_matches_objective totalImages sliceInterval b :
  1 <= totalImages -> (0 < sliceInterval)%Q ->
  Qfloor (Qmax (p0 (x b)) sliceInterval / sliceInterval) <= totalImages ->
  windowSize (finalize totalImages sliceInterval b)
  = CostFacts.windowImages totalImages sliceInterval (x b) /\
  stepOrOverlap (finalize totalImages sliceInterval b)
  = CostFacts.stepImages totalImages sliceInterval (x b) /\
  Optimizer.numWindows (finalize totalImages sliceInterval b)
  = CostFacts.numWindows totalImages sliceInterval (x b) /\
  (coverage (finalize totalImages sliceInterval b) * 100
   == CostFacts.observed totalImages sliceInterval (x b) percentage)%Q.
Proof.
  intros Hn Hsi Hf.
  assert (Hw : windowSize (finalize totalImages sliceInterval b)
               = CostFacts.windowImages totalImages sliceInterval (x b)).
  { unfold finalize, CostFacts.windowImages, CostFacts.windowCm, clampInt.
    cbn [windowSize]. lia. }
  assert (Hs : stepOrOverlap (finalize totalImages sliceInterval b)
               = CostFacts.stepImages totalImages sliceInterval (x b)).
  { revert Hw.
    unfold finalize, CostFacts.stepImages, CostFacts.windowImages,
      CostFacts.windowCm, CostFacts.stepCm, clampInt.
    cbn [windowSize stepOrOverlap]. lia. }
  assert (Hk : Optimizer.numWindows (finalize totalImages sliceInterval b)
               = CostFacts.numWindows totalImages sliceInterval (x b)).
  { destruct (finalize_ranges totalImages sliceInterval b) as (_ & _ & ->).
    rewrite Hw, Hs. reflexivity. }
  split; [exact Hw|]. split; [exact Hs|]. split; [exact Hk|].
  assert (Hc : coverage (finalize totalImages sliceInterval b)
               = (inject_Z
                    (Z.min
                       ((Optimizer.numWindows
                           (finalize totalImages sliceInterval b) - 1)
                        * stepOrOverlap (finalize totalImages sliceInterval b)
                        + windowSize (finalize totalImages sliceInterval b)
                        - 1 + 1)
                       totalImages)
                  / inject_Z totalImages)%Q) by reflexivity.
  rewrite Hc, Hk, Hs, Hw. unfold CostFacts.observed, CostFacts.lastEnd.
  field. apply StatsDisplayFacts.inject_Z_nonzero. lia.
Qed.

Lemma finalize_matches_objective_witness :
  windowSize (finalize 10 1 (mkRun (mkParams 5 0 3 0) 2))
  = CostFacts.windowImages 10 1 (mkParams 5 0 3 0) /\
  stepOrOverlap (finalize 10 1 (mkRun (mkParams 5 0 3 0) 2))
  = CostFacts.stepImages 10 1 (mkParams 5 0 3 0) /\
  Optimizer.numWindows (finalize 10 1 (mkRun (mkParams 5 0 3 0) 2))
  = CostFacts.numWindows 10 1 (mkParams 5 0 3 0) /\
  (coverage (finalize 10 1 (mkRun (mkParams 5 0 3 0) 2)) * 100
   == CostFacts.observed 10 1 (mkParams 5 0 3 0) percentage)%Q.
Proof.
  apply (finalize_matches_objective 10 1%Q (mkRun (mkParams 5 0 3 0) 2));
    [lia | reflexivity | vm_compute; discriminate].
Defined.

(** X17: [calculateWindows] of the Nelder-Mead variant, on a result whose
    window fits the sequence: it pushes exactly numWindows >= 1 windows, the
    i-th from i * step with the full window size and inside the sequence,
    and the last one ends less than one step before the end of the
    sequence: no further window would fit. *)
Theorem calculateWindows_of_result totalImages sliceInterval b :
  1 <= totalImages -> (0 < sliceInterval)%Q ->
  windowSize (finalize totalImages sliceInterval b) <= totalImages ->
  1 <= Optimizer.numWindows (finalize totalImages sliceInterval b) /\
  length (calculateWindows totalImages sliceInterval
            (finalize totalImages sliceInterval b))
  = Z.to_nat (Optimizer.numWindows (finalize totalImages sliceInterval b)) /\
  (forall i w,
     nth_error (calculateWindows totalImages sliceInterval
                  (finalize totalImages sliceInterval b)) i = Some w ->
     IndexBased.start w
     = Z.of_nat i * stepOrOverlap (finalize totalImages sliceInterval b) /\
     IndexBased.end_ w
     = IndexBased.start w
       + windowSize (finalize totalImages sliceInterval b) - 1 /\
     IndexBased.end_ w < totalImages /\
     (Z.of_nat i
      = Optimizer.numWindows (finalize totalImages sliceInterval b) - 1 ->
      totalImages - stepOrOverlap (finalize totalImages sliceInterval b)
      <= IndexBased.end_ w)).
Proof.
  intros Hn Hsi Hw.
  destruct (finalize_fits totalImages sliceInterval b Hw) as (Hk & Hle & Htail).
  destruct (finalize_ranges totalImages sliceInterval b) as (H1 & H2 & _).
  destruct (calculateWindows_fits totalImages sliceInterval b Hw) as [-> Hat].
  split; [exact Hk|].
  split; [now rewrite length_map, range_length|].
  intros i w Hi. rewrite nth_error_map in Hi.
  destruct (nth_error (range 0 _) i) as [j|] eqn:E; [|discriminate Hi].
  remember (window_at totalImages sliceInterval
              (windowSize (finalize totalImages sliceInterval b))
              (stepOrOverlap (finalize totalImages sliceInterval b)))
    as W eqn:HW.
  cbn [option_map] in Hi. injection Hi as <-. subst W.
  apply range_nth_inv in E. destruct E as [Hi ->].
  replace (0 + Z.of_nat i) with (Z.of_nat i) by lia.
  pose proof (Hat (Z.of_nat i) ltac:(lia)) as He.
  assert (Hst : IndexBased.start
                  (window_at totalImages sliceInterval
                     (windowSize (finalize totalImages sliceInterval b))
                     (stepOrOverlap (finalize totalImages sliceInterval b))
                     (Z.of_nat i))
                = Z.of_nat i
                  * stepOrOverlap (finalize totalImages sliceInterval b))
    by reflexivity.
  rewrite He, Hst.
  split; [reflexivity|]. split; [lia|]. split; [nia|].
  intros Hlast. rewrite Hlast. lia.
Qed.

Lemma calculateWindows_of_result_witness :
  1 <= Optimizer.numWindows (finalize 10 1 (mkRun (mkParams 5 0 3 0) 2)) /\
  length (calculateWindows 10 1 (finalize 10 1 (mkRun (mkParams 5 0 3 0) 2)))
  = Z.to_nat (Optimizer.numWindows (finalize 10 1 (mkRun (mkParams 5 0 3 0) 2)))
  /\
  (forall i w,
     nth_error (calculateWindows 10 1
                  (finalize 10 1 (mkRun (mkParams 5 0 3 0) 2))) i = Some w ->
     IndexBased.start w
     = Z.of_nat i * stepOrOverlap (finalize 10 1 (mkRun (mkParams 5 0 3 0) 2))
     /\
     IndexBased.end_ w
     = IndexBased.start w
       + windowSize (finalize 10 1 (mkRun (mkParams 5 0 3 0) 2)) - 1 /\
     IndexBased.end_ w < 10 /\
     (Z.of_nat i
      = Optimizer.numWindows (finalize 10 1 (mkRun (mkParams 5 0 3 0) 2)) - 1 ->
      10 - stepOrOverlap (finalize 10 1 (mkRun (mkParams 5 0 3 0) 2))
      <= IndexBased.end_ w)).
Proof.
  apply (calculateWindows_of_result 10 1%Q (mkRun (mkParams 5 0 3 0) 2));
    [lia | reflexivity | vm_compute; discriminate].
Defined.

(** X18: a best point whose window, in items, exceeds the sequence was
    scored by [objectiveFunction] as rejected (1000), its window clamped to
    the sequence; the result is not clamped: it reports that larger window
    and a window count of zero or less, and [calculateWindows] of the
    Nelder-Mead variant then pushes no window. *)
Theorem calculateWindows_oversized
    totalImages targets sliceInterval weights b :
  1 <= totalImages -> (0 < sliceInterval)%Q ->
  totalImages < Qfloor (Qmax (p0 (x b)) sliceInterval / sliceInterval) ->
  objectiveFunction totalImages targets sliceInterval weights (x b) = 1000%Q /\
  totalImages < windowSize (finalize totalImages sliceInterval b) /\
  Optimizer.numWindows (finalize totalImages sliceInterval b) <= 0 /\
  calculateWindows totalImages sliceInterval
    (finalize totalImages sliceInterval b) = [].
Proof.
  intros Hn Hsi Hf.
  assert (Hw : totalImages < windowSize (finalize totalImages sliceInterval b))
    by (unfold finalize; cbn [windowSize]; lia).
  destruct (finalize_ranges totalImages sliceInterval b) as (H1 & H2 & Hk).
  assert (Hk0 : Optimizer.numWindows (finalize totalImages sliceInterval b) <= 0).
  { rewrite Hk.
    assert ((totalImages - windowSize (finalize totalImages sliceInterval b))
            / stepOrOverlap (finalize totalImages sliceInterval b) < 0);
      [|lia].
    apply Z.div_lt_upper_bound; lia. }
  split; [|split; [exact Hw|split; [exact Hk0|]]].
  - apply CostFacts.objectiveFunction_rejects. intros [H _].
    apply numWindows_two in H.
    pose proof (stepImages_range totalImages sliceInterval (x b)).
    assert (CostFacts.windowImages totalImages sliceInterval (x b)
            = totalImages)
      by (unfold CostFacts.windowImages, CostFacts.windowCm, clampInt; lia).
    lia.
  - unfold calculateWindows.
    replace (Z.to_nat _) with O by lia. reflexivity.
Qed.

Lemma calculateWindows_oversized_witness :
  objectiveFunction 10 (fun _ => 1%Q) 1 (fun _ => 1 # 4)
    (x (mkRun (mkParams 12 0 3 0) 1000)) = 1000%Q /\
  10 < windowSize (finalize 10 1 (mkRun (mkParams 12 0 3 0) 1000)) /\
  Optimizer.numWindows (finalize 10 1 (mkRun (mkParams 12 0 3 0) 1000)) <= 0 /\
  calculateWindows 10 1 (finalize 10 1 (mkRun (mkParams 12 0 3 0) 1000)) = [].
Proof.
  apply (calculateWindows_oversized 10 (fun _ => 1%Q) 1%Q (fun _ => 1 # 4)%Q
           (mkRun (mkParams 12 0 3 0) 1000));
    [lia | reflexivity | vm_compute; reflexivity].
Defined.

(** X19: a start drawn by [randomGuess] for a sequence of at least two
    items (draws in [0, 1)) is a window of 2 to totalImages items, never
    more than 200, with a step of at least one item and at most the window
    less one, both times the slice interval, and a coverage target in
    [0, 100). *)
Theorem randomGuess_bounds totalImages sliceInterval u1 u2 u3 :
  2 <= totalImages -> (0 <= u1 < 1)%Q -> (0 <= u3 < 1)%Q ->
  exists wImg sImg,
    2 <= wImg <= Z.min totalImages 200 /\
    1 <= sImg <= wImg - 1 /\
    p0 (randomGuess totalImages sliceInterval u1 u2 u3)
    = (inject_Z wImg * sliceInterval)%Q /\
    p2 (randomGuess totalImages sliceInterval u1 u2 u3)
    = (inject_Z sImg * sliceInterval)%Q /\
    (0 <= p3 (randomGuess totalImages sliceInterval u1 u2 u3) < 100)%Q.
Proof.
  intros Hn Hu1 Hu3. unfold randomGuess. cbn [p0 p2 p3].
  set (M := Z.min totalImages 200).
  set (wImg := clampInt ((u1 * (8 # 10) + (2 # 10)) * inject_Z M) 2 totalImages).
  exists wImg, (clampInt (u2 * (inject_Z wImg - 1) + 1) 1 (wImg - 1)).
  assert (HM : (2 <= inject_Z M)%Q)
    by (rewrite <- (Zle_Qle 2); unfold M; lia).
  assert (Hfl : Qfloor ((u1 * (8 # 10) + (2 # 10)) * inject_Z M) <= M).
  { rewrite <- (Qfloor_Z M) at 2. apply Qfloor_resp_le.
    setoid_replace (inject_Z M) with (1 * inject_Z M)%Q at 2 by ring.
    apply Qmult_le_compat_r; lra. }
  assert (Hw : 2 <= wImg <= M) by (unfold wImg, clampInt, M in *; lia).
  split; [exact Hw|]. split; [unfold clampInt; lia|].
  split; [reflexivity|]. split; [reflexivity|]. lra.
Qed.

Lemma randomGuess_bounds_witness :
  exists wImg sImg,
    2 <= wImg <= Z.min 50 200 /\
    1 <= sImg <= wImg - 1 /\
    p0 (randomGuess 50 (1 # 2) (1 # 2) (1 # 3) (1 # 4))
    = (inject_Z wImg * (1 # 2))%Q /\
    p2 (randomGuess 50 (1 # 2) (1 # 2) (1 # 3) (1 # 4))
    = (inject_Z sImg * (1 # 2))%Q /\
    (0 <= p3 (randomGuess 50 (1 # 2) (1 # 2) (1 # 3) (1 # 4)) < 100)%Q.
Proof.
  apply (randomGuess_bounds 50 (1 # 2) (1 # 2) (1 # 3) (1 # 4));
    try lia; try reflexivity; split; (discriminate || reflexivity).
Defined.

End OptimizerTheorems.

(** ** Queries, records and objective of the position-aware variant *)

Module QueryFacts.
Import PositionAware NearestFacts TableFacts GeneratorFacts ChainFacts.

Lemma get_of_key {V} (o : Obj.t V) k :
  In k (Obj.keys o) -> exists v, Obj.get o k = Some v.
Proof.
  induction o as [|[k' v'] o IH]; [intros []|].
  cbn [Obj.keys map fst In Obj.get]. intros [->|H].
  - rewrite Z.eqb_refl. eauto.
  - destruct (k =? k'); [eauto | now apply IH].
Qed.

Lemma fold_pick_min_In (l : list (Z * num)) : forall e,
  In (fold_left pick_min l e) (e :: l).
Proof.
  induction l as [|a l IH]; intro e; cbn [fold_left]; [now left|].
  unfold pick_min at 2. destruct (num_ltb (snd a) (snd e)).
  - right. apply IH.
  - destruct (IH e) as [H|H]; [left; exact H | right; right; exact H].
Qed.

Lemma reduce_In (l : Obj.t num) m :
  Obj.reduce pick_min l = Some m -> In m l.
Proof.
  destruct l as [|e l]; [discriminate|]. cbn [Obj.reduce].
  intro H. injection H as <-. apply fold_pick_min_In.
Qed.

Lemma keys_map {V W} (g : V -> W) (o : Obj.t V) :
  Obj.keys (map (fun kv => (fst kv, g (snd kv))) o) = Obj.keys o.
Proof. unfold Obj.keys. rewrite map_map. reflexivity. Qed.

Section Nearest.
Variable measure : Position.t -> option Position.t -> Q.
Variable positions : table.
Variable start_index : Z.
Variable target_mm : Q.

Lemma nearest_TypeError :
  nearest measure positions start_index target_mm = TypeError
  <-> get_future_positions positions start_index = [] \/
      Obj.get positions start_index = None.
Proof.
  unfold nearest.
  destruct (get_future_positions positions start_index) as [|p fut] eqn:Ef.
  - cbn. tauto.
  - destruct (Obj.get positions start_index) as [st|] eqn:Es;
      cbn [defined bind]; [|tauto].
    set (measures := map (fun kv => (fst kv, measure st (Some (snd kv))))
                       (p :: fut)).
    set (errors := map (fun kc => (fst kc, rel_error target_mm (snd kc)))
                     measures).
    assert (Hin : forall m, Obj.reduce pick_min errors = Some m ->
                    In (fst m) (Obj.keys measures)).
    { intros m Hm. rewrite <- (keys_map (rel_error target_mm) measures).
      fold errors. apply in_map. now apply reduce_In. }
    destruct (Obj.reduce pick_min errors) as [m|] eqn:Em.
    2:{ unfold errors, measures in Em. discriminate Em. }
    cbn [defined bind].
    specialize (Hin m eq_refl).
    destruct (get_of_key measures _ Hin) as [c Hc].
    assert (He : Obj.get errors (fst m) = Some (rel_error target_mm c)).
    { unfold errors.
      rewrite (ObjFacts.get_map (fun c => rel_error target_mm c)), Hc.
      reflexivity. }
    rewrite He, Hc. cbn [defined bind].
    split; [discriminate | intros [H|H]; discriminate H].
Qed.

Lemma nearest_succeeds st :
  get_future_positions positions start_index <> [] ->
  Obj.get positions start_index = Some st ->
  exists k err ms,
    nearest measure positions start_index target_mm = Ok (k, err, ms).
Proof.
  intros Hf Hs.
  destruct (nearest measure positions start_index target_mm)
    as [[[k err] ms]| |] eqn:E.
  - eauto.
  - apply nearest_TypeError in E. destruct E as [E|E]; congruence.
  - now apply nearest_fuel in E.
Qed.

End Nearest.

(** *** Shape of the records *)

Definition well_formed (w : Entry.t) : Prop :=
  let win := Entry.window w in
  let st := Entry.step w in
  Window.start_idx win = Window.start_img win - 1 /\
  Window.end_idx win = Window.end_img win - 1 /\
  Window.coverage_imgs win = Window.end_img win - Window.start_img win + 1 /\
  2 <= Window.coverage_imgs win /\
  Window.center_idx win = (Window.start_img win + Window.end_img win) / 2 /\
  Window.start_img win <= Window.center_idx win < Window.end_img win /\
  Step.idx st = Step.img st - 1 /\
  Step.distance_imgs st = Step.img st - Window.start_img win + 1 /\
  2 <= Step.distance_imgs st.

Lemma last_cons {A} (l : list A) : forall a d, last (a :: l) d = last l a.
Proof.
  induction l as [|b l IH]; intros a d; [reflexivity|].
  change (last (a :: b :: l) d) with (last (b :: l) d).
  rewrite !IH. reflexivity.
Qed.

Section Shape.
Variable slicePositions : table.
Variables x0 x1 : Q.

Lemma make_entry_shape s e e1 c n e2 dd d w :
  get_asdf slicePositions s x0 = Ok (e, e1, c) ->
  get_asdf1 slicePositions s x1 = Ok (n, e2, dd) ->
  make_entry slicePositions s e e1 c n e2 d = Ok w ->
  well_formed w /\ Window.error (Entry.window w) = e1 /\ w_next w = n.
Proof.
  intros Ha Hs Hw.
  apply nearest_future, future_keys in Ha.
  apply nearest_future, future_keys in Hs.
  apply make_entry_Ok in Hw. destruct Hw as (sp & ep & cp & _ & _ & _ & ->).
  unfold well_formed. cbn.
  assert (s <= (s + e) / 2 < e).
  { split; [apply Z.div_le_lower_bound; lia
           | apply Z.div_lt_upper_bound; lia]. }
  repeat split; lia.
Qed.

Lemma run_shape d s ws :
  run slicePositions x0 x1 d s ws ->
  Forall (fun w => well_formed w /\
                   num_ltb (Fin 1) (Window.error (Entry.window w)) = false) ws.
Proof.
  induction 1 as [|s e e1 c n e2 dd w ws Ha Hb Hs Hw Hr IH];
    constructor; [|exact IH].
  destruct (make_entry_shape _ _ _ _ _ _ _ _ _ Ha Hs Hw) as (Hwf & -> & _).
  auto.
Qed.

(** Where a run stops, the best span misses the target by more than one
    percent. *)
Lemma run_stops d s ws : forall first,
  run slicePositions x0 x1 d s ws ->
  w_next first = s ->
  exists e e1 c,
    get_asdf slicePositions (w_next (last ws first)) x0 = Ok (e, e1, c) /\
    num_ltb (Fin 1) e1 = true.
Proof.
  intros first H. revert first.
  induction H as [s e e1 c Ha Hb|s e e1 c n e2 dd w ws Ha Hb Hs Hw Hr IH];
    intros first Hf.
  - cbn [last]. rewrite Hf. eauto.
  - destruct (make_entry_shape _ _ _ _ _ _ _ _ _ Ha Hs Hw) as (_ & _ & Hn).
    destruct (IH w Hn) as (e' & e1' & c' & Hg & Hlt).
    exists e', e1', c'. split; [|exact Hlt].
    rewrite last_cons. exact Hg.
Qed.

End Shape.

End QueryFacts.

Module LayoutFacts.
Import PositionAware NearestFacts TableFacts GeneratorFacts ChainFacts
  StepFacts Layout QueryFacts.

Lemma fold_max_range n : forall lo,
  fold_left Z.max (range (lo + 1) n) lo = lo + Z.of_nat n.
Proof.
  induction n as [|n IH]; intro lo; cbn [range fold_left]; [lia|].
  replace (Z.max lo (lo + 1)) with (lo + 1) by lia.
  rewrite IH. lia.
Qed.

Section Table.
Variable totalImages : Z.
Variables spaceBetweenSlices sliceThickness : Q.

Abbreviation tbl := (slice_table totalImages spaceBetweenSlices sliceThickness).
Abbreviation at_ := (slice_at totalImages spaceBetweenSlices sliceThickness).

Lemma slice_table_largestKey lo n :
  largestKey (tbl lo (S n)) = Some (lo + Z.of_nat n).
Proof.
  unfold largestKey. rewrite slice_table_keys. cbn [range].
  now rewrite fold_max_range.
Qed.

Lemma coverage_slice a k :
  a <= k ->
  (coverage_mm (at_ a) (Some (at_ k))
   == inject_Z (k - a) * Qabs spaceBetweenSlices + sliceThickness)%Q.
Proof.
  intro H. unfold coverage_mm.
  rewrite (distance_slice totalImages spaceBetweenSlices sliceThickness a k H).
  unfold thickness_mm, slice_at. cbn [Position.thickness_mm]. field.
Qed.

Lemma future_nonempty n a :
  1 <= a < Z.of_nat n -> get_future_positions (tbl 1 n) a <> [].
Proof.
  intros Ha E. apply (f_equal (@length _)) in E.
  rewrite slice_table_future, slice_table_length in E by lia.
  cbn [length] in E. lia.
Qed.

Lemma future_empty n a :
  Z.of_nat n <= a -> get_future_positions (tbl 1 n) a = [].
Proof.
  intro Ha. rewrite slice_table_future by lia.
  replace (Z.to_nat (1 + Z.of_nat n - 1 - a)) with O by lia. reflexivity.
Qed.

Lemma make_entry_table n s e e1 c j e2 d :
  1 <= s -> s < e <= Z.of_nat n -> 1 <= j <= Z.of_nat n ->
  exists w, make_entry (tbl 1 n) s e e1 c j e2 d = Ok w.
Proof.
  intros Hs He Hj. unfold make_entry.
  assert (s <= (s + e) / 2 < e).
  { split; [apply Z.div_le_lower_bound; lia
           | apply Z.div_lt_upper_bound; lia]. }
  rewrite !slice_table_get by lia. cbn [defined bind]. eauto.
Qed.

End Table.

End LayoutFacts.

Module PositionTheorems.
Import PositionAware NearestFacts TableFacts GeneratorFacts ChainFacts
  StepFacts Layout QueryFacts LayoutFacts.

(** X20: the two nearest-match queries [get_asdf] and [get_asdf1] raise a
    [TypeError] exactly when no key of the table lies past the start index,
    or the start index is not a key of the table; a query from the last key
    always raises.  Otherwise both return a key past the start index. *)
Theorem nearest_query_raises (positions : table) start_index x0 x1 :
  (get_asdf positions start_index x0 = TypeError <->
   get_future_positions positions start_index = [] \/
   Obj.get positions start_index = None) /\
  (get_asdf1 positions start_index x1 = TypeError <->
   get_future_positions positions start_index = [] \/
   Obj.get positions start_index = None) /\
  (get_future_positions positions start_index <> [] ->
   Obj.get positions start_index <> None ->
   exists e e1 c n e2 d,
     get_asdf positions start_index x0 = Ok (e, e1, c) /\
     get_asdf1 positions start_index x1 = Ok (n, e2, d) /\
     start_index < e /\ start_index < n).
Proof.
  split; [apply nearest_TypeError|]. split; [apply nearest_TypeError|].
  intros Hf Hs.
  destruct (Obj.get positions start_index) as [st|] eqn:Es; [|congruence].
  destruct (nearest_succeeds coverage_mm positions start_index x0 st Hf Es)
    as (e & e1 & c & Ha).
  destruct (nearest_succeeds distance_mm positions start_index x1 st Hf Es)
    as (n & e2 & d & Hd).
  exists e, e1, c, n, e2, d. split; [exact Ha|]. split; [exact Hd|].
  apply nearest_future, future_keys in Ha.
  apply nearest_future, future_keys in Hd. lia.
Qed.



(** X22: a negative step target makes [get_windows] raise on the table
    of [getSlicePositions] (at least two items, total length positive): the
    step query then returns the last key, and the span query from the last
    key has no key ahead. *)
Theorem get_windows_negative_step
    totalImages totalLength sliceThickness x0 x1 :
  2 <= totalImages -> (0 < totalLength)%Q -> (x1 < 0)%Q ->
  get_windows (getSlicePositions totalImages totalLength sliceThickness) x0 x1
  = TypeError.
Proof.
  intros Hn Hl Hx. rewrite getSlicePositions_eq.
  set (sp := (totalLength / inject_Z (totalImages - 1))%Q).
  assert (Hsp : (0 < Qabs sp)%Q).
  { rewrite Qabs_pos; unfold sp, Qdiv.
    - apply Qmult_lt_0_compat; [exact Hl|].
      apply Qinv_lt_0_compat. rewrite <- (Zlt_Qlt 0). lia.
    - apply Qmult_le_0_compat; [lra|].
      apply Qinv_le_0_compat. rewrite <- (Zle_Qle 0). lia. }
  destruct (Z.to_nat totalImages) as [|n] eqn:En; [lia|].
  assert (Hfut : get_future_positions
                   (slice_table totalImages sp sliceThickness 1 (S n)) 1 <> [])
    by (apply future_nonempty; lia).
  assert (Hget : Obj.get (slice_table totalImages sp sliceThickness 1 (S n)) 1
                 = Some (slice_at totalImages sp sliceThickness 1))
    by (apply slice_table_get; lia).
  destruct (nearest_succeeds coverage_mm _ 1 x0 _ Hfut Hget)
    as (e & e1 & c & Ha).
  destruct (nearest_succeeds distance_mm _ 1 x1 _ Hfut Hget)
    as (j & e2 & d & Hd).
  pose proof (nearest_slice_range _ _ _ _ _ _ _ _ _ _ (Z.le_refl 1) Ha)
    as [He _].
  pose proof (get_asdf1_negative totalImages sp sliceThickness (S n) 1 x1
                j e2 d Hsp Hx (Z.le_refl 1) Hd) as Hj.
  destruct (make_entry_table totalImages sp sliceThickness (S n)
              1 e e1 c j e2 d (Z.le_refl 1) He ltac:(lia)) as [w Hw].
  unfold get_windows, get_windows_fuel.
  rewrite slice_table_smallestKey.
  change (get_asdf ?t 1 x0) with (nearest coverage_mm t 1 x0).
  change (get_asdf1 ?t 1 x1) with (nearest distance_mm t 1 x1).
  rewrite Ha. cbn [bind]. rewrite Hd. cbn [bind]. rewrite Hw. cbn [bind].
  rewrite slice_table_length. cbn [windows_loop].
  assert (Hlast : get_asdf (slice_table totalImages sp sliceThickness 1 (S n))
                    j x0 = TypeError).
  { apply nearest_TypeError. left. apply future_empty. lia. }
  rewrite Hlast. reflexivity.
Qed.

Lemma get_windows_negative_step_witness :
  get_windows (getSlicePositions 10 9 1) 3 (-2) = TypeError.
Proof.
  apply (get_windows_negative_step 10 9 1 3 (-2)); [lia | | ]; reflexivity.
Defined.

(** X23: [get_results], and with it [objective], fails only in
    [get_windows]: whenever [get_windows] returns a list, [get_stats]
    succeeds on it and the objective is the [sum] of the costs of its
    errors; when [get_windows] raises, so does the objective. *)
Theorem objective_raises_with_get_windows
    (slicePositions : table) targets weights x0 x1 :
  (get_windows slicePositions x0 x1 = TypeError ->
   objective slicePositions targets weights x0 x1 = TypeError) /\
  (forall ws, get_windows slicePositions x0 x1 = Ok ws ->
     exists stats,
       get_stats slicePositions ws = Ok stats /\
       objective slicePositions targets weights x0 x1
       = Ok (sum (get_costs weights (get_errors targets stats)))).
Proof.
  unfold objective, get_results. split.
  - intros ->. reflexivity.
  - intros ws H. rewrite H. cbn [bind].
    apply get_windows_chained in H. destruct H as (k & d & _ & Hne & Hc).
    assert (Hall : forall s l, chained slicePositions d s l ->
              Forall (fun w =>
                        (exists p, Obj.get slicePositions (w_start w) = Some p)
                        /\ exists p, Obj.get slicePositions (w_end w) = Some p)
                l).
    { intros s l. revert s. induction l as [|w l IH]; intros s Hl;
        [constructor|].
      destruct Hl as [Hf Hr]. constructor; [|exact (IH _ Hr)].
      destruct Hf as (-> & _ & He & _ & _ & [sp [Hsp _]] & _).
      split; [eauto | now apply get_of_key]. }
    specialize (Hall _ _ Hc). rewrite Forall_forall in Hall.
    destruct ws as [|w0 ws]; [congruence|].
    unfold get_stats.
    destruct (nth_error (w0 :: ws) (length (w0 :: ws) - 1)) as [wl|] eqn:El.
    2:{ apply nth_error_None in El. cbn [length] in El. lia. }
    cbn [nth_error defined bind].
    destruct (Hall w0 (or_introl eq_refl)) as [[p0 Hp0] _].
    destruct (Hall wl (nth_error_In _ _ El)) as [_ [pl Hpl]].
    rewrite Hp0, Hpl. cbn [defined bind]. eexists. split; reflexivity.
Qed.

(** X24: the length the percentage target of [calculateWindows] refers
    to, the coverage from the smallest to the largest key of the table of
    [getSlicePositions], is the total length plus one slice thickness (at
    least two items). *)
Theorem full_coverage_of_table totalImages totalLength sliceThickness :
  2 <= totalImages ->
  exists c,
    full_coverage (getSlicePositions totalImages totalLength sliceThickness)
    = Ok c /\
    (c == Qabs totalLength + sliceThickness)%Q.
Proof.
  intro Hn. rewrite getSlicePositions_eq.
  set (sp := (totalLength / inject_Z (totalImages - 1))%Q).
  destruct (Z.to_nat totalImages) as [|n] eqn:En; [lia|].
  unfold full_coverage.
  rewrite slice_table_smallestKey, slice_table_largestKey.
  rewrite !slice_table_get by lia. cbn [defined bind].
  eexists. split; [reflexivity|].
  rewrite coverage_slice by lia.
  replace (1 + Z.of_nat n - 1) with (totalImages - 1) by lia.
  assert (Hnz : ~ (inject_Z (totalImages - 1) == 0)%Q)
    by (apply StatsDisplayFacts.inject_Z_nonzero; lia).
  assert (Hpos : (0 < inject_Z (totalImages - 1))%Q)
    by (rewrite <- (Zlt_Qlt 0); lia).
  assert (E : (inject_Z (totalImages - 1) * Qabs sp == Qabs totalLength)%Q).
  { rewrite <- (Qabs_pos (inject_Z (totalImages - 1))) at 1 by lra.
    rewrite <- Qabs_Qmult. apply Qabs_wd. unfold sp. field. exact Hnz. }
  rewrite E. reflexivity.
Qed.

Lemma full_coverage_of_table_witness :
  exists c,
    full_coverage (getSlicePositions 10 9 1) = Ok c /\
    (c == Qabs 9 + 1)%Q.
Proof. apply (full_coverage_of_table 10 9 1). lia. Defined.

(** X25: every record [get_windows] returns, over any table and for any
    targets, is consistent: the 0-based indices are the item numbers less
    one, the window counts end - start + 1 >= 2 items, its centre index is
    floor((start + end) / 2) and lies in [start, end), and the step counts
    next - start + 1 >= 2 items, one more than the number of items the start
    moves on. *)
Theorem get_windows_records (slicePositions : table) x0 x1 ws :
  get_windows slicePositions x0 x1 = Ok ws ->
  Forall well_formed ws.
Proof.
  intro H. apply get_windows_fuel_Ok in H.
  destruct H as (k & e & e1 & c & n & e2 & d & first & more
                 & _ & Ha & Hs & Hw & Hr & ->).
  constructor.
  - exact (proj1 (make_entry_shape _ _ _ _ _ _ _ _ _ _ _ _ Ha Hs Hw)).
  - apply run_shape in Hr. eapply Forall_impl; [|exact Hr].
    cbn. tauto.
Qed.

Lemma get_windows_records_witness :
  Forall well_formed Claims.example_run.
Proof.
  apply (get_windows_records (getSlicePositions 10 9 1) 3 2).
  vm_compute. reflexivity.
Defined.

(** X26: a list [get_windows] returns is never empty; its first window
    starts at the smallest key; every later window has a span error that is
    not above 1 (percent); and the loop was left at the next start of the
    last window because the best span there misses the target by more than
    1 percent. *)
Theorem get_windows_stop (slicePositions : table) x0 x1 ws :
  get_windows slicePositions x0 x1 = Ok ws ->
  exists first more,
    ws = first :: more /\
    smallestKey slicePositions = Some (w_start first) /\
    Forall (fun w => num_ltb (Fin 1) (Window.error (Entry.window w)) = false)
      more /\
    exists e e1 c,
      get_asdf slicePositions (w_next (last more first)) x0 = Ok (e, e1, c) /\
      num_ltb (Fin 1) e1 = true.
Proof.
  intro H. apply get_windows_fuel_Ok in H.
  destruct H as (k & e & e1 & c & n & e2 & d & first & more
                 & Hk & Ha & Hs & Hw & Hr & ->).
  exists first, more. split; [reflexivity|].
  destruct (make_entry_shape _ _ _ _ _ _ _ _ _ _ _ _ Ha Hs Hw)
    as (_ & _ & Hn).
  split; [|split].
  - apply make_entry_Ok in Hw.
    destruct Hw as (sp & ep & cp & _ & _ & _ & ->). exact Hk.
  - apply run_shape in Hr. eapply Forall_impl; [|exact Hr]. cbn. tauto.
  - exact (run_stops _ _ _ _ _ _ first Hr Hn).
Qed.

Lemma get_windows_stop_witness :
  exists first more,
    Claims.example_run = first :: more /\
    smallestKey (getSlicePositions 10 9 1) = Some (w_start first) /\
    Forall (fun w => num_ltb (Fin 1) (Window.error (Entry.window w)) = false)
      more /\
    exists e e1 c,
      get_asdf (getSlicePositions 10 9 1) (w_next (last more first)) 3
      = Ok (e, e1, c) /\
      num_ltb (Fin 1) e1 = true.
Proof.
  apply (get_windows_stop (getSlicePositions 10 9 1) 3 2).
  vm_compute. reflexivity.
Defined.

End PositionTheorems.

(** ** Statistics of the Nelder-Mead variant *)

Module GuardedDisplayFacts.
Import IndexBased TableFacts LoopFacts Display DisplayFacts StatsDisplayFacts
  GuardedDisplay.

Lemma guarded_stats_layout totalImages sliceInterval windowSize stepSize n :
  calculate_stats totalImages
    (map (window_at totalImages sliceInterval windowSize stepSize)
       (range 0 (S n)))
  = Ok (Some
          (mkStats
             (end_ (window_at totalImages sliceInterval windowSize stepSize
                      (Z.of_nat n)) + 1)
             (inject_Z (end_ (window_at totalImages sliceInterval windowSize
                                stepSize (Z.of_nat n)) + 1)
              / inject_Z totalImages * 100)
             (if (1 <? S n)%nat
              then
                PositionAware.sum_over
                  (fun i =>
                     inject_Z
                       (end_ (window_at totalImages sliceInterval windowSize
                                stepSize i) + 1
                        - start (window_at totalImages sliceInterval windowSize
                                   stepSize (i + 1))))
                  (range 0 n)
                / inject_Z (Z.of_nat (S n) - 1)
              else 0)%Q)).
Proof.
  unfold calculate_stats.
  rewrite nth_error_last_map, length_map, range_length.
  cbn [Nat.eqb]. cbn [range map nth_error bind defined].
  change (window_at totalImages sliceInterval windowSize stepSize 0
          :: map (window_at totalImages sliceInterval windowSize stepSize)
               (range (0 + 1) n))
    with (map (window_at totalImages sliceInterval windowSize stepSize)
            (range 0 (S n))).
  rewrite adjacent_map, adjacent_range.
  replace (S n - 1)%nat with n by lia.
  replace (end_ (window_at totalImages sliceInterval windowSize stepSize
                   (0 + Z.of_nat n))
           - start (window_at totalImages sliceInterval windowSize stepSize 0)
           + 1)
    with (end_ (window_at totalImages sliceInterval windowSize stepSize
                  (Z.of_nat n)) + 1)
    by (unfold window_at; cbn [start end_]; lia).
  unfold PositionAware.sum_over.
  rewrite !fold_left_over_map. reflexivity.
Qed.

End GuardedDisplayFacts.

Module GuardedDisplayTheorems.
Import NelderMead Optimizer OptimizerFacts TableFacts LoopFacts DisplayFacts
  StatsDisplayFacts ResultFacts GuardedDisplay GuardedDisplayFacts.

(** X27: the statistics of the Nelder-Mead variant never raise on the
    windows of [calculateWindows] (at least one item, positive slice
    interval).  For a result whose window fits the sequence they report the
    covered length (numWindows - 1) * step + windowSize, the coverage of the
    result in percent, and a mean overlap of windowSize - step items (0 for a
    single window); for a result whose window exceeds the sequence the
    display returns early. *)
Theorem calculate_stats_of_result totalImages sliceInterval b :
  1 <= totalImages -> (0 < sliceInterval)%Q ->
  (windowSize (finalize totalImages sliceInterval b) <= totalImages ->
   exists st,
     calculate_stats totalImages
       (calculateWindows totalImages sliceInterval
          (finalize totalImages sliceInterval b))
     = Ok (Some st) /\
     coverageLength st
     = (Optimizer.numWindows (finalize totalImages sliceInterval b) - 1)
       * stepOrOverlap (finalize totalImages sliceInterval b)
       + windowSize (finalize totalImages sliceInterval b) /\
     (GuardedDisplay.coverage st
      == Optimizer.coverage (finalize totalImages sliceInterval b) * 100)%Q /\
     (actualOverlap st
      == if Optimizer.numWindows (finalize totalImages sliceInterval b) =? 1
         then 0
         else inject_Z
                (windowSize (finalize totalImages sliceInterval b)
                 - stepOrOverlap (finalize totalImages sliceInterval b)))%Q)
  /\
  (totalImages < windowSize (finalize totalImages sliceInterval b) ->
   calculate_stats totalImages
     (calculateWindows totalImages sliceInterval
        (finalize totalImages sliceInterval b))
   = Ok None).
Proof.
  intros Hn Hsi. split.
  - intro Hw.
    destruct (finalize_fits totalImages sliceInterval b Hw)
      as (Hk & Hle & _).
    destruct (finalize_ranges totalImages sliceInterval b) as (H1 & H2 & _).
    destruct (calculateWindows_fits totalImages sliceInterval b Hw)
      as [-> Hat].
    assert (Hcov : Optimizer.coverage (finalize totalImages sliceInterval b)
              = (inject_Z
                   (Z.min
                      ((Optimizer.numWindows
                          (finalize totalImages sliceInterval b) - 1)
                       * stepOrOverlap (finalize totalImages sliceInterval b)
                       + windowSize (finalize totalImages sliceInterval b)
                       - 1 + 1)
                      totalImages)
                 / inject_Z totalImages)%Q) by reflexivity.
    rewrite Hcov. clear Hcov.
    set (w := windowSize (finalize totalImages sliceInterval b)) in *.
    set (s := stepOrOverlap (finalize totalImages sliceInterval b)) in *.
    set (k := Optimizer.numWindows (finalize totalImages sliceInterval b)) in *.
    destruct (Z.to_nat k) as [|n] eqn:En; [lia|].
    assert (Ek : k = Z.of_nat n + 1) by lia.
    rewrite guarded_stats_layout. eexists. split; [reflexivity|].
    cbn [coverageLength GuardedDisplay.coverage actualOverlap].
    rewrite (Hat (Z.of_nat n)) by lia.
    assert (HN : ~ (inject_Z totalImages == 0)%Q)
      by (apply inject_Z_nonzero; lia).
    split; [lia|]. split.
    + replace (Z.min ((k - 1) * s + w - 1 + 1) totalImages)
        with (Z.of_nat n * s + w - 1 + 1) by lia.
      field. exact HN.
    + destruct n as [|n].
      * replace (k =? 1) with true by (symmetry; apply Z.eqb_eq; lia).
        reflexivity.
      * replace (k =? 1) with false by (symmetry; apply Z.eqb_neq; lia).
        replace (1 <? S (S n))%nat with true by reflexivity.
        rewrite (StatsFacts.sum_over_const _ (inject_Z (w - s))).
        -- rewrite range_length.
           replace (Z.of_nat (S (S n)) - 1) with (Z.of_nat (S n)) by lia.
           field. apply inject_Z_nonzero. lia.
        -- apply Forall_forall. intros i Hi. apply range_In in Hi.
           rewrite (Hat i) by lia. f_equal.
           unfold window_at. cbn [IndexBased.start]. lia.
  - intro Hw.
    destruct (finalize_ranges totalImages sliceInterval b) as (H1 & H2 & Hk).
    unfold calculateWindows.
    assert (Optimizer.numWindows (finalize totalImages sliceInterval b) <= 0).
    { rewrite Hk.
      assert ((totalImages - windowSize (finalize totalImages sliceInterval b))
              / stepOrOverlap (finalize totalImages sliceInterval b) < 0);
        [|lia].
      apply Z.div_lt_upper_bound; lia. }
    replace (Z.to_nat _) with O by lia. reflexivity.
Qed.

Lemma calculate_stats_of_result_witness :
  (windowSize (finalize 10 1 (mkRun (mkParams 5 0 3 0) 2)) <= 10 ->
   exists st,
     calculate_stats 10
       (calculateWindows 10 1 (finalize 10 1 (mkRun (mkParams 5 0 3 0) 2)))
     = Ok (Some st) /\
     coverageLength st
     = (Optimizer.numWindows (finalize 10 1 (mkRun (mkParams 5 0 3 0) 2)) - 1)
       * stepOrOverlap (finalize 10 1 (mkRun (mkParams 5 0 3 0) 2))
       + windowSize (finalize 10 1 (mkRun (mkParams 5 0 3 0) 2)) /\
     (GuardedDisplay.coverage st
      == Optimizer.coverage (finalize 10 1 (mkRun (mkParams 5 0 3 0) 2)) * 100)%Q
     /\
     (actualOverlap st
      == if Optimizer.numWindows (finalize 10 1 (mkRun (mkParams 5 0 3 0) 2))
            =? 1
         then 0
         else inject_Z
                (windowSize (finalize 10 1 (mkRun (mkParams 5 0 3 0) 2))
                 - stepOrOverlap (finalize 10 1 (mkRun (mkParams 5 0 3 0) 2))))%Q)
  /\
  (10 < windowSize (finalize 10 1 (mkRun (mkParams 5 0 3 0) 2)) ->
   calculate_stats 10
     (calculateWindows 10 1 (finalize 10 1 (mkRun (mkParams 5 0 3 0) 2)))
   = Ok None).
Proof.
  apply (calculate_stats_of_result 10 1%Q (mkRun (mkParams 5 0 3 0) 2));
    [lia | reflexivity].
Defined.

End GuardedDisplayTheorems.

Module CoverageTheorems.
Import PositionAware NearestFacts TableFacts GeneratorFacts ChainFacts
  StepFacts Layout QueryFacts LayoutFacts.

(** X28: over the table of [getSlicePositions] (at least two items, total
    length positive), the total coverage [get_stats] reports for a list
    [get_windows] returned is the span from item 1 to the end of the last
    window, (end - 1) * spacing + thickness; it never exceeds the full
    coverage, total length plus one slice thickness. *)
Theorem get_stats_total_coverage
    totalImages totalLength sliceThickness x0 x1 ws wl :
  2 <= totalImages -> (0 < totalLength)%Q ->
  get_windows (getSlicePositions totalImages totalLength sliceThickness) x0 x1
  = Ok ws ->
  nth_error ws (length ws - 1) = Some wl ->
  exists stats,
    get_stats (getSlicePositions totalImages totalLength sliceThickness) ws
    = Ok stats /\
    (stats total_coverage
     == inject_Z (w_end wl - 1) * (totalLength / inject_Z (totalImages - 1))
        + sliceThickness)%Q /\
    (stats total_coverage <= totalLength + sliceThickness)%Q.
Proof.
  intros Hn Hl H Hlast. rewrite getSlicePositions_eq in *.
  set (sp := (totalLength / inject_Z (totalImages - 1))%Q) in *.
  assert (Hpos : (0 < inject_Z (totalImages - 1))%Q)
    by (rewrite <- (Zlt_Qlt 0); lia).
  assert (Hsp : (0 < sp)%Q).
  { unfold sp, Qdiv. apply Qmult_lt_0_compat; [exact Hl|].
    now apply Qinv_lt_0_compat. }
  assert (Habs : (Qabs sp == sp)%Q) by (apply Qabs_pos; lra).
  apply get_windows_chained in H. destruct H as (k & d & Hk & Hne & Hc).
  destruct (Z.to_nat totalImages) as [|n] eqn:En; [lia|].
  rewrite slice_table_smallestKey in Hk. injection Hk as <-.
  assert (Hb : Forall (fun w => 1 <= w_start w /\ w_start w < w_end w /\
                                w_end w <= totalImages) ws).
  { eapply chained_bounds; [| |exact Hc]; [|lia].
    intros j Hj. rewrite slice_table_keys in Hj. apply range_In in Hj. lia. }
  rewrite Forall_forall in Hb.
  destruct (Hb wl (nth_error_In _ _ Hlast)) as (Hl1 & Hl2 & Hl3).
  destruct ws as [|w0 ws]; [congruence|].
  destruct Hc as [(Hs0 & _) _].
  unfold get_stats. rewrite Hlast. cbn [nth_error defined bind].
  rewrite Hs0, !slice_table_get by lia. cbn [defined bind].
  eexists. split; [reflexivity|]. cbn [object3].
  rewrite coverage_slice by lia. rewrite Habs.
  split; [reflexivity|].
  assert (E : (totalLength == inject_Z (totalImages - 1) * sp)%Q)
    by (unfold sp; field; lra).
  rewrite E.
  apply Qplus_le_l. apply Qmult_le_compat_r; [|lra].
  rewrite <- Zle_Qle. lia.
Qed.

Lemma get_stats_total_coverage_witness :
  exists stats,
    get_stats (getSlicePositions 10 9 1) Claims.example_run = Ok stats /\
    (stats total_coverage
     == inject_Z (9 - 1) * (9 / inject_Z (10 - 1)) + 1)%Q /\
    (stats total_coverage <= 9 + 1)%Q.
Proof.
  apply (get_stats_total_coverage 10 9 1 3 2 Claims.example_run
           (Entry.mk
              (Window.mk 7 6 (27 # 9) 9 8 (9 # 9) (Fin (0 # 486)) (486 # 162)
                 3 8 (18 # 9))
              (Step.mk 9 8 (Fin (0 # 162)) (162 # 81) 3)));
    try lia; reflexivity.
Defined.

End CoverageTheorems.
